(** * fMRI-inference: stability-selection Lasso, split inference and FDR control

    A shallow embedding of [stab_lasso.py].  The numerical code is written
    once, over an interface [Numeric] of the arithmetic numpy performs, and
    read at two instances:

    - [float] (IEEE-754 binary64, Rocq's primitive floats): what the program
      computes, evaluated bit for bit by [vm_compute];
    - [R] (the real numbers, with the real logarithm): the arithmetic the
      statistical statements are about.

    Calls into scikit-learn, statsmodels and numpy's random generator are
    fields of a record [Library]; exceptions are the [Raise] branch of
    [result]. *)

From Stdlib Require Import List Bool Arith ZArith Lia.
From Stdlib Require Import Reals Lra.
From Stdlib Require Import QArith Qround.
From Stdlib Require Import Floats.
From Stdlib Require Import Sorting.Sorted Sorting.Permutation.
Import ListNotations.

Set Warnings "-inexact-float".
Close Scope Q_scope.
Close Scope R_scope.
Local Open Scope nat_scope.

(** ** Exceptions *)

Inductive exn : Type :=
| ValueError
| IndexError
| OverflowError
| ZeroDivisionError
| LibraryError.

Inductive result (T : Type) : Type :=
| Ok (x : T)
| Raise (e : exn).
Arguments Ok {T} x.
Arguments Raise {T} e.

Definition bind {T U : Type} (c : result T) (k : T -> result U) : result U :=
  match c with
  | Ok x => k x
  | Raise e => Raise e
  end.

Declare Scope result_scope.
Delimit Scope result_scope with result.
Notation "x <- c ;; k" := (bind c (fun x => k))
  (at level 61, c at next level, right associativity) : result_scope.
Notation "' pat <- c ;; k" := (bind c (fun x => match x with pat => k end))
  (at level 61, pat pattern, c at next level, right associativity) : result_scope.
Local Open Scope result_scope.

(** ** The arithmetic of numpy's float64 *)

Class Numeric (A : Type) : Type := {
  of_Z : Z -> A;            (* an integer used as a float *)
  add : A -> A -> A;
  sub : A -> A -> A;
  mul : A -> A -> A;
  div : A -> A -> A;
  absn : A -> A;            (* np.abs *)
  log : A -> A;             (* np.log *)
  leb : A -> A -> bool;     (* <= *)
  ltb : A -> A -> bool;     (* <  *)
  to_int : A -> result Z    (* int(x): truncation toward zero *)
}.

Declare Scope num_scope.
Delimit Scope num_scope with num.
Notation "x [+] y" := (add x y) (at level 50, left associativity) : num_scope.
Notation "x [-] y" := (sub x y) (at level 50, left associativity) : num_scope.
Notation "x [*] y" := (mul x y) (at level 40, left associativity) : num_scope.
Notation "x [/] y" := (div x y) (at level 40, left associativity) : num_scope.
Notation "x [<=] y" := (leb x y) (at level 70, no associativity) : num_scope.
Notation "x [<] y" := (ltb x y) (at level 70, no associativity) : num_scope.
Notation "x [>] y" := (ltb y x) (at level 70, no associativity) : num_scope.
Local Open Scope num_scope.

Definition of_nat {A} `{Numeric A} (n : nat) : A := of_Z (Z.of_nat n).

(** *** Binary64 *)

(** [int(x)] of a binary64 value, read off its mantissa and exponent. *)
Definition float_to_int (x : float) : result Z :=
  match Prim2SF x with
  | S754_zero _ => Ok 0%Z
  | S754_finite s m e =>
      let a := Z.shiftl (Zpos m) e in
      Ok (if s then (- a)%Z else a)
  | S754_infinity _ => Raise OverflowError
  | S754_nan => Raise ValueError
  end.

(** The instance takes libm's [log], which the kernel's floats do not have. *)
Definition float_numeric (flog : float -> float) : Numeric float := {|
  of_Z := fun z => match z with
                   | Z0 => 0%float
                   | Zpos _ => PrimFloat.of_uint63 (Uint63.of_Z z)
                   | Zneg _ => PrimFloat.opp (PrimFloat.of_uint63 (Uint63.of_Z (- z)))
                   end;
  add := PrimFloat.add;
  sub := PrimFloat.sub;
  mul := PrimFloat.mul;
  div := PrimFloat.div;
  absn := PrimFloat.abs;
  log := flog;
  leb := PrimFloat.leb;
  ltb := PrimFloat.ltb;
  to_int := float_to_int
|}.

(** *** Real numbers *)

Definition Rleb (x y : R) : bool := if Rle_dec x y then true else false.
Definition Rltb (x y : R) : bool := if Rlt_dec x y then true else false.
Definition Rtrunc (x : R) : Z :=
  if Rle_dec 0 x then Int_part x else (- Int_part (- x))%Z.

#[export] Instance R_numeric : Numeric R := {|
  of_Z := IZR;
  add := Rplus;
  sub := Rminus;
  mul := Rmult;
  div := Rdiv;
  absn := Rabs;
  log := ln;
  leb := Rleb;
  ltb := Rltb;
  to_int := fun x => Ok (Rtrunc x)
|}.

(** ** Arrays *)

(** Sorting and the minimum and maximum reductions are modelled for arrays
    without NaN, which is what p-values and scores are. *)

Section Arrays.
Context {A : Type} `{Numeric A}.

Definition zero : A := of_Z 0.
Definition one : A := of_Z 1.

(** [np.arange(a, b)] as floats. *)
Definition arange (a b : nat) : list A := map of_nat (seq a (b - a)).

(** Elementwise binary operation on arrays of equal length. *)
Fixpoint map2 {B C D : Type} (f : B -> C -> D) (l : list B) (m : list C) : list D :=
  match l, m with
  | x :: l', y :: m' => f x y :: map2 f l' m'
  | _, _ => []
  end.

(** [np.sort]: ascending, by insertion. *)
Fixpoint insert (x : A) (l : list A) : list A :=
  match l with
  | [] => [x]
  | y :: t => if x [<=] y then x :: l else y :: insert x t
  end.

Definition np_sort (l : list A) : list A := fold_right insert [] l.

(** [np.argsort]: the indices in the order [np_sort] puts their values. *)
Fixpoint insert_by (key : nat -> A) (i : nat) (l : list nat) : list nat :=
  match l with
  | [] => [i]
  | j :: t => if key i [<=] key j then i :: l else j :: insert_by key i t
  end.

Definition np_argsort (l : list A) : list nat :=
  fold_right (insert_by (fun i => nth i l zero)) [] (seq 0 (length l)).

(** [a[idx]] for an index array. *)
Definition take (l : list A) (idx : list nat) : list A :=
  map (fun i => nth i l zero) idx.

(** [a[i] = v] on a list; out of range leaves the list as it is (the
    callers below only write inside). *)
Fixpoint update {B : Type} (i : nat) (v : B) (l : list B) : list B :=
  match l, i with
  | [], _ => []
  | _ :: t, O => v :: t
  | x :: t, S i' => x :: update i' v t
  end.

(** [out[idx] = vals]: one write per index, in order. *)
Fixpoint scatter (idx : list nat) (vals : list A) (out : list A) : list A :=
  match idx, vals with
  | i :: idx', v :: vals' => scatter idx' vals' (update i v out)
  | _, _ => out
  end.

(** [np.maximum], [np.minimum], [np.clip(x, lo, hi)]. *)
Definition maximum (a b : A) : A := if a [<] b then b else a.
Definition minimum (a b : A) : A := if b [<] a then b else a.
Definition clip (lo hi x : A) : A := minimum (maximum x lo) hi.

(** Python's builtin [min(a, b)]. *)
Definition pymin (a b : A) : A := if b [<] a then b else a.

(** Index of the last element satisfying [f] ([np.where(f)[0][-1]]). *)
Fixpoint last_index (f : A -> bool) (l : list A) (i : nat) : option nat :=
  match l with
  | [] => None
  | x :: t =>
      match last_index f t (S i) with
      | Some j => Some j
      | None => if f x then Some i else None
      end
  end.
End Arrays.

(** ** FDR and FWER control *)

Section Selection.
Context {A : Type} `{Numeric A}.

(** [np.sort(pvalues) / np.arange(1, p + 1)] *)
Definition rank_divide (sorted : list A) : list A :=
  map2 div sorted (arange 1 (length sorted + 1)).

Definition select_model_fdr (pvalues : list A) (q : A)
    (independent normalize : bool) : result (list bool) :=
  let p := length pvalues in
  let pvalues_sorted := rank_divide (np_sort pvalues) in
  let q := if negb independent then q [/] log (of_nat p) else q in
  let q := if normalize then q [/] of_nat p else q in
  bound <-
    (if forallb (fun x => x [>] q) pvalues_sorted then Ok zero
     else match last_index (fun x => x [<=] q) pvalues_sorted 0 with
          | Some h => Ok (nth h pvalues_sorted zero [*] of_nat (h + 1))
          | None => Raise IndexError
          end) ;;
  Ok (map (fun x => x [<=] bound) pvalues).

(** The loop [for i in range(p - 1, 0, -1): b[i-1] = min(b[i-1], b[i])]. *)
Fixpoint running_min (l : list A) : list A :=
  match l with
  | [] => []
  | x :: t =>
      match running_min t with
      | [] => [x]
      | y :: r => pymin x y :: y :: r
      end
  end.

(** [select_model_fdr_bounds] up to the final clip. *)
Definition fdr_bounds_unclipped (pvalues : list A)
    (independent normalize : bool) : list A :=
  let p := length pvalues in
  let pvalues_argsort := np_argsort pvalues in
  let pvalues_sorted := rank_divide (take pvalues pvalues_argsort) in
  let bounds_sorted := running_min pvalues_sorted in
  let bounds := scatter pvalues_argsort bounds_sorted (repeat zero p) in
  let bounds := if normalize then map (fun b => b [*] of_nat p) bounds else bounds in
  if negb independent then map (fun b => b [*] log (of_nat p)) bounds else bounds.

Definition select_model_fdr_bounds (pvalues : list A)
    (independent normalize : bool) : list A :=
  map (clip zero one) (fdr_bounds_unclipped pvalues independent normalize).


(** The set [{i : bounds[i] <= q}] as a mask. *)
Definition bounds_mask (bounds : list A) (q : A) : list bool :=
  map (fun b => b [<=] q) bounds.
End Selection.

(** ** Matrices *)

(** A dense array of rows. *)
Definition matrix (A : Type) : Type := list (list A).

Section Matrices.
Context {A : Type} `{Numeric A}.

(** [M.shape] *)
Definition nrows (M : matrix A) : nat := length M.
Definition ncols (M : matrix A) : nat :=
  match M with
  | [] => 0
  | row :: _ => length row
  end.

Definition column (j : nat) (M : matrix A) : list A :=
  map (fun row => nth j row zero) M.

(** [M.T] of a matrix with [p] columns. *)
Definition transpose (p : nat) (M : matrix A) : matrix A :=
  map (fun j => column j M) (seq 0 p).

Definition sum (l : list A) : A := fold_left add l zero.

(** [np.dot] of two dense vectors. *)
Definition dot (u v : list A) : A := sum (map2 mul u v).

(** [np.dot(M, N)] for dense matrices, [N] with [p] columns. *)
Definition np_dot (p : nat) (M N : matrix A) : matrix A :=
  map (fun row => map (fun col => dot row col) (transpose p N)) M.

(** A scipy sparse matrix is kept dense, its zeros standing for the entries
    it does not store; a sparse product visits the stored entries only. *)
Definition stored (a : A) : bool := (a [<] zero) || (zero [<] a).

Definition spdot (row v : list A) : A :=
  sum (map2 (fun a x => if stored a then a [*] x else zero) row v).

(** [M.dot(v)] for a sparse [M] and a vector [v]. *)
Definition matvec (M : matrix A) (v : list A) : list A :=
  map (fun row => spdot row v) M.

(** [M * N] and [M.dot(N)] for a sparse [M], [N] with [p] columns. *)
Definition matmul (p : nat) (M N : matrix A) : matrix A :=
  map (fun row => map (fun col => spdot row col) (transpose p N)) M.

(** [np.sort(M, axis=0)]: every column sorted ascending. *)
Definition sort_axis0 (M : matrix A) : matrix A :=
  transpose (nrows M) (map np_sort (transpose (ncols M) M)).

(** [M.min(axis=0)]; numpy refuses to reduce over no rows. *)
Definition min_axis0 (M : matrix A) : result (list A) :=
  match M with
  | [] => Raise ValueError
  | row :: rest => Ok (fold_left (map2 minimum) rest row)
  end.

(** [M.sum(0)] of a matrix with [p] columns. *)
Definition sum_axis0 (p : nat) (M : matrix A) : list A :=
  map sum (transpose p M).
End Matrices.

(** ** Clustering projection *)

Section Projection.
Context {A : Type} `{Numeric A}.

(** [len(np.unique(clust))] *)
Definition n_unique (clust : list nat) : nat :=
  length (nodup Nat.eq_dec clust).

(** [coo_matrix((data, (rows, cols)), shape=(nr, nc))] made dense: entries
    at the same position add up, an index outside the shape is refused. *)
Definition coo_entry (data : list A) (rows cols : list nat) (r c : nat) : A :=
  sum (map fst
         (filter (fun e => (fst (snd e) =? r) && (snd (snd e) =? c))
                 (combine data (combine rows cols)))).

Definition coo_matrix (data : list A) (rows cols : list nat) (nr nc : nat)
    : result (matrix A) :=
  if forallb (fun r => r <? nr) rows && forallb (fun c => c <? nc) cols then
    Ok (map (fun r => map (fun c => coo_entry data rows cols r c) (seq 0 nc))
            (seq 0 nr))
  else Raise ValueError.

(** [dia_matrix((d, 0), shape=(n, n))]: [d] along the main diagonal. *)
Definition dia_matrix (d : list A) (n : nat) : matrix A :=
  map (fun i => map (fun j => if i =? j then nth j d zero else zero) (seq 0 n))
      (seq 0 n).

Definition pp_inv (clust : list nat) : result (matrix A * matrix A) :=
  let p := length clust in
  let n_labels := n_unique clust in
  parcellation_masks <-
    coo_matrix (repeat one p) clust (seq 0 p) n_labels p ;;
  let inv_sum_col :=
    dia_matrix (map (fun s => one [/] s) (sum_axis0 p parcellation_masks))
               n_labels in
  let P_inv := transpose p parcellation_masks in
  let P := matmul p inv_sum_col parcellation_masks in
  Ok (P, P_inv).
End Projection.

(** ** Quantile aggregation *)

Section Aggregation.
Context {A : Type} `{Numeric A}.

(** The default [gamma_min=0.05]. *)
Definition gamma_min_default : A := of_Z 5 [/] of_Z 100.

(** [kmin = max(1, int(gamma_min * n_split))] *)
Definition kmin_of (gamma_min : A) (n_split : nat) : result nat :=
  k <- to_int (gamma_min [*] of_nat n_split) ;;
  Ok (Z.to_nat (Z.max 1 k)).

(** The rows [np.sort(M, axis=0)[kmin:]], each divided by its quantile
    [1. / n_split * r], [r] running over [arange(kmin + 1, n_split + 1)]. *)
Definition sorted_quantile_rows (M : matrix A) (gamma_min : A) : result (matrix A) :=
  let n_split := nrows M in
  kmin <- kmin_of gamma_min n_split ;;
  let sorted := skipn kmin (sort_axis0 M) in
  if n_split =? 0 then Raise ZeroDivisionError else
  let gamma_array :=
    map (fun r => (one [/] of_nat n_split) [*] r) (arange (kmin + 1) (n_split + 1)) in
  Ok (map2 (fun row g => map (fun x => x [/] g) row) sorted gamma_array).

Definition pvalues_aggregation (pvalues : matrix A) (gamma_min : A) : result (list A) :=
  pvalues_sorted <- sorted_quantile_rows pvalues gamma_min ;;
  q <- min_axis0 pvalues_sorted ;;
  let q := map (fun x => x [*] (one [-] log gamma_min)) q in
  Ok (map (clip zero one) q).

Definition scores_aggregation (scores : matrix A) (gamma_min : A) : result (list A) :=
  scores_sorted <- sorted_quantile_rows scores gamma_min ;;
  match scores_sorted with
  | q :: _ => Ok q
  | [] => Raise IndexError
  end.
End Aggregation.

(** ** The libraries the program calls *)

(** What scikit-learn, statsmodels and numpy's [RandomState] do is not part
    of this repository: each call is a field, over the generator states [G]
    and the connectivity graphs [C].  A call either returns or raises. *)
Record Library (A G C : Type) : Type := {
  (** [st.fit_transform(M)] with [st = StandardScaler()]: [st.mean_] and the
      standardized matrix. *)
  standard_scaler : list (list A) -> result (list A * list (list A));
  (** [check_random_state(random_state)] *)
  check_random_state : Z -> G;
  (** [generator.choice(n, size, replace=False)] and the generator after the
      draw; [size] arrives as the float the program passes. *)
  choice : G -> nat -> A -> result (list nat * G);
  (** [FeatureAgglomeration(linkage='ward', n_clusters=k,
      connectivity=c).fit(X).labels_] *)
  feature_agglomeration : list (list A) -> nat -> C -> result (list nat);
  (** [Lasso(alpha=alpha).fit(X, y).coef_] *)
  lasso : A -> list (list A) -> list (list A) -> result (list A);
  (** [sm.OLS(y, X).fit().pvalues] *)
  ols_pvalues : list A -> list (list A) -> result (list A)
}.
Arguments standard_scaler {A G C} _ _.
Arguments check_random_state {A G C} _ _.
Arguments choice {A G C} _ _ _ _.
Arguments feature_agglomeration {A G C} _ _ _ _.
Arguments lasso {A G C} _ _ _ _.
Arguments ols_pvalues {A G C} _ _ _.

(** ** Indexing *)

Section Indexing.
Context {A : Type} `{Numeric A}.

(** [a[i]] *)
Definition getitem {B : Type} (l : list B) (i : nat) : result B :=
  match nth_error l i with
  | Some x => Ok x
  | None => Raise IndexError
  end.

(** [M[idx]] for an index array: the rows at [idx]. *)
Fixpoint take_rows {B : Type} (M : list B) (idx : list nat) : result (list B) :=
  match idx with
  | [] => Ok []
  | i :: idx' =>
      row <- getitem M i ;;
      rest <- take_rows M idx' ;;
      Ok (row :: rest)
  end.

(** [mask = np.zeros(n, dtype='bool'); mask[idx] = True] *)
Definition bool_mask (n : nat) (idx : list nat) : result (list bool) :=
  if forallb (fun i => i <? n) idx then
    Ok (map (fun i => existsb (Nat.eqb i) idx) (seq 0 n))
  else Raise IndexError.

(** [a[mask]] for a boolean mask. *)
Fixpoint compress {B : Type} (mask : list bool) (l : list B) : list B :=
  match mask, l with
  | b :: mask', x :: l' => if b then x :: compress mask' l' else compress mask' l'
  | _, _ => []
  end.

(** [(mask).sum()] *)
Definition count_true (mask : list bool) : nat := length (filter (fun b => b) mask).

(** [out[mask] = vals]: the values go to the true positions in order; a
    single value is broadcast, any other length mismatch is refused. *)
Fixpoint mask_fill (mask : list bool) (vals : list A) (out : list A) : list A :=
  match mask, out with
  | true :: mask', _ :: out' =>
      match vals with
      | v :: vals' => v :: mask_fill mask' vals' out'
      | [] => out
      end
  | false :: mask', x :: out' => x :: mask_fill mask' vals out'
  | _, _ => out
  end.

Definition mask_assign (mask : list bool) (vals : list A) (out : list A)
    : result (list A) :=
  let k := count_true mask in
  if length vals =? k then Ok (mask_fill mask vals out)
  else match vals with
       | [v] => Ok (mask_fill mask (repeat v k) out)
       | _ => Raise ValueError
       end.

(** [M[i] = row] on an array of rows of width [w]: a row of length one is
    broadcast, any other length mismatch is refused. *)
Definition assign_row {B : Type} (w i : nat) (row : list B) (M : list (list B))
    : result (list (list B)) :=
  if i <? length M then
    if length row =? w then Ok (update i row M)
    else match row with
         | [v] => Ok (update i (repeat v w) M)
         | _ => Raise ValueError
         end
  else Raise IndexError.

(** A float used as an array dimension or sample size
    ([np.zeros((n_split, size))]): the numpy the program was written for
    (Python 2, before numpy 1.12) truncates it toward zero under a
    deprecation warning; a negative dimension is refused. *)
Definition as_dimension (x : A) : result nat :=
  k <- to_int x ;;
  if (k <? 0)%Z then Raise ValueError else Ok (Z.to_nat k).

(** [beta ** 2 > 0] *)
Definition support (beta : list A) : list bool :=
  map (fun b => (b [*] b) [>] zero) beta.

(** [P.dot(X.T).T] for [P] with [p] columns. *)
Definition project (p : nat) (P X : matrix A) : matrix A :=
  transpose (nrows X) (matmul (nrows X) P (transpose p X)).

(** [np.max] of a flattened array. *)
Definition np_max (l : list A) : result A :=
  match l with
  | [] => Raise ValueError
  | x :: t => Ok (fold_left maximum t x)
  end.

(** [np.sort] of an index array. *)
Fixpoint insert_nat (i : nat) (l : list nat) : list nat :=
  match l with
  | [] => [i]
  | j :: t => if i <=? j then i :: l else j :: insert_nat i t
  end.

Definition sort_nat (l : list nat) : list nat := fold_right insert_nat [] l.
End Indexing.

(** ** Inference on the held-out rows *)

Section Inference.
Context {A G C : Type} `{Numeric A} (lib : Library A G C).

(** What trial [i] of both loops computes up to the OLS call: the held-out
    target and design, the support, [P_inv] and [beta_proj]. *)
Definition held_out_design (X : matrix A) (y : list A) (beta_array : matrix A)
    (split_array clust_array : list (list nat)) (i : nat)
    : result (list A * matrix A * list bool * matrix A * list A) :=
  let n := nrows X in
  let p := ncols X in
  idx <- getitem split_array i ;;
  split <- bool_mask n idx ;;
  let y_test := compress (map negb split) y in
  let X_test := compress (map negb split) X in
  clust <- getitem clust_array i ;;
  '(P, P_inv) <- pp_inv clust ;;
  beta_proj <- getitem beta_array i ;;
  let model_proj := support beta_proj in
  let X_test_proj := project p P X_test in
  let X_model := map (compress model_proj) X_test_proj in
  Ok (y_test, X_model, model_proj, P_inv, beta_proj).

(** One trial of the loop of [multivariate_split_pval]: the row [pvalues[i]]. *)
Definition multivariate_split_pval_row (X : matrix A) (y : list A)
    (n_clusters : nat) (beta_array : matrix A)
    (split_array clust_array : list (list nat)) (i : nat) : result (list A) :=
  '(y_test, X_model, model_proj, P_inv, beta_proj) <-
    held_out_design X y beta_array split_array clust_array i ;;
  let model_proj_size := count_true model_proj in
  res_pvalues <- ols_pvalues lib y_test X_model ;;
  let pvalues_proj := repeat one n_clusters in
  pvalues_proj <-
    mask_assign model_proj
      (map (fun v => clip zero one (of_nat model_proj_size [*] v)) res_pvalues)
      pvalues_proj ;;
  Ok (matvec P_inv pvalues_proj).

(** One trial of the loop of [multivariate_split_scores]: the row [scores[i]]. *)
Definition multivariate_split_scores_row (X : matrix A) (y : list A)
    (n_clusters : nat) (beta_array : matrix A)
    (split_array clust_array : list (list nat)) (i : nat) : result (list A) :=
  let p := ncols X in
  '(y_test, X_model, model_proj, P_inv, beta_proj) <-
    held_out_design X y beta_array split_array clust_array i ;;
  let beta := matvec P_inv beta_proj in
  let model_size := count_true (support beta) in
  res_pvalues <- ols_pvalues lib y_test X_model ;;
  let scores_proj := map (fun o => of_nat p [*] o) (repeat one n_clusters) in
  scores_proj <-
    mask_assign model_proj
      (map (fun v => of_nat model_size [*] v) res_pvalues)
      scores_proj ;;
  Ok (matvec P_inv scores_proj).

(** [for i in range(n_split): out[i] = row i], on the trials [trials]. *)
Fixpoint split_loop (row : nat -> result (list A)) (p : nat)
    (trials : list nat) (out : matrix A) : result (matrix A) :=
  match trials with
  | [] => Ok out
  | i :: rest =>
      r <- row i ;;
      out <- assign_row p i r out ;;
      split_loop row p rest out
  end.

Definition multivariate_split_pval (X : matrix A) (y : list A)
    (n_split : nat) (size_split : A) (n_clusters : nat) (beta_array : matrix A)
    (split_array clust_array : list (list nat)) : result (matrix A * list A) :=
  let p := ncols X in
  let pvalues := repeat (repeat one p) n_split in
  pvalues <-
    split_loop (multivariate_split_pval_row X y n_clusters beta_array
                  split_array clust_array) p (seq 0 n_split) pvalues ;;
  pvalues_aggregated <-
    (if 1 <? n_split then pvalues_aggregation pvalues gamma_min_default
     else getitem pvalues 0) ;;
  Ok (pvalues, pvalues_aggregated).

Definition multivariate_split_scores (X : matrix A) (y : list A)
    (n_split : nat) (size_split : A) (n_clusters : nat) (beta_array : matrix A)
    (split_array clust_array : list (list nat)) : result (matrix A * list A) :=
  let p := ncols X in
  let scores := repeat (repeat one p) n_split in
  scores <-
    split_loop (multivariate_split_scores_row X y n_clusters beta_array
                  split_array clust_array) p (seq 0 n_split) scores ;;
  scores_aggregated <-
    (if 1 <? n_split then scores_aggregation scores gamma_min_default
     else getitem scores 0) ;;
  Ok (scores, scores_aggregated).
End Inference.

(** ** The split ensemble *)

Section Fit.
Context {A G C : Type} `{Numeric A} (lib : Library A G C).

(** The [n_clusters] argument: a count, the string ['auto'], or a string
    holding a factor of [p] (the default is ['0.1']). *)
Inductive n_clusters_arg : Type :=
| Count (k : Z)
| Auto
| Proportion (c : A).

(** The model object: the attributes [__init__] sets, then the attributes
    [fit] sets, absent until it assigns them. *)
Record StabilityLasso : Type := {
  theta : A;
  n_split : nat;
  ratio_split : A;
  generator : G;
  n_clusters : n_clusters_arg;
  intercept_ : option (list A);
  size_split : option A;
  n_clusters_ : option n_clusters_arg;
  _soln : option (list A);
  _beta_array : option (matrix A);
  _split_array : option (list (list nat));
  _clust_array : option (list (list nat));
  coef_ : option (list A)
}.

Definition __init__ (theta : A) (n_split : nat) (ratio_split : A)
    (n_clusters : n_clusters_arg) (random_state : Z) : StabilityLasso := {|
  theta := theta;
  n_split := n_split;
  ratio_split := ratio_split;
  generator := check_random_state lib random_state;
  n_clusters := n_clusters;
  intercept_ := None;
  size_split := None;
  n_clusters_ := None;
  _soln := None;
  _beta_array := None;
  _split_array := None;
  _clust_array := None;
  coef_ := None
|}.

(** Attribute assignments. *)
Definition set_generator (g : G) (s : StabilityLasso) : StabilityLasso :=
  {| theta := theta s; n_split := n_split s; ratio_split := ratio_split s;
     generator := g; n_clusters := n_clusters s;
     intercept_ := intercept_ s; size_split := size_split s;
     n_clusters_ := n_clusters_ s; _soln := _soln s;
     _beta_array := _beta_array s; _split_array := _split_array s;
     _clust_array := _clust_array s; coef_ := coef_ s |}.

Definition set_intercept_ (v : list A) (s : StabilityLasso) : StabilityLasso :=
  {| theta := theta s; n_split := n_split s; ratio_split := ratio_split s;
     generator := generator s; n_clusters := n_clusters s;
     intercept_ := Some v; size_split := size_split s;
     n_clusters_ := n_clusters_ s; _soln := _soln s;
     _beta_array := _beta_array s; _split_array := _split_array s;
     _clust_array := _clust_array s; coef_ := coef_ s |}.

Definition set_size_split (v : A) (s : StabilityLasso) : StabilityLasso :=
  {| theta := theta s; n_split := n_split s; ratio_split := ratio_split s;
     generator := generator s; n_clusters := n_clusters s;
     intercept_ := intercept_ s; size_split := Some v;
     n_clusters_ := n_clusters_ s; _soln := _soln s;
     _beta_array := _beta_array s; _split_array := _split_array s;
     _clust_array := _clust_array s; coef_ := coef_ s |}.

Definition set_n_clusters_ (v : n_clusters_arg) (s : StabilityLasso)
    : StabilityLasso :=
  {| theta := theta s; n_split := n_split s; ratio_split := ratio_split s;
     generator := generator s; n_clusters := n_clusters s;
     intercept_ := intercept_ s; size_split := size_split s;
     n_clusters_ := Some v; _soln := _soln s;
     _beta_array := _beta_array s; _split_array := _split_array s;
     _clust_array := _clust_array s; coef_ := coef_ s |}.

Definition set_soln (v : list A) (s : StabilityLasso) : StabilityLasso :=
  {| theta := theta s; n_split := n_split s; ratio_split := ratio_split s;
     generator := generator s; n_clusters := n_clusters s;
     intercept_ := intercept_ s; size_split := size_split s;
     n_clusters_ := n_clusters_ s; _soln := Some v;
     _beta_array := _beta_array s; _split_array := _split_array s;
     _clust_array := _clust_array s; coef_ := coef_ s |}.

(** The four assignments that end [fit]. *)
Definition set_evidence (b : matrix A) (sp cl : list (list nat))
    (s : StabilityLasso) : StabilityLasso :=
  {| theta := theta s; n_split := n_split s; ratio_split := ratio_split s;
     generator := generator s; n_clusters := n_clusters s;
     intercept_ := intercept_ s; size_split := size_split s;
     n_clusters_ := n_clusters_ s; _soln := _soln s;
     _beta_array := Some b; _split_array := Some sp;
     _clust_array := Some cl; coef_ := _soln s |}.

(** Statements that read and write [self] and may raise. *)
Definition method (T : Type) : Type :=
  StabilityLasso -> StabilityLasso * result T.

Definition ret {T : Type} (x : T) : method T := fun self => (self, Ok x).

Definition mbind {T U : Type} (c : method T) (k : T -> method U) : method U :=
  fun self =>
    match c self with
    | (self', Ok x) => k x self'
    | (self', Raise e) => (self', Raise e)
    end.

Definition call {T : Type} (r : result T) : method T := fun self => (self, r).
Definition self_ : method StabilityLasso := fun self => (self, Ok self).
Definition assign (f : StabilityLasso -> StabilityLasso) : method unit :=
  fun self => (f self, Ok tt).

Notation "x <~ c ;; k" := (mbind c (fun x => k))
  (at level 61, c at next level, right associativity).
Notation "' pat <~ c ;; k" := (mbind c (fun x => match x with pat => k end))
  (at level 61, pat pattern, c at next level, right associativity).
Notation "c ;;; k" := (mbind c (fun _ => k))
  (at level 61, right associativity).

(** [projection(X, k, connectivity)], on its default path [ward=True]. *)
Definition projection (X : matrix A) (k : nat) (connectivity : C)
    : result (matrix A * matrix A * list nat) :=
  let p := ncols X in
  labels <- feature_agglomeration lib X k connectivity ;;
  '(P, P_inv) <- pp_inv labels ;;
  let X_proj := project p P X in
  Ok (P_inv, X_proj, labels).

(** The value [n_clusters_] ends with: the count itself, [p] for ['auto'],
    [int(eval('%s * p'))] for a string holding a factor. *)
Definition resolve_n_clusters (a : n_clusters_arg) (p : nat) : result Z :=
  match a with
  | Count k => Ok k
  | Auto => Ok (Z.of_nat p)
  | Proportion c => to_int (c [*] of_nat p)
  end.

(** An integer used as an array dimension. *)
Definition dimension (k : Z) : result nat :=
  if (k <? 0)%Z then Raise ValueError else Ok (Z.to_nat k).

(** [a += b] on arrays: equal lengths, or a single [b] broadcast. *)
Definition iadd (a b : list A) : result (list A) :=
  if length b =? length a then Ok (map2 add a b)
  else match b with
       | [v] => Ok (map (fun x => x [+] v) a)
       | _ => Raise ValueError
       end.

(** The local arrays [beta_array], [split_array], [clust_array]. *)
Definition arrays : Type := (matrix A * list (list nat) * list (list nat))%type.

(** The body of [for i in range(n_split)]. *)
Definition fit_trial (X y : matrix A) (connectivity : C) (n p k w : nat)
    (size : A) (th : A) (arr : arrays) (i : nat) : method arrays :=
  let '(beta_array, split_array, clust_array) := arr in
  self <~ self_ ;;
  '(split, g) <~ call (choice lib (generator self) n size) ;;
  assign (set_generator g) ;;;
  let split := sort_nat split in
  y_splitted <~ call (take_rows y split) ;;
  X_splitted <~ call (take_rows X split) ;;
  '(P_inv, X_proj, labels) <~ call (projection X_splitted k connectivity) ;;
  m <~ call (np_max (map absn
               (concat (np_dot 1 (transpose (ncols X_proj) X_proj) y_splitted)))) ;;
  let alpha := th [*] m [/] of_nat n in
  beta_proj <~ call (lasso lib alpha X_proj y_splitted) ;;
  let beta := matvec P_inv beta_proj in
  beta_array <~ call (assign_row k i beta_proj beta_array) ;;
  split_array <~ call (assign_row w i split split_array) ;;
  clust_array <~ call (assign_row p i labels clust_array) ;;
  self <~ self_ ;;
  soln <~ call (match _soln self with
                | Some s => iadd s beta
                | None => Raise ValueError
                end) ;;
  assign (set_soln soln) ;;;
  ret (beta_array, split_array, clust_array).

Fixpoint fit_loop (trial : arrays -> nat -> method arrays)
    (trials : list nat) (arr : arrays) : method arrays :=
  match trials with
  | [] => ret arr
  | i :: rest => arr' <~ trial arr i ;; fit_loop trial rest arr'
  end.

Definition fit (X : matrix A) (y : list A) (connectivity : C) : method unit :=
  '(mean_, y) <~ call (standard_scaler lib (map (fun v => [v]) y)) ;;
  assign (set_intercept_ mean_) ;;;
  '(_, X) <~ call (standard_scaler lib X) ;;
  let n := nrows X in
  let p := ncols X in
  self <~ self_ ;;
  let n_split := n_split self in
  let size := of_nat n [*] ratio_split self in
  assign (set_size_split size) ;;;
  assign (set_n_clusters_ (n_clusters self)) ;;;
  kz <~ call (resolve_n_clusters (n_clusters self) p) ;;
  assign (set_n_clusters_ (Count kz)) ;;;
  let th := theta self in
  k <~ call (dimension kz) ;;
  let beta_array := repeat (repeat zero k) n_split in
  w <~ call (as_dimension size) ;;
  let split_array := repeat (repeat 0 w) n_split in
  let clust_array := repeat (repeat 0 p) n_split in
  assign (set_soln (repeat zero p)) ;;;
  '(beta_array, split_array, clust_array) <~
    fit_loop (fit_trial X y connectivity n p k w size th) (seq 0 n_split)
             (beta_array, split_array, clust_array) ;;
  self <~ self_ ;;
  assign (set_soln (map (fun x => x [/] of_nat n_split)
                        (match _soln self with Some s => s | None => [] end))) ;;;
  assign (set_evidence beta_array split_array clust_array).
End Fit.

Arguments n_clusters_arg A : clear implicits.
Arguments Count {A} k.
Arguments Auto {A}.
Arguments Proportion {A} c.
Arguments StabilityLasso A G : clear implicits.
Arguments method A G T : clear implicits.
Arguments arrays A : clear implicits.

(** ** What [fit] reads, writes and draws *)

(** The model with its generator and [_soln] replaced. *)
Definition with_core {A G : Type} (g : G) (so : option (list A)) (s : StabilityLasso A G)
    : StabilityLasso A G :=
  {| theta := theta s; n_split := n_split s; ratio_split := ratio_split s;
     generator := g; n_clusters := n_clusters s;
     intercept_ := intercept_ s; size_split := size_split s;
     n_clusters_ := n_clusters_ s; _soln := so;
     _beta_array := _beta_array s; _split_array := _split_array s;
     _clust_array := _clust_array s; coef_ := coef_ s |}.

(** The generator's draws of [k] successive trials. *)
Fixpoint draws {A G C : Type} (lib : Library A G C) (g : G) (n : nat) (size : A)
    (k : nat) : result (list (list nat) * G) :=
  match k with
  | O => Ok ([], g)
  | S k' =>
      '(split, g1) <- choice lib g n size ;;
      '(rest, g2) <- draws lib g1 n size k' ;;
      Ok (split :: rest, g2)
  end.

(** The generator draws without replacement: distinct indices below [n], as
    many as the size it is given, read as a dimension. *)
Definition draws_without_replacement {A G C : Type} `{Numeric A}
    (lib : Library A G C) : Prop :=
  forall g n size split g' w,
    choice lib g n size = Ok (split, g') ->
    as_dimension size = Ok w ->
    NoDup split /\ Forall (fun j => j < n) split /\ length split = w.

(** A stored split: ascending without repetition, below [n], of size [w]. *)
Definition is_split (n w : nat) (row : list nat) : Prop :=
  StronglySorted lt row /\ Forall (fun j => j < n) row /\ length row = w.

(** ** The real-number reading of the statements *)

Definition ascending (l : list R) : Prop := StronglySorted Rle l.

(** How many entries of [l] are at most [x]. *)
Definition count_le (x : R) (l : list R) : nat :=
  length (filter (fun y => Rleb y x) l).

(** *** Quantile aggregation, feature by feature *)

(** [kmin = max(1, floor(gamma_min * n_split))] *)
Definition floor_kmin (gamma_min : R) (n_split : nat) : nat :=
  Z.to_nat (Z.max 1 (Int_part (gamma_min * INR n_split))).

(** The sorted entries of one column past the [kmin] smallest, the entry of
    rank [r] (from [kmin + 1] to [n_split]) divided by [r / n_split]. *)
Definition quantile_quotients (gamma_min : R) (col : list R) : list R :=
  let n_split := length col in
  let kmin := floor_kmin gamma_min n_split in
  map (fun r => nth (r - 1) (np_sort col) 0 / (INR r / INR n_split))%R
      (seq (kmin + 1) (n_split - kmin)).

Definition list_min (l : list R) : R :=
  match l with
  | [] => 0%R
  | x :: t => fold_left Rmin t x
  end.

Definition clip01 (x : R) : R := Rmax 0 (Rmin 1 x).

(** The aggregated p-value of one feature: the minimum quotient, times
    [factor], clipped to [0,1]. *)
Definition aggregate_feature (factor gamma_min : R) (col : list R) : R :=
  clip01 (list_min (quantile_quotients gamma_min col) * factor).

(** The aggregated score of one feature: the first quotient. *)
Definition score_feature (gamma_min : R) (col : list R) : R :=
  hd 0%R (quantile_quotients gamma_min col).

(** The aggregate of one feature in the words of the specification, which
    multiply the minimum quotient by [1 / (1 - ln gamma_min)]. *)
Definition aggregate_feature_as_specified (gamma_min : R) (col : list R) : R :=
  aggregate_feature (1 / (1 - ln gamma_min)) gamma_min col.

(** [round(x)] of the specification, to the nearest integer. *)
Definition round_nearest (x : Q) : Z := Qfloor (x + (1 # 2))%Q.

(** The membership matrix of a labeling: one row per label, a 1 where the
    feature carries it. *)
Definition membership (clust : list nat) : matrix R :=
  map (fun r => map (fun c => if nth c clust 0 =? r then 1%R else 0%R)
                    (seq 0 (length clust)))
      (seq 0 (n_unique clust)).

(** ** Inputs of the closed evaluations *)

(** Binary64 with a given libm logarithm. *)
Definition b64 (flog : float -> float) : Numeric float := float_numeric flog.

(** A logarithm for closed evaluations that take the [independent = True]
    path, where [np.log] is not called. *)
Definition no_log (x : float) : float := nan.

Definition literal_pvalues : list float := [0.01; 0.02; 0.3; 0.5]%float.
Definition literal_pvalues_R : list R := [0.01; 0.02; 0.3; 0.5]%R.

(** Forty-nine p-values, all equal to 1. *)
Definition all_ones : list float := repeat 1%float 49.

(** A logarithm for evaluations on 49 p-values: [np.log(49)] in binary64. *)
Definition log_of_49 (x : float) : float := 3.8918202981106265%float.

(** Five features in two clusters, and a vector constant on each cluster. *)
Definition five_labels : list nat := [0; 1; 0; 1; 1].
Definition five_P : matrix float := [[1; 0; 1; 0; 0]; [0; 1; 0; 1; 1]]%float.
Definition five_P_inv : matrix float :=
  [[1; 0]; [0; 1]; [1; 0]; [0; 1]; [0; 1]]%float.
Definition five_constant : list float := [3; 5; 3; 5; 5]%float.

(** ** A stand-in library for closed evaluations *)

(** Deterministic stand-ins with the shapes of the real calls: a scaler for
    data that is already standardized, a generator whose state is a counter,
    round-robin cluster labels, a Lasso whose penalty leaves no coefficient,
    and an OLS that fails when the design has no more rows than columns. *)
Module Standin.
Definition N : Numeric float := b64 no_log.

Definition rotation (g n : nat) : list nat :=
  rev (skipn (g mod n) (seq 0 n) ++ firstn (g mod n) (seq 0 n)).

Definition draw (g n : nat) (size : float) : result (list nat * nat) :=
  k <- @as_dimension float N size ;;
  if k <=? n then Ok (firstn k (rotation g n), S g) else Raise ValueError.

Definition labels (X : matrix float) (k : nat) (_ : unit) : result (list nat) :=
  if (1 <=? k) && (k <=? ncols X) then
    Ok (map (fun j => j mod k) (seq 0 (ncols X)))
  else Raise ValueError.

Definition ols (raises : bool) (y : list float) (X : matrix float)
    : result (list float) :=
  if length y <=? ncols X then
    if raises then Raise LibraryError else Ok (repeat nan (ncols X))
  else Ok (repeat 0.5%float (ncols X)).

Definition lib (ols_raises : bool) : Library float nat unit := {|
  standard_scaler := fun M => Ok (repeat 0%float (ncols M), M);
  check_random_state := Z.to_nat;
  choice := draw;
  feature_agglomeration := labels;
  lasso := fun _ X _ => Ok (repeat 0%float (ncols X));
  ols_pvalues := ols ols_raises
|}.

(** Four standardized samples of four features, and a standardized target. *)
Definition X : matrix float :=
  [[1; 1; 1; -1]; [1; -1; -1; 1]; [-1; 1; -1; 1]; [-1; -1; 1; -1]]%float.
Definition y : list float := [1; -1; 1; -1]%float.
End Standin.

(** Evidence of two splits over the stand-in data: the support of split 0 is
    one cluster, the support of split 1 both clusters, as many as its two
    held-out rows. *)
Module Evidence.
Definition beta_array : matrix float := [[1; 0]; [1; 1]]%float.
Definition split_array : list (list nat) := [[0; 1]; [2; 3]].
Definition clust_array : list (list nat) := [[0; 1; 0; 1]; [0; 1; 0; 1]].
Definition y_test : list float := [1; -1]%float.
Definition X_model : matrix float := [[2; 0]; [0; 0]]%float.
Definition P_inv : matrix float := [[1; 0]; [0; 1]; [1; 0]; [0; 1]]%float.
End Evidence.

(** A model of two splits with seed 0, and what one fit leaves of it. *)
Definition model (ratio : float) (k : Z) : StabilityLasso float nat :=
  @__init__ float nat unit (Standin.lib true) 0.1%float 2 ratio (Count k) 0%Z.

Definition fit_standin (m : StabilityLasso float nat)
    : StabilityLasso float nat * result unit :=
  @fit float nat unit Standin.N (Standin.lib true) Standin.X Standin.y tt m.

Definition fitted (ratio : float) (k : Z) : StabilityLasso float nat :=
  fst (fit_standin (model ratio k)).

(** The model a first fit leaves, with the generator put back to its state
    at construction. *)
Definition refitted : StabilityLasso float nat :=
  set_generator 0 (fitted 0.5 3).

(** ** The selection methods of the estimator *)

(** The methods read [self._pvalues_aggregated] or [self._scores_aggregated],
    the attribute an inference method stored before: it is their first
    argument. *)
Section Methods.
Context {A : Type} `{Numeric A}.


(** [StabilityLasso.select_model_fdr_bounds_scores(normalize=False)] *)
Definition select_model_fdr_bounds_scores (_scores_aggregated : list A)
    (normalize : bool) : list A :=
  select_model_fdr_bounds _scores_aggregated false normalize.

(** [StabilityLasso.select_model_fdr_scores(q, normalize=True)] *)
Definition select_model_fdr_scores (_scores_aggregated : list A) (q : A)
    (normalize : bool) : result (list bool) :=
  select_model_fdr _scores_aggregated q false normalize.
End Methods.

(** ** Univariate inference *)

(** A result of the program, an exception it raises, or the
    [UnboundLocalError] of a local variable read before any assignment. *)
Inductive outcome (T : Type) : Type :=
| Returns (x : T)
| Raises (e : exn)
| Unbound.
Arguments Returns {T} x.
Arguments Raises {T} e.
Arguments Unbound {T}.

Section Univariate.
Context {A : Type} `{Numeric A}.

(** [scipy.stats.pearsonr(y, x)]: the correlation and its p-value. *)
Variable pearsonr : list A -> list A -> result (A * A).

(** [np.array([f(x) for x in rows])] *)
Fixpoint comprehension {B D : Type} (f : B -> result D) (rows : list B)
    : result (list D) :=
  match rows with
  | [] => Ok []
  | x :: rest =>
      v <- f x ;;
      vs <- comprehension f rest ;;
      Ok (v :: vs)
  end.

(** One trial of the loop of [univariate_split_pval] on its default path
    [permute=False]: the local [pvalues_proj] and the row [pvalues[i]]. *)
Definition univariate_split_pval_trial (X : matrix A) (y : list A)
    (split_array clust_array : list (list nat)) (i : nat)
    : result (list A * list A) :=
  let n := nrows X in
  let p := ncols X in
  idx <- getitem split_array i ;;
  split <- bool_mask n idx ;;
  let y_test := compress (map negb split) y in
  let X_test := compress (map negb split) X in
  clust <- getitem clust_array i ;;
  '(P, P_inv) <- pp_inv clust ;;
  let X_test_proj := project p P X_test in
  let X_proj := project p P X in
  pvalues_proj <-
    comprehension (fun x => '(_, pv) <- pearsonr y x ;; Ok pv)
                  (transpose (nrows P) X_proj) ;;
  Ok (pvalues_proj, matvec P_inv pvalues_proj).

(** [for i in range(n_split)], with the local [pvalues_proj], unbound until
    a trial assigns it. *)
Fixpoint univariate_loop (trial : nat -> result (list A * list A)) (p : nat)
    (trials : list nat) (out : matrix A) (pvalues_proj : option (list A))
    : result (matrix A * option (list A)) :=
  match trials with
  | [] => Ok (out, pvalues_proj)
  | i :: rest =>
      '(proj, row) <- trial i ;;
      out <- assign_row p i row out ;;
      univariate_loop trial p rest out (Some proj)
  end.

(** [univariate_split_pval] on its default path [permute=False]. *)
Definition univariate_split_pval (X : matrix A) (y : list A)
    (n_split : nat) (size_split : A) (n_clusters : nat) (beta_array : matrix A)
    (split_array clust_array : list (list nat)) : outcome (matrix A * list A) :=
  let p := ncols X in
  let pvalues := repeat (repeat one p) n_split in
  match univariate_loop (univariate_split_pval_trial X y split_array clust_array)
                        p (seq 0 n_split) pvalues None with
  | Raise e => Raises e
  | Ok (_, None) => Unbound
  | Ok (pvalues, Some pvalues_proj) =>
      let pvalues :=
        map (map (fun x => clip zero one (x [*] of_nat (length pvalues_proj))))
            pvalues in
      match (if 1 <? n_split then pvalues_aggregation pvalues gamma_min_default
             else getitem pvalues 0) with
      | Ok pvalues_aggregated => Returns (pvalues, pvalues_aggregated)
      | Raise e => Raises e
      end
  end.
End Univariate.

(** ** What the projection computes *)

(** The sums of a vector over the features of each label. *)
Definition cluster_sums (clust : list nat) (x : list R) : list R :=
  map (fun c => sum (map (fun j => if nth j clust 0 =? c then nth j x 0%R else 0%R)
                         (seq 0 (length clust))))
      (seq 0 (n_unique clust)).

(** A vector over the labels, copied to the features that carry them. *)
Definition broadcast (clust : list nat) (v : list R) : list R :=
  map (fun l => nth l v 0%R) clust.

(** ** A stand-in library over the reals *)

(** The same deterministic stand-ins over the real numbers: round-robin
    cluster labels, draws of the first indices, a Lasso without support and
    an OLS whose p-values are all one half. *)
Module StandinR.
Definition labels (X : matrix R) (k : nat) (_ : unit) : result (list nat) :=
  if (1 <=? k) && (k <=? ncols X) then
    Ok (map (fun j => j mod k) (seq 0 (ncols X)))
  else Raise ValueError.

Definition lib : Library R nat unit := {|
  standard_scaler := fun M => Ok (repeat 0%R (ncols M), M);
  check_random_state := Z.to_nat;
  choice := fun g n size => w <- as_dimension size ;; Ok (firstn w (seq 0 n), S g);
  feature_agglomeration := labels;
  lasso := fun _ X _ => Ok (repeat 0%R (ncols X));
  ols_pvalues := fun _ X => Ok (repeat (1 / 2)%R (ncols X))
|}.

Definition X : matrix R := [[1; 2; 3; 4]; [5; 6; 7; 8]]%R.
Definition y : list R := [1; -1]%R.
End StandinR.

(** A model asked for no split at all, over the stand-in library. *)
Definition model_without_splits : StabilityLasso float nat :=
  @__init__ float nat unit (Standin.lib true) 0.1%float 0 0.5%float (Count 2%Z) 0%Z.

(** A stand-in for [pearsonr]: no correlation, p-value one quarter. *)
Definition pearson_standin (y x : list float) : result (float * float) :=
  Ok (0%float, 0.25%float).

(** Another split array over the four stand-in samples. *)
Definition other_split_array : list (list nat) := [[0]; [1; 2; 3]].

(** Every split of the first [n_split] is a row of indices below [n]. *)
Definition splits_in_range (n n_split : nat) (split_array : list (list nat)) : Prop :=
  forall i, i < n_split ->
    exists idx, nth_error split_array i = Some idx /\ Forall (fun j => j < n) idx.

(** A logarithm for evaluations that aggregate with [gamma_min = 0.05]:
    [log(0.05)] to sixteen digits. *)
Definition log_of_gamma_min (x : float) : float := (-2.995732273553991)%float.

(** ** The consensus of the splits *)

Section Consensus.
Context {A : Type} `{Numeric A}.

(** [P_inv.dot(beta_proj)] for the [P_inv] of a labeling. *)
Definition back_project (labels : list nat) (beta_proj : list A) : list A :=
  match pp_inv labels with
  | Ok (_, P_inv) => matvec P_inv beta_proj
  | Raise _ => []
  end.

(** The mean over the splits of the back-projected coefficients, read off
    the stored evidence: the sum is taken in the order of the trials, from
    [np.zeros(p)]. *)
Definition consensus (p n_split : nat) (beta_array : matrix A)
    (clust_array : list (list nat)) : list A :=
  map (fun x => x [/] of_nat n_split)
      (fold_left
         (fun acc i =>
            map2 add acc (back_project (nth i clust_array []) (nth i beta_array [])))
         (seq 0 n_split) (repeat zero p)).
End Consensus.

(** The shapes scikit-learn returns: one label per feature with as many
    distinct labels as clusters were asked for, one coefficient per column. *)
Definition shapes_as_asked {A G C : Type} `{Numeric A} (lib : Library A G C) : Prop :=
  (forall X k c labels,
     feature_agglomeration lib X k c = Ok labels ->
     length labels = ncols X /\ n_unique labels = k) /\
  (forall alpha X y beta,
     lasso lib alpha X y = Ok beta -> length beta = ncols X).

(** ** Values assigned through a mask *)

(** Which of the [n_vals] values of [out[mask] = vals] the position [k] of
    the mask receives: its rank among the true positions, or the single
    value when one value is broadcast. *)
Definition assigned_index (mask : list bool) (n_vals k : nat) : nat :=
  if n_vals =? count_true mask then count_true (firstn k mask) else 0.

(** * Theorems *)

(** ** Reading the interface over the reals *)

Lemma Rleb_true (x y : R) : Rleb x y = true <-> (x <= y)%R.
Proof. unfold Rleb; destruct (Rle_dec x y); split; auto; discriminate. Qed.

Lemma Rleb_false (x y : R) : Rleb x y = false <-> (y < x)%R.
Proof.
  unfold Rleb; destruct (Rle_dec x y); split; intros; try discriminate; try lra; auto.
Qed.

Lemma Rltb_true (x y : R) : Rltb x y = true <-> (x < y)%R.
Proof. unfold Rltb; destruct (Rlt_dec x y); split; auto; discriminate. Qed.

Lemma Rltb_false (x y : R) : Rltb x y = false <-> (y <= x)%R.
Proof.
  unfold Rltb; destruct (Rlt_dec x y); split; intros; try discriminate; try lra; auto.
Qed.

(** Decides the comparisons of a closed real computation one at a time. *)
Ltac no_test t :=
  lazymatch t with
  | context [Rle_dec _ _] => fail
  | context [Rlt_dec _ _] => fail
  | _ => idtac
  end.

Ltac Rdecide :=
  repeat match goal with
  | |- context [Rle_dec ?a ?b] =>
      no_test a; no_test b; destruct (Rle_dec a b); [ try lra | try lra ]
  | |- context [Rlt_dec ?a ?b] =>
      no_test a; no_test b; destruct (Rlt_dec a b); [ try lra | try lra ]
  end.

Ltac Reval :=
  repeat (progress (simpl; unfold Rleb, Rltb; Rdecide)).

Lemma clip_R (x : R) :
  clip zero one x = (if Rlt_dec x 0 then 0 else if Rlt_dec 1 x then 1 else x)%R.
Proof.
  unfold clip, minimum, maximum, zero, one; simpl; unfold Rltb.
  Rdecide; reflexivity.
Qed.

Lemma clip_R_range (x : R) : (0 <= clip zero one x <= 1)%R.
Proof. rewrite clip_R; Rdecide; lra. Qed.


Lemma clip_R_inside (x : R) : (0 <= x <= 1)%R -> clip zero one x = x.
Proof. intros Hx; rewrite clip_R; Rdecide; lra. Qed.

Lemma clip_R_below (x : R) : (x < 0)%R -> clip zero one x = 0%R.
Proof. intros Hx; rewrite clip_R; Rdecide; lra. Qed.

Lemma clip_R_mono (x y : R) : (x <= y)%R -> (clip zero one x <= clip zero one y)%R.
Proof. intros Hxy; rewrite !clip_R; Rdecide; lra. Qed.

(** ** Shapes *)

Section Shapes.
Context {A : Type} `{Numeric A}.

Lemma update_length {B : Type} (i : nat) (v : B) (l : list B) :
  length (update i v l) = length l.
Proof.
  revert i; induction l as [|x t IH]; intros [|i]; simpl; auto.
Qed.

Lemma scatter_length (idx : list nat) (vals out : list A) :
  length (scatter idx vals out) = length out.
Proof.
  revert vals out; induction idx as [|i idx IH]; intros [|v vals] out; simpl; auto.
  rewrite IH; apply update_length.
Qed.

End Shapes.

(** ** The bounds are clipped *)


(** ** The literal Benjamini-Hochberg scenario *)

(** C3, as the code has it: on pvalues [0.01, 0.02, 0.3, 0.5] with q = 0.1,
    independent=True and normalize=False, [select_model_fdr] selects the
    features at indices 0, 1 and 2 and not the one at index 3, in binary64
    (whatever the logarithm) and over the reals alike; the hand-computed
    Benjamini-Hochberg selection, indices 0 and 1 only, is what it returns
    with normalize=True. *)
Theorem select_model_fdr_literal (flog : float -> float) :
  @select_model_fdr float (b64 flog) literal_pvalues 0.1%float true false
    = Ok [true; true; true; false] /\
  @select_model_fdr float (b64 flog) literal_pvalues 0.1%float true true
    = Ok [true; true; false; false] /\
  select_model_fdr literal_pvalues_R 0.1%R true false
    = Ok [true; true; true; false].
Proof.
  split; [|split].
  - vm_compute; reflexivity.
  - vm_compute; reflexivity.
  - unfold select_model_fdr, literal_pvalues_R, rank_divide, np_sort, arange,
      of_nat, zero.
    Reval. reflexivity.
Qed.

(** C3 as stated fails: the mask is not "indices 0 and 1 only". *)
Lemma select_model_fdr_literal_not_BH :
  @select_model_fdr float (b64 no_log) literal_pvalues 0.1%float true false
    <> Ok [true; true; false; false].
Proof. vm_compute; discriminate. Qed.


(** ** The bounds and the selection, in binary64 *)

(** C1 at 49 p-values equal to 1, q = 0.5 and normalize=False, the same
    flags passed to both functions: [select_model_fdr] rebuilds its bound as
    [(1/49) * 49], which is below 1 in binary64, and selects no feature,
    while every entry of [select_model_fdr_bounds] is at most q: the set
    [{i : bounds[i] <= q}] holds all 49 features.  So it is with
    independent=True, and with the default independent=False. *)
Theorem select_model_fdr_bounds_mismatch :
  ((1 / 49) * 49 <? 1)%float = true /\
  (@select_model_fdr float Standin.N all_ones 0.5%float true false
     = Ok (repeat false 49) /\
   @bounds_mask float Standin.N
     (@select_model_fdr_bounds float Standin.N all_ones true false) 0.5%float
     = repeat true 49) /\
  (@select_model_fdr float (b64 log_of_49) all_ones 0.5%float false false
     = Ok (repeat false 49) /\
   @bounds_mask float (b64 log_of_49)
     (@select_model_fdr_bounds float (b64 log_of_49) all_ones false false)
     0.5%float
     = repeat true 49).
Proof. repeat split; vm_compute; reflexivity. Qed.

(** ** The projection pair, in binary64 *)

(** C7 at the labelings [0, 0] and [0, 1, 0, 1, 1]: the diagonal factor is
    built from [parcellation_masks.sum(0)], the per-feature sums, which are
    all 1, so [P] is the membership matrix itself.  Its rows sum to the
    cluster sizes (2; 2 and 3), and a cluster-constant vector comes back
    multiplied by them: [1, 1] as [2, 2], and [3, 5, 3, 5, 5] as
    [6, 15, 6, 15, 15].  Every row of [P_inv] has its one unit entry. *)
Theorem pp_inv_not_normalized :
  (@pp_inv float Standin.N [0; 0] = Ok ([[1; 1]], [[1]; [1]])%float /\
   @sum_axis0 float Standin.N 2 [[1; 1]]%float = [1; 1]%float /\
   map (@sum float Standin.N) [[1; 1]]%float = [2]%float /\
   @matvec float Standin.N [[1]; [1]]%float
     (@matvec float Standin.N [[1; 1]]%float [1; 1]%float) = [2; 2]%float) /\
  (@pp_inv float Standin.N five_labels = Ok (five_P, five_P_inv) /\
   map (@sum float Standin.N) five_P = [2; 3]%float /\
   @matvec float Standin.N five_P_inv
     (@matvec float Standin.N five_P five_constant)
     = [6; 15; 6; 15; 15]%float).
Proof. repeat split; vm_compute; reflexivity. Qed.

(** ** Sorting over the reals *)

Section SortR.
Lemma insert_R_perm (x : R) (l : list R) : Permutation (insert x l) (x :: l).
Proof.
  induction l as [|y t IH]; simpl; auto.
  destruct (Rleb x y); auto.
  rewrite IH; apply perm_swap.
Qed.

Lemma np_sort_perm (l : list R) : Permutation (np_sort l) l.
Proof.
  induction l as [|x t IH]; simpl; auto.
  rewrite insert_R_perm; auto.
Qed.

Lemma np_sort_length (l : list R) : length (np_sort l) = length l.
Proof. apply Permutation_length, np_sort_perm. Qed.

Lemma insert_R_sorted (x : R) (l : list R) :
  ascending l -> ascending (insert x l).
Proof.
  unfold ascending; induction l as [|y t IH]; simpl; intros Hs.
  - repeat constructor.
  - apply StronglySorted_inv in Hs as [Ht Hy].
    destruct (Rleb x y) eqn:E.
    + apply Rleb_true in E.
      constructor; [constructor; auto|].
      constructor; auto.
      eapply Forall_impl; [|exact Hy]; simpl; intros; lra.
    + apply Rleb_false in E.
      constructor; auto.
      eapply Permutation_Forall; [symmetry; apply insert_R_perm|].
      constructor; auto; lra.
Qed.

Lemma np_sort_sorted (l : list R) : ascending (np_sort l).
Proof.
  induction l as [|x t IH]; simpl.
  - constructor.
  - apply insert_R_sorted, IH.
Qed.

Lemma count_le_perm (x : R) (l l' : list R) :
  Permutation l l' -> count_le x l = count_le x l'.
Proof.
  unfold count_le; induction 1; simpl; auto.
  - destruct (Rleb x0 x); simpl; auto.
  - destruct (Rleb y x), (Rleb x0 x); simpl; auto.
  - congruence.
Qed.

Lemma count_le_mono (x : R) (a b : list R) :
  Forall2 Rle a b -> count_le x b <= count_le x a.
Proof.
  unfold count_le; induction 1 as [|u v a b Huv _ IH]; simpl; auto.
  destruct (Rleb v x) eqn:Ev; destruct (Rleb u x) eqn:Eu; simpl; try lia.
  apply Rleb_true in Ev; apply Rleb_false in Eu; lra.
Qed.

Lemma ascending_nth_le (s : list R) (i j : nat) :
  ascending s -> i <= j -> j < length s -> (nth i s 0 <= nth j s 0)%R.
Proof.
  unfold ascending; intros Hs; revert i j.
  induction Hs as [|h t Ht IH Hh]; simpl; intros i j Hij Hj; [lia|].
  destruct i as [|i], j as [|j]; try lia; try lra.
  - rewrite Forall_forall in Hh; apply Hh, nth_In; lia.
  - apply IH; lia.
Qed.

Lemma nth_le_count (s : list R) (k : nat) (x : R) :
  ascending s -> k < length s -> (nth k s 0 <= x)%R -> k < count_le x s.
Proof.
  unfold ascending, count_le; intros Hs; revert k.
  induction Hs as [|h t Ht IH Hh]; simpl; intros k Hk Hx; [lia|].
  assert (Hhx : (h <= x)%R).
  { destruct k as [|k]; auto.
    rewrite Forall_forall in Hh.
    apply Rle_trans with (nth k t 0%R); auto.
    apply Hh, nth_In; lia. }
  apply Rleb_true in Hhx; rewrite Hhx; simpl.
  destruct k as [|k]; [lia|].
  apply -> Nat.succ_lt_mono; apply IH; auto; lia.
Qed.

Lemma count_nth_le (s : list R) (k : nat) (x : R) :
  ascending s -> k < count_le x s -> (nth k s 0 <= x)%R.
Proof.
  unfold ascending, count_le; intros Hs; revert k.
  induction Hs as [|h t Ht IH Hh]; simpl; intros k Hk; [lia|].
  destruct (Rleb h x) eqn:E; simpl in Hk.
  - destruct k as [|k]; [apply Rleb_true; auto|].
    apply IH; lia.
  - exfalso. apply Rleb_false in E.
    assert (Hz : length (filter (fun y => Rleb y x) t) = 0); [|lia].
    clear -Hh E.
    induction Hh as [|u t Hu _ IHt]; simpl; auto.
    assert (Eu : Rleb u x = false) by (apply Rleb_false; lra).
    rewrite Eu; auto.
Qed.

Lemma count_le_length (x : R) (l : list R) : count_le x l <= length l.
Proof. apply filter_length_le. Qed.

(** The [k]-th order statistic is monotone in the sample. *)
Lemma order_statistic_mono (a b : list R) (k : nat) :
  Forall2 Rle a b -> k < length a ->
  (nth k (np_sort a) 0 <= nth k (np_sort b) 0)%R.
Proof.
  intros Hab Hk.
  assert (Hlen : length a = length b) by (eapply Forall2_length; eauto).
  apply count_nth_le; [apply np_sort_sorted|].
  rewrite (count_le_perm _ _ _ (np_sort_perm a)).
  eapply Nat.lt_le_trans; [|apply count_le_mono; eauto].
  rewrite <- (count_le_perm _ _ _ (np_sort_perm b)).
  apply nth_le_count; [apply np_sort_sorted| |lra].
  rewrite np_sort_length; lia.
Qed.
End SortR.

(** ** Quantile aggregation, feature by feature *)

Section AggregationR.
Lemma of_nat_R (n : nat) : of_nat n = INR n.
Proof. unfold of_nat; simpl; symmetry; apply INR_IZR_INZ. Qed.

Lemma minimum_R (a b : R) : minimum a b = Rmin a b.
Proof.
  unfold minimum, Rmin; simpl; unfold Rltb.
  destruct (Rlt_dec b a), (Rle_dec a b); try reflexivity; lra.
Qed.

Lemma clip_clip01 (x : R) : clip zero one x = clip01 x.
Proof.
  rewrite clip_R; unfold clip01, Rmax, Rmin.
  Rdecide; lra.
Qed.

Lemma Rtrunc_nonneg (x : R) : (0 <= x)%R -> Rtrunc x = Int_part x.
Proof. intros Hx; unfold Rtrunc; destruct (Rle_dec 0 x); auto; lra. Qed.

Lemma kmin_of_floor (gamma_min : R) (n : nat) :
  (0 <= gamma_min)%R -> kmin_of gamma_min n = Ok (floor_kmin gamma_min n).
Proof.
  intros Hg; unfold kmin_of, floor_kmin; simpl.
  rewrite <- INR_IZR_INZ, Rtrunc_nonneg; auto.
  apply Rmult_le_pos; auto; apply pos_INR.
Qed.

Lemma floor_kmin_bounds (gamma_min : R) (n : nat) :
  (0 < gamma_min < 1)%R -> 2 <= n ->
  1 <= floor_kmin gamma_min n < n.
Proof.
  intros Hg Hn; unfold floor_kmin.
  set (x := (gamma_min * INR n)%R).
  assert (Hn0 : (0 < INR n)%R) by (apply lt_0_INR; lia).
  assert (Hx : (x < INR n)%R) by (unfold x; nra).
  destruct (base_Int_part x) as [Hlo _].
  assert (Hz : (Int_part x < Z.of_nat n)%Z).
  { apply lt_IZR; rewrite <- INR_IZR_INZ; lra. }
  lia.
Qed.

Lemma map2_map_same {B C D E : Type} (f : C -> D -> E) (a : B -> C) (b : B -> D)
    (l : list B) :
  map2 f (map a l) (map b l) = map (fun j => f (a j) (b j)) l.
Proof. induction l; simpl; congruence. Qed.

Lemma map2_map_seq_shift {C D E : Type} (f : C -> D -> E) (a : nat -> C)
    (b : nat -> D) (start len : nat) :
  map2 f (map a (seq start len)) (map b (seq (S start) len))
  = map (fun r => f (a (r - 1)) (b r)) (seq (S start) len).
Proof.
  revert start; induction len as [|len IH]; intros start; simpl; auto.
  rewrite Nat.sub_0_r; f_equal; apply IH.
Qed.

Lemma fold_min_rows {B : Type} (g : nat -> B -> R) (js : list B) (rs : list nat)
    (acc : B -> R) :
  fold_left (map2 minimum) (map (fun r => map (g r) js) rs) (map acc js)
  = map (fun j => fold_left Rmin (map (fun r => g r j) rs) (acc j)) js.
Proof.
  revert acc; induction rs as [|r rs IH]; intros acc; simpl; auto.
  rewrite map2_map_same.
  rewrite (IH (fun j => minimum (acc j) (g r j))).
  apply map_ext; intros j; rewrite minimum_R; reflexivity.
Qed.

Lemma ncols_rect (M : matrix R) (p : nat) :
  1 <= nrows M -> Forall (fun row => length row = p) M -> ncols M = p.
Proof.
  destruct M as [|row M]; simpl; [lia|].
  intros _ HM; inversion HM; auto.
Qed.

Lemma column_length (j : nat) (M : matrix R) : length (column j M) = nrows M.
Proof. apply length_map. Qed.

Lemma sort_axis0_rows (M : matrix R) :
  sort_axis0 M
  = map (fun i => map (fun j => nth i (np_sort (column j M)) 0%R)
                      (seq 0 (ncols M)))
        (seq 0 (nrows M)).
Proof.
  unfold sort_axis0, transpose.
  apply map_ext; intros i.
  unfold column at 1; rewrite !map_map; reflexivity.
Qed.

(** The rows [sorted_quantile_rows] returns, entry by entry. *)
Lemma sorted_quantile_rows_R (M : matrix R) (p : nat) (gamma_min : R) :
  (0 < gamma_min < 1)%R -> 2 <= nrows M ->
  Forall (fun row => length row = p) M ->
  sorted_quantile_rows M gamma_min
  = Ok (map (fun r => map (fun j => nth (r - 1) (np_sort (column j M)) 0
                                    / (INR r / INR (nrows M)))%R
                          (seq 0 p))
            (seq (floor_kmin gamma_min (nrows M) + 1)
                 (nrows M - floor_kmin gamma_min (nrows M)))).
Proof.
  intros Hg Hn HM.
  unfold sorted_quantile_rows.
  rewrite kmin_of_floor by lra; simpl bind.
  destruct (floor_kmin_bounds gamma_min (nrows M) Hg Hn) as [Hk1 Hk2].
  set (kmin := floor_kmin gamma_min (nrows M)) in *.
  destruct (Nat.eqb_spec (nrows M) 0) as [E|_]; [lia|].
  rewrite sort_axis0_rows, (ncols_rect M p) by (auto; lia).
  rewrite skipn_map, skipn_seq; simpl plus.
  unfold arange; rewrite map_map.
  replace (nrows M + 1 - (kmin + 1)) with (nrows M - kmin) by lia.
  rewrite Nat.add_1_r, map2_map_seq_shift.
  f_equal; apply map_ext_in; intros r Hr; apply in_seq in Hr.
  rewrite map_map; apply map_ext; intros j.
  rewrite !of_nat_R; unfold one; simpl; rewrite <- ?INR_IZR_INZ.
  assert (INR (nrows M) <> 0)%R by (apply not_0_INR; lia).
  assert (INR r <> 0)%R by (apply not_0_INR; lia).
  field; auto.
Qed.

Lemma pvalues_aggregation_columns (M : matrix R) (p : nat) (gamma_min : R) :
  (0 < gamma_min < 1)%R -> 2 <= nrows M ->
  Forall (fun row => length row = p) M ->
  pvalues_aggregation M gamma_min
  = Ok (map (fun j => aggregate_feature (1 - ln gamma_min) gamma_min (column j M))
            (seq 0 p)).
Proof.
  intros Hg Hn HM; unfold pvalues_aggregation.
  rewrite (sorted_quantile_rows_R M p) by auto; simpl bind.
  destruct (floor_kmin_bounds gamma_min (nrows M) Hg Hn) as [Hk1 Hk2].
  destruct (nrows M - floor_kmin gamma_min (nrows M)) as [|m] eqn:Em; [lia|].
  simpl seq; simpl map at 1; simpl bind.
  pose (g := fun (r j : nat) =>
               (nth (r - 1) (np_sort (column j M)) 0 / (INR r / INR (nrows M)))%R).
  rewrite (fold_min_rows g), !map_map.
  f_equal; apply map_ext; intros j.
  rewrite clip_clip01.
  unfold aggregate_feature, quantile_quotients.
  rewrite column_length, Em; reflexivity.
Qed.

Lemma scores_aggregation_columns (M : matrix R) (p : nat) (gamma_min : R) :
  (0 < gamma_min < 1)%R -> 2 <= nrows M ->
  Forall (fun row => length row = p) M ->
  scores_aggregation M gamma_min
  = Ok (map (fun j => score_feature gamma_min (column j M)) (seq 0 p)).
Proof.
  intros Hg Hn HM; unfold scores_aggregation.
  rewrite (sorted_quantile_rows_R M p) by auto; simpl bind.
  destruct (floor_kmin_bounds gamma_min (nrows M) Hg Hn) as [Hk1 Hk2].
  destruct (nrows M - floor_kmin gamma_min (nrows M)) as [|m] eqn:Em; [lia|].
  simpl seq; simpl map at 1; cbv iota.
  f_equal; apply map_ext; intros j.
  unfold score_feature, quantile_quotients.
  rewrite column_length, Em; reflexivity.
Qed.

Lemma ln_neg (x : R) : (0 < x < 1)%R -> (ln x < 0)%R.
Proof. intros Hx; rewrite <- ln_1; apply ln_increasing; lra. Qed.

(** *** Monotonicity *)

Lemma Forall2_map_same {B : Type} (P : R -> R -> Prop) (f g : B -> R) (l : list B) :
  (forall x, In x l -> P (f x) (g x)) -> Forall2 P (map f l) (map g l).
Proof.
  induction l as [|x l IH]; simpl; intros Hl; constructor; auto.
Qed.

Lemma Forall2_nth_Rle (a b : list R) (j : nat) :
  Forall2 Rle a b -> (nth j a 0 <= nth j b 0)%R.
Proof.
  intros Hab; revert j; induction Hab; intros [|j]; simpl; auto; lra.
Qed.

Lemma column_le (A B : matrix R) (j : nat) :
  Forall2 (Forall2 Rle) A B -> Forall2 Rle (column j A) (column j B).
Proof.
  unfold column; induction 1; simpl; constructor; auto.
  apply Forall2_nth_Rle; auto.
Qed.

Lemma quantile_quotients_mono (gamma_min : R) (a b : list R) :
  Forall2 Rle a b ->
  Forall2 Rle (quantile_quotients gamma_min a) (quantile_quotients gamma_min b).
Proof.
  intros Hab; unfold quantile_quotients.
  rewrite <- (Forall2_length Hab).
  apply Forall2_map_same; intros r Hr; apply in_seq in Hr.
  destruct (Nat.eq_dec (length a) 0) as [E|E]; [rewrite E in Hr; simpl in Hr; lia|].
  assert (0 < INR r)%R by (apply lt_0_INR; lia).
  assert (0 < INR (length a))%R by (apply lt_0_INR; lia).
  apply Rmult_le_compat_r.
  - apply Rlt_le, Rinv_0_lt_compat, Rdiv_lt_0_compat; auto.
  - apply order_statistic_mono; auto; lia.
Qed.

Lemma fold_Rmin_mono (a b : list R) (x y : R) :
  Forall2 Rle a b -> (x <= y)%R -> (fold_left Rmin a x <= fold_left Rmin b y)%R.
Proof.
  intros Hab; revert x y; induction Hab as [|u v a b Huv _ IH]; simpl; auto.
  intros x y Hxy; apply IH.
  apply Rle_min_compat_l with (z := x) in Huv.
  apply Rle_trans with (Rmin x v); auto.
  apply Rle_min_compat_r; auto.
Qed.

Lemma list_min_mono (a b : list R) :
  Forall2 Rle a b -> (list_min a <= list_min b)%R.
Proof.
  destruct 1; simpl; [lra|]; apply fold_Rmin_mono; auto.
Qed.

Lemma clip01_mono (x y : R) : (x <= y)%R -> (clip01 x <= clip01 y)%R.
Proof. intros; rewrite <- !clip_clip01; apply clip_R_mono; auto. Qed.

Lemma aggregate_feature_mono (factor gamma_min : R) (a b : list R) :
  (0 <= factor)%R -> Forall2 Rle a b ->
  (aggregate_feature factor gamma_min a <= aggregate_feature factor gamma_min b)%R.
Proof.
  intros Hf Hab; unfold aggregate_feature.
  apply clip01_mono, Rmult_le_compat_r; auto.
  apply list_min_mono, quantile_quotients_mono; auto.
Qed.

Lemma score_feature_mono (gamma_min : R) (a b : list R) :
  Forall2 Rle a b ->
  (score_feature gamma_min a <= score_feature gamma_min b)%R.
Proof.
  intros Hab; unfold score_feature.
  destruct (quantile_quotients_mono gamma_min a b Hab); simpl; auto; lra.
Qed.

Lemma rect_le (A B : matrix R) (p : nat) :
  Forall2 (Forall2 Rle) A B ->
  Forall (fun row => length row = p) A ->
  nrows B = nrows A /\ Forall (fun row => length row = p) B.
Proof.
  unfold nrows; induction 1 as [|a b A B Hab _ IH]; simpl; intros HA; auto.
  inversion HA; subst.
  destruct IH as [E HB]; auto; split; [lia|].
  constructor; auto; symmetry; eapply Forall2_length; eauto.
Qed.
End AggregationR.

(** C2 (amended): for a matrix of at least two rows, [pvalues_aggregation]
    with gamma_min = 0.05 returns, per feature (column): with
    kmin = max(1, floor(gamma_min * n_split)), the column sorted ascending,
    its kmin smallest entries discarded, each remaining entry of rank r
    divided by r / n_split, the minimum of these quotients multiplied by
    [1 - ln gamma_min] and clipped to [0,1]. *)
Theorem pvalues_aggregation_per_feature (pvalues : matrix R) (p : nat) :
  2 <= nrows pvalues ->
  Forall (fun row => length row = p) pvalues ->
  pvalues_aggregation pvalues gamma_min_default
  = Ok (map (fun j => aggregate_feature (1 - ln (5 / 100)) (5 / 100)
                                        (column j pvalues))
            (seq 0 p)).
Proof.
  intros Hn Hp.
  change (@gamma_min_default R R_numeric) with (5 / 100)%R.
  apply pvalues_aggregation_columns; auto; lra.
Qed.

Lemma pvalues_aggregation_per_feature_witness :
  2 <= nrows [[0.1]; [0.1]]%R /\
  Forall (fun row => length row = 1) [[0.1]; [0.1]]%R /\
  pvalues_aggregation [[0.1]; [0.1]]%R gamma_min_default
  = Ok (map (fun j => aggregate_feature (1 - ln (5 / 100)) (5 / 100)
                                        (column j [[0.1]; [0.1]]%R))
            (seq 0 1)).
Proof.
  split; [simpl; lia|].
  split; [repeat constructor|].
  apply (pvalues_aggregation_per_feature [[0.1]; [0.1]]%R 1).
  - simpl; lia.
  - repeat constructor.
Defined.

(** A single row leaves nothing past the [kmin = 1] smallest: numpy refuses
    the minimum over no rows. *)
Lemma pvalues_aggregation_one_row (row : list R) :
  pvalues_aggregation [row] gamma_min_default = Raise ValueError.
Proof.
  unfold pvalues_aggregation, sorted_quantile_rows.
  change (@gamma_min_default R R_numeric) with (5 / 100)%R.
  rewrite kmin_of_floor by lra.
  assert (E : floor_kmin (5 / 100) (nrows [row]) = 1).
  { unfold floor_kmin; simpl.
    assert (Int_part (5 / 100 * 1) = 0%Z) as ->; [|reflexivity].
    symmetry; apply Int_part_spec; simpl; lra. }
  rewrite E; simpl; reflexivity.
Qed.

Lemma scores_aggregation_one_row (row : list R) :
  scores_aggregation [row] gamma_min_default = Raise IndexError.
Proof.
  unfold scores_aggregation, sorted_quantile_rows.
  change (@gamma_min_default R R_numeric) with (5 / 100)%R.
  rewrite kmin_of_floor by lra.
  assert (E : floor_kmin (5 / 100) (nrows [row]) = 1).
  { unfold floor_kmin; simpl.
    assert (Int_part (5 / 100 * 1) = 0%Z) as ->; [|reflexivity].
    symmetry; apply Int_part_spec; simpl; lra. }
  rewrite E; simpl; reflexivity.
Qed.

(** C2 as stated fails on two splits of one feature with p-value 0.1: the
    code returns [min(1, 0.1 * (1 - ln 0.05))], above the value
    [0.1 / (1 - ln 0.05)] the specification's words give. *)
Lemma pvalues_aggregation_factor_not_inverted :
  exists code_value : R,
    pvalues_aggregation [[0.1]; [0.1]]%R gamma_min_default = Ok [code_value] /\
    (aggregate_feature_as_specified (5 / 100) [0.1; 0.1] < code_value)%R.
Proof.
  eexists; split.
  - change (@gamma_min_default R R_numeric) with (5 / 100)%R.
    rewrite (pvalues_aggregation_columns _ 1);
      [simpl; reflexivity | lra | simpl; lia | repeat constructor].
  - assert (HL : (ln (5 / 100) < 0)%R) by (apply ln_neg; lra).
    unfold aggregate_feature_as_specified, aggregate_feature, quantile_quotients.
    assert (E : floor_kmin (5 / 100) 2 = 1).
    { pose proof (floor_kmin_bounds (5 / 100) 2) as Hb.
      destruct Hb; try lra; lia. }
    simpl length; rewrite E; simpl.
    unfold Rleb; destruct (Rle_dec 0.1 0.1) as [_|Hn]; [|lra]; simpl.
    set (L := ln (5 / 100)) in *.
    assert (Hinv : (0 < / (1 - L) < 1)%R).
    { split; [apply Rinv_0_lt_compat; lra|].
      rewrite <- Rinv_1; apply Rinv_lt_contravar; lra. }
    replace (0.1 / ((1 + 1) / (1 + 1)))%R with 0.1%R by field.
    unfold clip01, Rmax, Rmin, Rdiv.
    rewrite Rmult_1_l.
    Rdecide; nra.
Qed.

(** C8: both aggregators are monotone.  For matrices of at least two rows
    (where the aggregators return), A elementwise at most B gives
    pvalues_aggregation(A) elementwise at most pvalues_aggregation(B) and
    scores_aggregation(A) elementwise at most scores_aggregation(B). *)
Theorem aggregation_monotone (A B : matrix R) (p : nat) :
  2 <= nrows A ->
  Forall (fun row => length row = p) A ->
  Forall2 (Forall2 Rle) A B ->
  exists pa pb sa sb : list R,
    pvalues_aggregation A gamma_min_default = Ok pa /\
    pvalues_aggregation B gamma_min_default = Ok pb /\
    Forall2 Rle pa pb /\
    scores_aggregation A gamma_min_default = Ok sa /\
    scores_aggregation B gamma_min_default = Ok sb /\
    Forall2 Rle sa sb.
Proof.
  intros Hn HA HAB.
  destruct (rect_le A B p HAB HA) as [En HB].
  change (@gamma_min_default R R_numeric) with (5 / 100)%R.
  assert (Hg : (0 < 5 / 100 < 1)%R) by lra.
  assert (HL : (ln (5 / 100) < 0)%R) by (apply ln_neg; lra).
  do 4 eexists.
  split; [apply (pvalues_aggregation_columns A p); auto|].
  split; [apply (pvalues_aggregation_columns B p); auto; lia|].
  split.
  { apply Forall2_map_same; intros j _.
    apply aggregate_feature_mono; [lra | apply column_le; auto]. }
  split; [apply (scores_aggregation_columns A p); auto|].
  split; [apply (scores_aggregation_columns B p); auto; lia|].
  apply Forall2_map_same; intros j _.
  apply score_feature_mono, column_le; auto.
Qed.

Lemma aggregation_monotone_witness :
  exists pa pb sa sb : list R,
    pvalues_aggregation [[0.1; 0.2]; [0.3; 0.4]]%R gamma_min_default = Ok pa /\
    pvalues_aggregation [[0.1; 0.5]; [0.3; 0.4]]%R gamma_min_default = Ok pb /\
    Forall2 Rle pa pb /\
    scores_aggregation [[0.1; 0.2]; [0.3; 0.4]]%R gamma_min_default = Ok sa /\
    scores_aggregation [[0.1; 0.5]; [0.3; 0.4]]%R gamma_min_default = Ok sb /\
    Forall2 Rle sa sb.
Proof.
  apply (aggregation_monotone _ _ 2).
  - simpl; lia.
  - repeat constructor.
  - repeat constructor; lra.
Defined.

(** ** Failures of the held-out refit *)

Section InferenceFailures.
Context {A G C : Type} `{Numeric A} (lib : Library A G C).

(** A trial whose row raises makes the loop raise. *)
Lemma split_loop_raises (row : nat -> result (list A)) (p : nat)
    (trials : list nat) (out : matrix A) (i : nat) (e : exn) :
  In i trials -> row i = Raise e ->
  exists e', split_loop row p trials out = Raise e'.
Proof.
  revert out; induction trials as [|j rest IH]; intros out Hi Hrow; [destruct Hi|].
  simpl; destruct (row j) as [r|e1] eqn:Ej; simpl; [|eauto].
  destruct (assign_row p j r out) as [out'|e2]; simpl; [|eauto].
  destruct Hi as [->|Hi]; [congruence|].
  apply IH; auto.
Qed.

Lemma mask_fill_length (mask : list bool) (vals out : list A) :
  length (mask_fill mask vals out) = length out.
Proof.
  revert vals out; induction mask as [|b mask IH]; intros vals [|x out]; simpl; auto.
  - destruct b; auto.
  - destruct b; simpl; [destruct vals; simpl|]; auto.
Qed.

(** A masked assignment leaves the positions outside the mask as they were. *)
Lemma mask_fill_outside (mask : list bool) (vals out : list A) (k : nat) (d : A) :
  nth k mask false = false -> nth k (mask_fill mask vals out) d = nth k out d.
Proof.
  revert vals out k; induction mask as [|b mask IH]; intros vals [|x out] k Hk;
    simpl; auto.
  - destruct b; auto.
  - destruct b.
    + destruct k as [|k]; simpl in Hk; [discriminate|].
      destruct vals as [|v vals]; simpl; auto.
    + destruct k as [|k]; simpl; auto.
Qed.

Lemma mask_assign_outside (mask : list bool) (vals out out' : list A) (k : nat) (d : A) :
  mask_assign mask vals out = Ok out' ->
  length out' = length out /\
  (nth k mask false = false -> nth k out' d = nth k out d).
Proof.
  unfold mask_assign; intros Hm.
  destruct (length vals =? count_true mask).
  - inversion Hm; subst; split; [apply mask_fill_length | apply mask_fill_outside].
  - destruct vals as [|v [|? ?]]; try discriminate.
    inversion Hm; subst; split; [apply mask_fill_length | apply mask_fill_outside].
Qed.
Lemma count_true_cons (b : bool) (mask : list bool) :
  count_true (b :: mask) = (if b then 1 else 0) + count_true mask.
Proof. unfold count_true; destruct b; reflexivity. Qed.

(** A true position has fewer true positions before it than the mask holds. *)
Lemma count_true_firstn_lt (mask : list bool) (k : nat) :
  nth k mask false = true -> count_true (firstn k mask) < count_true mask.
Proof.
  revert k; induction mask as [|b mask IH]; intros k Hk.
  - destruct k; discriminate.
  - destruct k as [|k]; simpl in Hk.
    + subst; rewrite count_true_cons; simpl; unfold count_true; simpl; lia.
    + simpl firstn; rewrite !count_true_cons; specialize (IH k Hk); lia.
Qed.

(** A masked assignment puts its values at the true positions, in order. *)
Lemma mask_fill_inside (mask : list bool) (vals out : list A) (k : nat) (d : A) :
  k < length out -> nth k mask false = true ->
  count_true (firstn k mask) < length vals ->
  nth k (mask_fill mask vals out) d = nth (count_true (firstn k mask)) vals d.
Proof.
  revert vals out k; induction mask as [|b mask IH]; intros vals out k Hk Hm Hr.
  - destruct k; discriminate.
  - destruct out as [|x out]; [simpl in Hk; lia|].
    destruct b.
    + destruct vals as [|v vals]; [simpl in Hr; lia|].
      destruct k as [|k]; [reflexivity|].
      simpl in Hk, Hm; simpl firstn in *; rewrite count_true_cons in *.
      simpl in Hr |- *; apply IH; auto; lia.
    + destruct k as [|k]; [discriminate|].
      simpl in Hk, Hm; simpl firstn in *; rewrite count_true_cons in *.
      simpl in Hr |- *; apply IH; auto; lia.
Qed.

Lemma mask_assign_inside (mask : list bool) (vals out out' : list A) (k : nat) (d : A) :
  mask_assign mask vals out = Ok out' ->
  k < length out -> nth k mask false = true ->
  assigned_index mask (length vals) k < length vals /\
  nth k out' d = nth (assigned_index mask (length vals) k) vals d.
Proof.
  unfold mask_assign, assigned_index; intros Hm Hk Hmask.
  pose proof (count_true_firstn_lt mask k Hmask) as Hlt.
  destruct (Nat.eqb_spec (length vals) (count_true mask)) as [E|E].
  - inversion Hm; subst; split; [lia|].
    apply mask_fill_inside; auto; lia.
  - destruct vals as [|v [|? ?]]; try discriminate.
    inversion Hm; subst; split; [simpl; lia|].
    rewrite mask_fill_inside by (auto; rewrite repeat_length; auto).
    rewrite nth_repeat_lt by auto; reflexivity.
Qed.
End InferenceFailures.

(** In binary64 a product with NaN is NaN, and so is its clip to [0,1]. *)
Lemma mul_nan (s : float) : (s * nan)%float = nan.
Proof.
  apply Prim2SF_inj; rewrite mul_spec.
  change (Prim2SF nan) with S754_nan.
  destruct (Prim2SF s); reflexivity.
Qed.

(** C9 (amended): the inference functions handle no failure.  When the OLS
    refit of a split raises, [multivariate_split_pval] and
    [multivariate_split_scores] raise and return no matrix.  When it returns
    and the row is computed, the row is [P_inv] applied to one value per
    cluster, and every one of these values is determined: the sentinel
    (p-value 1, score p * 1) at a cluster outside the split's support; at a
    cluster in it, the refit's p-value for that cluster (the one the masked
    assignment gives it) times the support size and clipped to [0,1] for the
    p-values, times the model size and unclipped for the scores.  In
    binary64 a NaN reported by the refit is therefore a NaN of the row's
    cluster value: a product with NaN is NaN, and so is its clip. *)
Theorem refit_failure_propagates {A G C : Type} `{Numeric A} (lib : Library A G C)
    (X : matrix A) (y : list A) (n_split : nat) (size_split : A)
    (n_clusters : nat) (beta_array : matrix A)
    (split_array clust_array : list (list nat)) (i : nat)
    (y_test : list A) (X_model : matrix A) (model_proj : list bool)
    (P_inv : matrix A) (beta_proj : list A) :
  i < n_split ->
  held_out_design X y beta_array split_array clust_array i
    = Ok (y_test, X_model, model_proj, P_inv, beta_proj) ->
  (forall e, ols_pvalues lib y_test X_model = Raise e ->
     (exists e', multivariate_split_pval lib X y n_split size_split n_clusters
                   beta_array split_array clust_array = Raise e') /\
     (exists e', multivariate_split_scores lib X y n_split size_split n_clusters
                   beta_array split_array clust_array = Raise e')) /\
  (forall row, multivariate_split_pval_row lib X y n_clusters beta_array
                 split_array clust_array i = Ok row ->
     exists res_pvalues pvalues_proj,
       ols_pvalues lib y_test X_model = Ok res_pvalues /\
       row = matvec P_inv pvalues_proj /\ length pvalues_proj = n_clusters /\
       (forall k, k < n_clusters -> nth k model_proj false = false ->
                  nth k pvalues_proj zero = one) /\
       (forall k, k < n_clusters -> nth k model_proj false = true ->
          assigned_index model_proj (length res_pvalues) k < length res_pvalues /\
          nth k pvalues_proj zero
          = clip zero one
              (of_nat (count_true model_proj)
               [*] nth (assigned_index model_proj (length res_pvalues) k)
                       res_pvalues zero))) /\
  (forall row, multivariate_split_scores_row lib X y n_clusters beta_array
                 split_array clust_array i = Ok row ->
     exists res_pvalues scores_proj,
       ols_pvalues lib y_test X_model = Ok res_pvalues /\
       row = matvec P_inv scores_proj /\ length scores_proj = n_clusters /\
       (forall k, k < n_clusters -> nth k model_proj false = false ->
                  nth k scores_proj zero = of_nat (ncols X) [*] one) /\
       (forall k, k < n_clusters -> nth k model_proj false = true ->
          assigned_index model_proj (length res_pvalues) k < length res_pvalues /\
          nth k scores_proj zero
          = of_nat (count_true (support (matvec P_inv beta_proj)))
            [*] nth (assigned_index model_proj (length res_pvalues) k)
                    res_pvalues zero)) /\
  (forall (flog : float -> float) (size : float),
     @mul float (b64 flog) size nan = nan /\
     @clip float (b64 flog) (@zero float (b64 flog)) (@one float (b64 flog))
       (@mul float (b64 flog) size nan) = nan).
Proof.
  intros Hi Hd; split; [|split; [|split]].
  - intros e Hols; split.
    + unfold multivariate_split_pval.
      destruct (split_loop_raises
                  (multivariate_split_pval_row lib X y n_clusters beta_array
                     split_array clust_array)
                  (ncols X) (seq 0 n_split)
                  (repeat (repeat one (ncols X)) n_split) i e) as [e' He'].
      * apply in_seq; lia.
      * unfold multivariate_split_pval_row; rewrite Hd; simpl; rewrite Hols; auto.
      * exists e'; rewrite He'; reflexivity.
    + unfold multivariate_split_scores.
      destruct (split_loop_raises
                  (multivariate_split_scores_row lib X y n_clusters beta_array
                     split_array clust_array)
                  (ncols X) (seq 0 n_split)
                  (repeat (repeat one (ncols X)) n_split) i e) as [e' He'].
      * apply in_seq; lia.
      * unfold multivariate_split_scores_row; rewrite Hd; simpl; rewrite Hols; auto.
      * exists e'; rewrite He'; reflexivity.
  - intros row; unfold multivariate_split_pval_row; rewrite Hd; simpl.
    destruct (ols_pvalues lib y_test X_model) as [res|e]; simpl; [|discriminate].
    destruct (mask_assign _ _ _) as [proj|e] eqn:Em; simpl; [|discriminate].
    intros Hrow; inversion Hrow; subst; exists res, proj.
    destruct (mask_assign_outside _ _ _ _ 0 zero Em) as [Hlen _].
    rewrite repeat_length in Hlen.
    split; [reflexivity|split; [reflexivity|split; [auto|split]]].
    + intros k Hk Hmask.
      destruct (mask_assign_outside _ _ _ _ k zero Em) as [_ Hout].
      rewrite Hout by auto; apply nth_repeat_lt; auto.
    + intros k Hk Hmask.
      destruct (mask_assign_inside _ _ _ _ k zero Em) as [Hidx Hin];
        [rewrite repeat_length; auto|auto|].
      rewrite length_map in Hidx, Hin; split; [exact Hidx|].
      rewrite Hin.
      rewrite (nth_indep _ zero
                 (clip zero one (of_nat (count_true model_proj) [*] zero)))
        by (rewrite length_map; auto).
      apply (map_nth (fun v => clip zero one (of_nat (count_true model_proj) [*] v))).
  - intros row; unfold multivariate_split_scores_row; rewrite Hd; simpl.
    destruct (ols_pvalues lib y_test X_model) as [res|e]; simpl; [|discriminate].
    destruct (mask_assign _ _ _) as [proj|e] eqn:Em; simpl; [|discriminate].
    intros Hrow; inversion Hrow; subst; exists res, proj.
    destruct (mask_assign_outside _ _ _ _ 0 zero Em) as [Hlen _].
    rewrite length_map, repeat_length in Hlen.
    split; [reflexivity|split; [reflexivity|split; [auto|split]]].
    + intros k Hk Hmask.
      destruct (mask_assign_outside _ _ _ _ k zero Em) as [_ Hout].
      rewrite Hout by auto.
      rewrite (nth_indep _ zero (of_nat (ncols X) [*] one))
        by (rewrite length_map, repeat_length; auto).
      rewrite (map_nth (fun o => of_nat (ncols X) [*] o)).
      rewrite nth_repeat_lt; auto.
    + intros k Hk Hmask.
      destruct (mask_assign_inside _ _ _ _ k zero Em) as [Hidx Hin];
        [rewrite length_map, repeat_length; auto|auto|].
      rewrite length_map in Hidx, Hin; split; [exact Hidx|].
      rewrite Hin.
      rewrite (nth_indep _ zero
                 (of_nat (count_true (support (matvec P_inv beta_proj))) [*] zero))
        by (rewrite length_map; auto).
      apply (map_nth (fun v => of_nat (count_true (support (matvec P_inv beta_proj)))
                               [*] v)).
  - intros flog size; simpl mul; rewrite mul_nan; split; reflexivity.
Qed.

Lemma refit_failure_propagates_witness :
  1 < 2 /\
  @held_out_design float Standin.N Standin.X Standin.y Evidence.beta_array
      Evidence.split_array Evidence.clust_array 1
    = Ok (Evidence.y_test, Evidence.X_model, [true; true], Evidence.P_inv,
          [1; 1]%float) /\
  ols_pvalues (Standin.lib true) Evidence.y_test Evidence.X_model
    = Raise LibraryError /\
  (exists e', @multivariate_split_pval float nat unit Standin.N (Standin.lib true)
                Standin.X Standin.y 2 2%float 2 Evidence.beta_array
                Evidence.split_array Evidence.clust_array = Raise e') /\
  (exists e', @multivariate_split_scores float nat unit Standin.N (Standin.lib true)
                Standin.X Standin.y 2 2%float 2 Evidence.beta_array
                Evidence.split_array Evidence.clust_array = Raise e') /\
  @multivariate_split_pval_row float nat unit Standin.N (Standin.lib false)
      Standin.X Standin.y 2 Evidence.beta_array
      Evidence.split_array Evidence.clust_array 1
    = Ok [nan; nan; nan; nan]%float /\
  (exists res_pvalues pvalues_proj : list float,
     ols_pvalues (Standin.lib false) Evidence.y_test Evidence.X_model
       = Ok res_pvalues /\
     [nan; nan; nan; nan]%float = @matvec float Standin.N Evidence.P_inv pvalues_proj /\
     length pvalues_proj = 2 /\
     (forall k, k < 2 -> nth k [true; true] false = false ->
                nth k pvalues_proj (@zero float Standin.N) = @one float Standin.N) /\
     (forall k, k < 2 -> nth k [true; true] false = true ->
        assigned_index [true; true] (length res_pvalues) k < length res_pvalues /\
        nth k pvalues_proj (@zero float Standin.N)
        = @clip float Standin.N (@zero float Standin.N) (@one float Standin.N)
            (@mul float Standin.N (@of_nat float Standin.N (count_true [true; true]))
               (nth (assigned_index [true; true] (length res_pvalues) k)
                    res_pvalues (@zero float Standin.N))))).
Proof.
  split; [lia|].
  split; [vm_compute; reflexivity|].
  split; [vm_compute; reflexivity|].
  split; [|split; [|split; [vm_compute; reflexivity|]]].
  - refine (proj1 (proj1 (@refit_failure_propagates float nat unit Standin.N
                     (Standin.lib true)
                     Standin.X Standin.y 2 2%float 2 Evidence.beta_array
                     Evidence.split_array Evidence.clust_array 1
                     Evidence.y_test Evidence.X_model [true; true] Evidence.P_inv
                     [1; 1]%float _ _) LibraryError _)).
    + lia.
    + vm_compute; reflexivity.
    + vm_compute; reflexivity.
  - refine (proj2 (proj1 (@refit_failure_propagates float nat unit Standin.N
                     (Standin.lib true)
                     Standin.X Standin.y 2 2%float 2 Evidence.beta_array
                     Evidence.split_array Evidence.clust_array 1
                     Evidence.y_test Evidence.X_model [true; true] Evidence.P_inv
                     [1; 1]%float _ _) LibraryError _)).
    + lia.
    + vm_compute; reflexivity.
    + vm_compute; reflexivity.
  - refine (proj1 (proj2 (@refit_failure_propagates float nat unit Standin.N
                     (Standin.lib false)
                     Standin.X Standin.y 2 2%float 2 Evidence.beta_array
                     Evidence.split_array Evidence.clust_array 1
                     Evidence.y_test Evidence.X_model [true; true] Evidence.P_inv
                     [1; 1]%float _ _)) [nan; nan; nan; nan]%float _).
    + lia.
    + vm_compute; reflexivity.
    + vm_compute; reflexivity.
Defined.

(** C9 as stated fails.  On the evidence above, the refit of split 1 has two
    coefficients for two held-out rows.  With an OLS that raises there, both
    inference functions raise instead of returning a matrix whose row 1 is
    the sentinel; with an OLS that returns NaN p-values there, row 1 is NaN
    at every feature, not the sentinel 1, while row 0 is computed as usual. *)
Lemma refit_failure_not_degraded :
  @multivariate_split_pval float nat unit Standin.N (Standin.lib true)
      Standin.X Standin.y 2 2%float 2 Evidence.beta_array
      Evidence.split_array Evidence.clust_array
    = Raise LibraryError /\
  @multivariate_split_scores float nat unit Standin.N (Standin.lib true)
      Standin.X Standin.y 2 2%float 2 Evidence.beta_array
      Evidence.split_array Evidence.clust_array
    = Raise LibraryError /\
  @multivariate_split_pval_row float nat unit Standin.N (Standin.lib false)
      Standin.X Standin.y 2 Evidence.beta_array
      Evidence.split_array Evidence.clust_array 0
    = Ok [0.5; 1; 0.5; 1]%float /\
  @multivariate_split_pval_row float nat unit Standin.N (Standin.lib false)
      Standin.X Standin.y 2 Evidence.beta_array
      Evidence.split_array Evidence.clust_array 1
    = Ok [nan; nan; nan; nan]%float.
Proof. repeat split; vm_compute; reflexivity. Qed.

(** ** What [fit] reads and writes *)

Section FitFacts.
Context {A G C : Type} `{Numeric A} (lib : Library A G C).

Ltac crunch :=
  repeat (simpl;
          match goal with
          | |- context [match ?c with Ok _ => _ | Raise _ => _ end] =>
              destruct c eqn:?
          | |- context [match ?c with pair _ _ => _ end] => destruct c
          | |- context [match ?c with Some _ => _ | None => _ end] =>
              destruct c eqn:?
          end);
  simpl; auto.

Variables (X y : matrix A) (connectivity : C) (n p k w : nat) (size th : A).

Local Abbreviation trial := (fit_trial lib X y connectivity n p k w size th).

(** A trial writes the generator and [_soln] only. *)
Lemma fit_trial_frame (arr : arrays A) (i : nat) (s : StabilityLasso A G) :
  fst (trial arr i s)
  = with_core (generator (fst (trial arr i s))) (_soln (fst (trial arr i s))) s.
Proof.
  unfold fit_trial, mbind, call, self_, assign, ret.
  destruct arr as [[b sp] cl].
  crunch; destruct s; reflexivity.
Qed.

(** A trial reads the generator and [_soln] only. *)
Lemma fit_trial_core (arr : arrays A) (i : nat) (s1 s2 : StabilityLasso A G) :
  generator s1 = generator s2 -> _soln s1 = _soln s2 ->
  snd (trial arr i s1) = snd (trial arr i s2) /\
  generator (fst (trial arr i s1)) = generator (fst (trial arr i s2)) /\
  _soln (fst (trial arr i s1)) = _soln (fst (trial arr i s2)).
Proof.
  intros Hg Hs.
  unfold fit_trial, mbind, call, self_, assign, ret.
  destruct arr as [[b sp] cl], s1, s2; simpl in *; subst.
  crunch.
Qed.

Lemma fit_loop_frame (trials : list nat) (arr : arrays A) (s : StabilityLasso A G) :
  fst (fit_loop trial trials arr s)
  = with_core (generator (fst (fit_loop trial trials arr s)))
              (_soln (fst (fit_loop trial trials arr s))) s.
Proof.
  revert arr s; induction trials as [|i rest IH]; intros arr s; simpl.
  - destruct s; reflexivity.
  - unfold mbind at 1 2 3.
    pose proof (fit_trial_frame arr i s) as Hf.
    destruct (trial arr i s) as [s1 [arr1|e]]; simpl in *.
    + rewrite (IH arr1 s1) at 1; rewrite Hf; reflexivity.
    + exact Hf.
Qed.

Lemma fit_loop_core (trials : list nat) (arr : arrays A) (s1 s2 : StabilityLasso A G) :
  generator s1 = generator s2 -> _soln s1 = _soln s2 ->
  snd (fit_loop trial trials arr s1) = snd (fit_loop trial trials arr s2) /\
  generator (fst (fit_loop trial trials arr s1))
    = generator (fst (fit_loop trial trials arr s2)) /\
  _soln (fst (fit_loop trial trials arr s1))
    = _soln (fst (fit_loop trial trials arr s2)).
Proof.
  revert arr s1 s2; induction trials as [|i rest IH]; intros arr s1 s2 Hg Hs; simpl.
  - auto.
  - unfold mbind.
    destruct (fit_trial_core arr i s1 s2 Hg Hs) as (Hr & Hg' & Hs').
    destruct (trial arr i s1) as [t1 [a1|e1]], (trial arr i s2) as [t2 [a2|e2]];
      simpl in *; try discriminate; auto.
    inversion Hr; subst; apply IH; auto.
Qed.

(** What a trial that returns has done to the generator and to [split_array]. *)
Lemma fit_trial_ok (b b' : matrix A) (sp sp' cl cl' : list (list nat)) (i : nat)
    (s s' : StabilityLasso A G) :
  trial (b, sp, cl) i s = (s', Ok (b', sp', cl')) ->
  exists split,
    choice lib (generator s) n size = Ok (split, generator s') /\
    assign_row w i (sort_nat split) sp = Ok sp'.
Proof.
  unfold fit_trial, mbind, call, self_, assign, ret; simpl; intros Ht.
  destruct (choice lib (generator s) n size) as [[split g]|e]; simpl in Ht;
    [|discriminate].
  exists split.
  repeat match type of Ht with
         | context [match ?c with Ok _ => _ | Raise _ => _ end] =>
             destruct c eqn:?; simpl in Ht; try discriminate
         | context [match ?c with pair _ _ => _ end] =>
             destruct c; simpl in Ht
         | context [match ?c with Some _ => _ | None => _ end] =>
             destruct c eqn:?; simpl in Ht; try discriminate
         end.
  inversion Ht; subst; simpl; auto.
Qed.

Lemma insert_nat_perm (i : nat) (l : list nat) :
  Permutation (insert_nat i l) (i :: l).
Proof.
  induction l as [|j t IH]; simpl; auto.
  destruct (i <=? j); auto.
  rewrite IH; apply perm_swap.
Qed.

Lemma sort_nat_perm (l : list nat) : Permutation (sort_nat l) l.
Proof.
  induction l as [|x t IH]; simpl; auto.
  rewrite insert_nat_perm; auto.
Qed.

Lemma insert_nat_sorted (i : nat) (l : list nat) :
  StronglySorted le l -> StronglySorted le (insert_nat i l).
Proof.
  induction l as [|j t IH]; simpl; intros Hs.
  - repeat constructor.
  - apply StronglySorted_inv in Hs as [Ht Hj].
    destruct (Nat.leb_spec i j).
    + constructor; [constructor; auto|].
      constructor; auto.
      eapply Forall_impl; [|exact Hj]; simpl; intros; lia.
    + constructor; auto.
      eapply Permutation_Forall; [symmetry; apply insert_nat_perm|].
      constructor; auto; lia.
Qed.

Lemma sort_nat_sorted (l : list nat) : StronglySorted le (sort_nat l).
Proof.
  induction l as [|x t IH]; simpl; [constructor | apply insert_nat_sorted, IH].
Qed.

Lemma sorted_nodup_strict (l : list nat) :
  StronglySorted le l -> NoDup l -> StronglySorted lt l.
Proof.
  induction 1 as [|x t Ht IH Hx]; intros Hnd; constructor.
  - apply IH; inversion Hnd; auto.
  - inversion Hnd as [|? ? Hin _]; subst.
    rewrite Forall_forall in *; intros z Hz.
    specialize (Hx z Hz).
    assert (x <> z) by (intros ->; auto).
    lia.
Qed.

Lemma sort_nat_is_split (split : list nat) :
  NoDup split -> Forall (fun j => j < n) split -> length split = w ->
  is_split n w (sort_nat split).
Proof.
  intros Hnd Hlt Hlen; repeat split.
  - apply sorted_nodup_strict; [apply sort_nat_sorted|].
    eapply Permutation_NoDup; [symmetry; apply sort_nat_perm | auto].
  - eapply Permutation_Forall; [symmetry; apply sort_nat_perm | auto].
  - rewrite (Permutation_length (sort_nat_perm split)); auto.
Qed.

Lemma firstn_S_update {B : Type} (a : nat) (v : B) (l : list B) :
  a < length l -> firstn (S a) (update a v l) = firstn a l ++ [v].
Proof.
  revert a; induction l as [|x t IH]; intros [|a] Ha; simpl in *; try lia.
  - reflexivity.
  - f_equal; apply IH; lia.
Qed.

Hypothesis Hdraw : draws_without_replacement lib.
Hypothesis Hw : as_dimension size = Ok w.

(** The trials draw from the generator one after the other; each stores its
    draw, sorted, as its row of [split_array]. *)
Lemma fit_loop_draws (m a : nat) (b b' : matrix A) (sp sp' cl cl' : list (list nat))
    (s s' : StabilityLasso A G) :
  fit_loop trial (seq a m) (b, sp, cl) s = (s', Ok (b', sp', cl')) ->
  length sp = a + m ->
  exists splits,
    draws lib (generator s) n size m = Ok (splits, generator s') /\
    sp' = firstn a sp ++ map sort_nat splits.
Proof.
  revert a b sp cl s; induction m as [|m IH]; intros a b sp cl s.
  - simpl; unfold ret; intros Hl Hlen; inversion Hl; subst.
    exists []; split; auto.
    simpl; rewrite app_nil_r, firstn_all2; auto; lia.
  - change (fit_loop trial (seq a (S m)) (b, sp, cl) s)
      with (mbind (trial (b, sp, cl) a)
                  (fun arr' => fit_loop trial (seq (S a) m) arr') s).
    unfold mbind at 1.
    destruct (trial (b, sp, cl) a s) as [s1 [[[b1 sp1] cl1]|e]] eqn:Et;
      [|intros Hl; discriminate].
    intros Hl Hlen.
    destruct (fit_trial_ok _ _ _ _ _ _ _ _ _ Et) as (split & Hc & Ha).
    destruct (Hdraw _ _ _ _ _ _ Hc Hw) as (_ & _ & Hsz).
    unfold assign_row in Ha.
    destruct (Nat.ltb_spec a (length sp)); [|lia].
    rewrite (Permutation_length (sort_nat_perm split)), Hsz, Nat.eqb_refl in Ha.
    inversion Ha; subst sp1.
    destruct (IH (S a) b1 _ cl1 s1 Hl) as (rest & Hd & Hsp).
    { rewrite update_length; lia. }
    exists (split :: rest); simpl; rewrite Hc; simpl; rewrite Hd; simpl; split; auto.
    rewrite Hsp, firstn_S_update, <- app_assoc by lia; reflexivity.
Qed.

Lemma draws_are_splits (m : nat) (g g' : G) (splits : list (list nat)) :
  draws lib g n size m = Ok (splits, g') ->
  length splits = m /\ Forall (is_split n w) (map sort_nat splits).
Proof.
  revert g splits; induction m as [|m IH]; intros g splits; simpl.
  - intros Hd; inversion Hd; subst; split; auto; constructor.
  - destruct (choice lib g n size) as [[split g1]|e] eqn:Hc; simpl; [|discriminate].
    destruct (draws lib g1 n size m) as [[rest g2]|e] eqn:Hr; simpl; [|discriminate].
    intros Hd; inversion Hd; subst.
    destruct (IH _ _ Hr) as [Hlen Hrest].
    destruct (Hdraw _ _ _ _ _ _ Hc Hw) as (Hnd & Hlt & Hsz).
    split; simpl; [lia|].
    constructor; auto; apply sort_nat_is_split; auto.
Qed.
End FitFacts.

Section FitTheorems.
Context {A G C : Type} `{Numeric A} (lib : Library A G C).

(** A fit that returns has drawn [n_split] times from the generator, which
    it leaves advanced, and stored the sorted draws as [_split_array]. *)
Lemma fit_split_array (X : matrix A) (y : list A) (connectivity : C)
    (m m' : StabilityLasso A G) (mu : list A) (X' : matrix A) :
  draws_without_replacement lib ->
  standard_scaler lib X = Ok (mu, X') ->
  fit lib X y connectivity m = (m', Ok tt) ->
  exists w splits,
    as_dimension (of_nat (nrows X') [*] ratio_split m) = Ok w /\
    draws lib (generator m) (nrows X') (of_nat (nrows X') [*] ratio_split m)
          (n_split m) = Ok (splits, generator m') /\
    _split_array m' = Some (map sort_nat splits).
Proof.
  intros Hdraw HX.
  unfold fit, mbind, call, self_, assign, ret.
  destruct (standard_scaler lib (map (fun v => [v]) y)) as [[mean_ y']|e];
    [|intros Hf; discriminate].
  rewrite HX; cbv beta iota.
  destruct (resolve_n_clusters _ _) as [kz|e]; [|intros Hf; discriminate].
  cbv beta iota.
  destruct (dimension kz) as [k|e]; [|intros Hf; discriminate].
  cbv beta iota.
  destruct (as_dimension _) as [w|e] eqn:Hw; [|intros Hf; discriminate].
  cbv beta iota.
  match goal with
  | |- context [fit_loop ?t ?l ?a ?s] =>
      destruct (fit_loop t l a s) as [s1 [[[b sp] cl]|e]] eqn:El
  end; [|intros Hf; discriminate].
  cbv beta iota; intros Hf; inversion Hf; subst m'; clear Hf.
  simpl in Hw.
  apply (fit_loop_draws lib _ _ _ _ _ _ _ _ _ Hdraw Hw) in El;
    [|rewrite repeat_length; reflexivity].
  destruct El as (splits & Hd & Hsp).
  exists w, splits; simpl in *; subst; auto.
Qed.

(** [fit] reads its model through the hyperparameters and the generator
    only: what a fit that returns leaves does not depend on the attributes
    an earlier fit assigned. *)
Lemma fit_reads_hyperparameters (X : matrix A) (y : list A) (connectivity : C)
    (m1 m2 m' : StabilityLasso A G) :
  theta m1 = theta m2 -> n_split m1 = n_split m2 ->
  ratio_split m1 = ratio_split m2 -> n_clusters m1 = n_clusters m2 ->
  generator m1 = generator m2 ->
  fit lib X y connectivity m1 = (m', Ok tt) ->
  fit lib X y connectivity m2 = (m', Ok tt).
Proof.
  intros Ht Hn Hr Hc Hg.
  destruct m1, m2; simpl in *; subst.
  unfold fit, mbind, call, self_, assign, ret.
  destruct (standard_scaler lib (map (fun v => [v]) y)) as [[mean_ y']|e];
    [|intros Hf; discriminate].
  destruct (standard_scaler lib X) as [[mu X']|e]; [|intros Hf; discriminate].
  cbv beta iota; simpl.
  destruct (resolve_n_clusters _ _) as [kz|e]; [|intros Hf; discriminate].
  cbv beta iota.
  destruct (dimension kz) as [k|e]; [|intros Hf; discriminate].
  cbv beta iota.
  destruct (as_dimension _) as [w|e]; [|intros Hf; discriminate].
  cbv beta iota.
  match goal with
  | |- (let (_, _) :=
          fit_loop (fit_trial _ ?X0 ?y0 ?c0 ?n0 ?p0 ?k0 ?w0 ?z0 ?t0) ?l ?a ?s1 in _) = _ ->
       (let (_, _) := fit_loop _ _ _ ?s2 in _) = _ =>
      pose proof (fit_loop_frame lib X0 y0 c0 n0 p0 k0 w0 z0 t0 l a s1) as F1;
      pose proof (fit_loop_frame lib X0 y0 c0 n0 p0 k0 w0 z0 t0 l a s2) as F2;
      destruct (fit_loop_core lib X0 y0 c0 n0 p0 k0 w0 z0 t0 l a s1 s2
                  eq_refl eq_refl) as (Hres & Hgen & Hsol);
      destruct (fit_loop (fit_trial lib X0 y0 c0 n0 p0 k0 w0 z0 t0) l a s1)
        as [t1 [arr1|e1]];
      destruct (fit_loop (fit_trial lib X0 y0 c0 n0 p0 k0 w0 z0 t0) l a s2)
        as [t2 [arr2|e2]]
  end; simpl in *; try discriminate; try (intros Hf; discriminate).
  inversion Hres; subst arr2.
  destruct arr1 as [[b sp] cl].
  rewrite F1, F2, Hgen, Hsol; simpl.
  intros Hf; inversion Hf; subst; reflexivity.
Qed.

End FitTheorems.

(** ** The stand-in generator draws without replacement *)

Lemma rotation_perm (g n : nat) : Permutation (Standin.rotation g n) (seq 0 n).
Proof.
  unfold Standin.rotation.
  rewrite <- Permutation_rev, Permutation_app_comm, firstn_skipn; reflexivity.
Qed.

Lemma standin_draws_without_replacement (b : bool) :
  @draws_without_replacement float nat unit Standin.N (Standin.lib b).
Proof.
  intros g n size split g' w Hc Hw.
  simpl in Hc; unfold Standin.draw in Hc.
  rewrite Hw in Hc; simpl in Hc.
  destruct (Nat.leb_spec w n) as [Hle|]; [|discriminate].
  inversion Hc; subst; clear Hc.
  assert (Hnd : NoDup (Standin.rotation g n)).
  { eapply Permutation_NoDup; [symmetry; apply rotation_perm | apply seq_NoDup]. }
  assert (Hlen : length (Standin.rotation g n) = n).
  { rewrite (Permutation_length (rotation_perm g n)); apply length_seq. }
  repeat split.
  - rewrite <- (firstn_skipn w (Standin.rotation g n)) in Hnd.
    eapply NoDup_app_remove_r; eauto.
  - apply Forall_forall; intros j Hj.
    assert (Hin : In j (seq 0 n)).
    { eapply Permutation_in; [apply rotation_perm|].
      rewrite <- (firstn_skipn w (Standin.rotation g n)).
      apply in_or_app; auto. }
    apply in_seq in Hin; lia.
  - rewrite length_firstn, Hlen; lia.
Qed.

(** ** The sizes and the order of the stored splits *)

(** Over the reals a dimension is the floor of a nonnegative size. *)
Lemma as_dimension_floor (x : R) :
  (0 <= x)%R -> as_dimension x = Ok (Z.to_nat (Int_part x)).
Proof.
  intros Hx; unfold as_dimension; simpl.
  rewrite Rtrunc_nonneg by auto.
  destruct (base_Int_part x) as [_ Hhi].
  assert (Hz : (-1 < Int_part x)%Z) by (apply lt_IZR; lra).
  destruct (Z.ltb_spec (Int_part x) 0); [lia | reflexivity].
Qed.

(** C5 (amended): when the generator draws without replacement, every row
    of the [_split_array] a fit leaves is ascending without repetition, holds
    sample indices below n, and has the size the unrounded product
    [n * ratio_split] has as an array dimension, its truncation toward zero. *)
Theorem split_array_rows {A G C : Type} `{Numeric A} (lib : Library A G C)
    (X : matrix A) (y : list A) (connectivity : C)
    (m m' : StabilityLasso A G) (mu : list A) (X' : matrix A) :
  draws_without_replacement lib ->
  standard_scaler lib X = Ok (mu, X') ->
  fit lib X y connectivity m = (m', Ok tt) ->
  exists w sa,
    as_dimension (of_nat (nrows X') [*] ratio_split m) = Ok w /\
    _split_array m' = Some sa /\
    length sa = n_split m /\
    Forall (is_split (nrows X') w) sa.
Proof.
  intros Hdraw HX Hfit.
  destruct (fit_split_array lib X y connectivity m m' mu X' Hdraw HX Hfit)
    as (w & splits & Hw & Hd & Hsp).
  destruct (draws_are_splits lib _ _ _ Hdraw Hw _ _ _ _ Hd) as [Hlen Hall].
  exists w, (map sort_nat splits); rewrite length_map; auto.
Qed.

(** C6 (amended): what a fit that returns leaves is determined by the
    hyperparameters, the inputs and the state of the generator when it is
    entered; the fit takes its [n_split] draws from that generator, stores
    them sorted as [_split_array], and leaves the generator advanced past
    them, which is where a second fit on the same model starts. *)
Theorem fit_determined_by_generator {A G C : Type} `{Numeric A}
    (lib : Library A G C) (X : matrix A) (y : list A) (connectivity : C)
    (m1 m2 m' : StabilityLasso A G) (mu : list A) (X' : matrix A) :
  draws_without_replacement lib ->
  theta m1 = theta m2 -> n_split m1 = n_split m2 ->
  ratio_split m1 = ratio_split m2 -> n_clusters m1 = n_clusters m2 ->
  generator m1 = generator m2 ->
  standard_scaler lib X = Ok (mu, X') ->
  fit lib X y connectivity m1 = (m', Ok tt) ->
  fit lib X y connectivity m2 = (m', Ok tt) /\
  exists splits,
    draws lib (generator m1) (nrows X') (of_nat (nrows X') [*] ratio_split m1)
          (n_split m1) = Ok (splits, generator m') /\
    _split_array m' = Some (map sort_nat splits).
Proof.
  intros Hdraw Ht Hn Hr Hc Hg HX Hfit; split.
  - eapply fit_reads_hyperparameters; eauto.
  - destruct (fit_split_array lib X y connectivity m1 m' mu X' Hdraw HX Hfit)
      as (w & splits & Hw & Hd & Hsp).
    exists splits; auto.
Qed.

(** ** Fits over the stand-in library *)



(** C5 as stated fails.  With four samples and ratio_split = 0.7 the product
    is 2.8: the stored splits have two indices each, not round(2.8) = 3. *)
Lemma split_size_not_rounded :
  snd (fit_standin (model 0.7 2)) = Ok tt /\
  size_split (fitted 0.7 2) = Some 2.8%float /\
  _split_array (fitted 0.7 2) = Some [[2; 3]; [0; 3]] /\
  Z.to_nat (round_nearest ((7 # 10) * 4)) = 3.
Proof. repeat split; vm_compute; reflexivity. Qed.

Lemma split_array_rows_witness :
  exists w sa,
    @as_dimension float Standin.N (4 * 0.5)%float = Ok w /\
    _split_array (fitted 0.5 3) = Some sa /\
    length sa = 2 /\
    Forall (is_split 4 w) sa.
Proof.
  apply (@split_array_rows float nat unit Standin.N (Standin.lib true)
           Standin.X Standin.y tt (model 0.5 3) (fitted 0.5 3)
           [0; 0; 0; 0]%float Standin.X).
  - apply standin_draws_without_replacement.
  - vm_compute; reflexivity.
  - vm_compute; reflexivity.
Defined.

(** C6 as stated fails: a second [fit] on the same model starts from the
    generator the first one advanced and stores other splits. *)
Lemma second_fit_draws_other_splits :
  snd (fit_standin (model 0.5 3)) = Ok tt /\
  snd (fit_standin (fitted 0.5 3)) = Ok tt /\
  generator (model 0.5 3) = 0 /\
  generator (fitted 0.5 3) = 2 /\
  _split_array (fitted 0.5 3) = Some [[2; 3]; [0; 3]] /\
  _split_array (fst (fit_standin (fitted 0.5 3))) = Some [[0; 1]; [1; 2]].
Proof. repeat split; vm_compute; reflexivity. Qed.

Lemma fit_determined_by_generator_witness :
  fit_standin refitted = (fitted 0.5 3, Ok tt) /\
  exists splits,
    draws (Standin.lib true) 0 4 (4 * 0.5)%float 2 = Ok (splits, 2) /\
    _split_array (fitted 0.5 3) = Some (map sort_nat splits).
Proof.
  apply (@fit_determined_by_generator float nat unit Standin.N (Standin.lib true)
           Standin.X Standin.y tt (model 0.5 3) refitted (fitted 0.5 3)
           [0; 0; 0; 0]%float Standin.X).
  - apply standin_draws_without_replacement.
  - reflexivity.
  - reflexivity.
  - reflexivity.
  - reflexivity.
  - reflexivity.
  - vm_compute; reflexivity.
  - vm_compute; reflexivity.
Defined.

(** ** The bounds and the selection, in exact arithmetic *)

Section BoundsR.

Lemma map_nth_seq (l : list R) (d : R) :
  map (fun i => nth i l d) (seq 0 (length l)) = l.
Proof.
  induction l as [|x t IH]; simpl; auto.
  rewrite <- seq_shift, map_map; simpl; rewrite IH; reflexivity.
Qed.

Lemma map_insert_by (key : nat -> R) (i : nat) (l : list nat) :
  map key (insert_by key i l) = insert (key i) (map key l).
Proof.
  induction l as [|j t IH]; simpl; auto.
  destruct (Rleb (key i) (key j)); simpl; auto.
  rewrite IH; reflexivity.
Qed.

(** Reading the p-values in [argsort] order gives the sorted p-values. *)
Lemma take_argsort (pvalues : list R) :
  take pvalues (np_argsort pvalues) = np_sort pvalues.
Proof.
  unfold take, np_argsort, np_sort.
  set (key := fun i => nth i pvalues zero).
  rewrite <- (map_nth_seq pvalues zero) at 2; fold key.
  induction (seq 0 (length pvalues)) as [|i t IH]; simpl; auto.
  rewrite map_insert_by, IH; reflexivity.
Qed.

Lemma insert_by_perm (key : nat -> R) (i : nat) (l : list nat) :
  Permutation (insert_by key i l) (i :: l).
Proof.
  induction l as [|j t IH]; simpl; auto.
  destruct (Rleb (key i) (key j)); auto.
  rewrite IH; apply perm_swap.
Qed.

Lemma argsort_perm (pvalues : list R) :
  Permutation (np_argsort pvalues) (seq 0 (length pvalues)).
Proof.
  unfold np_argsort.
  induction (seq 0 (length pvalues)) as [|i t IH]; simpl; auto.
  rewrite insert_by_perm; auto.
Qed.

Lemma update_nth_same {B : Type} (i : nat) (v d : B) (l : list B) :
  i < length l -> nth i (update i v l) d = v.
Proof.
  revert i; induction l as [|x t IH]; intros [|i] Hi; simpl in *; try lia; auto.
  apply IH; lia.
Qed.

Lemma update_nth_other {B : Type} (i j : nat) (v d : B) (l : list B) :
  i <> j -> nth j (update i v l) d = nth j l d.
Proof.
  revert i j; induction l as [|x t IH]; intros [|i] [|j] Hij; simpl; auto; try lia.
Qed.

Lemma scatter_nth_other (idx : list nat) (vals out : list R) (j : nat) (d : R) :
  ~ In j idx -> nth j (scatter idx vals out) d = nth j out d.
Proof.
  revert vals out; induction idx as [|i idx IH]; intros [|v vals] out Hj;
    simpl; auto.
  rewrite IH, update_nth_other; auto; intros ?; apply Hj; simpl; auto.
Qed.

Lemma scatter_nth (idx : list nat) (vals out : list R) (k : nat) (d : R) :
  NoDup idx -> Forall (fun i => i < length out) idx ->
  length vals = length idx -> k < length idx ->
  nth (nth k idx 0) (scatter idx vals out) d = nth k vals d.
Proof.
  revert vals out k; induction idx as [|i idx IH]; intros [|v vals] out k
    Hnd Hlt Hlen Hk; simpl in *; try lia.
  inversion Hnd; subst; inversion Hlt; subst.
  destruct k as [|k].
  - rewrite scatter_nth_other, update_nth_same; auto.
  - apply IH; auto; try lia.
    rewrite update_length; auto.
Qed.

Lemma map2_length {B C D : Type} (f : B -> C -> D) (l : list B) (m : list C) :
  length l = length m -> length (map2 f l m) = length l.
Proof.
  revert m; induction l as [|x l IH]; intros [|y m] Hl; simpl in *; auto; lia.
Qed.

Lemma map2_nth {B C D : Type} (f : B -> C -> D) (l : list B) (m : list C)
    (k : nat) (dl : B) (dm : C) (d : D) :
  length l = length m -> k < length l ->
  nth k (map2 f l m) d = f (nth k l dl) (nth k m dm).
Proof.
  revert m k; induction l as [|x l IH]; intros [|y m] [|k] Hl Hk;
    simpl in *; auto; try lia.
  apply IH; lia.
Qed.

Lemma rank_divide_length (s : list R) : length (rank_divide s) = length s.
Proof.
  unfold rank_divide, arange.
  apply map2_length; rewrite length_map, length_seq; lia.
Qed.

Lemma rank_divide_nth (s : list R) (k : nat) :
  k < length s ->
  nth k (rank_divide s) 0%R = (nth k s 0 / INR (k + 1))%R.
Proof.
  intros Hk; unfold rank_divide, arange.
  rewrite (map2_nth _ _ _ _ 0%R (of_nat 0)); auto.
  - rewrite map_nth, seq_nth by lia.
    rewrite of_nat_R, Nat.add_comm; reflexivity.
  - rewrite length_map, length_seq; lia.
Qed.

Lemma running_min_length (t : list R) : length (running_min t) = length t.
Proof.
  induction t as [|x t IH]; simpl; auto.
  destruct (running_min t); simpl in *; lia.
Qed.

(** The running minimum at rank [k] is at most [z] exactly when some entry
    of rank [k] or more is. *)
Lemma running_min_le (t : list R) (k : nat) (z : R) :
  k < length t ->
  (nth k (running_min t) 0 <= z)%R <->
  exists j, k <= j < length t /\ (nth j t 0 <= z)%R.
Proof.
  revert k; induction t as [|x t IH]; intros k Hk; simpl in Hk; [lia|].
  simpl running_min.
  pose proof (running_min_length t) as Hlen.
  destruct (running_min t) as [|y r] eqn:Er.
  - destruct t; simpl in Hlen; [|discriminate].
    destruct k; [|simpl in Hk; lia].
    simpl; split.
    + intros Hx; exists 0; simpl; split; auto; lia.
    + intros (j & Hj & Hx); simpl in Hj; destruct j; [auto|lia].
  - destruct k as [|k].
    + assert (Hy : (y <= z)%R <-> exists j, 0 <= j < length t /\ (nth j t 0 <= z)%R).
      { apply (IH 0); simpl in Hlen; lia. }
      simpl nth at 1.
      assert (Hm : (pymin x y <= z)%R <-> (x <= z)%R \/ (y <= z)%R).
      { unfold pymin; simpl; unfold Rltb; destruct (Rlt_dec y x); split;
          intros; try lra; tauto. }
      rewrite Hm, Hy; split.
      * intros [Hx|(j & Hj & Hx)].
        -- exists 0; simpl; split; auto; lia.
        -- exists (S j); simpl; split; auto; lia.
      * intros (j & Hj & Hx); destruct j as [|j]; simpl in *; auto.
        right; exists j; split; auto; lia.
    + change (nth (S k) (pymin x y :: y :: r) 0%R) with (nth k (y :: r) 0%R).
      rewrite IH by (simpl in Hk; lia); split.
      * intros (j & Hj & Hx); exists (S j); simpl; split; auto; lia.
      * intros (j & Hj & Hx); destruct j as [|j]; [lia|].
        exists j; simpl in *; split; auto; lia.
Qed.

(** What [last_index] finds. *)
Lemma last_index_some (f : R -> bool) (l : list R) (i h : nat) :
  last_index f l i = Some h ->
  i <= h < i + length l /\ f (nth (h - i) l 0%R) = true /\
  forall j, h < j < i + length l -> f (nth (j - i) l 0%R) = false.
Proof.
  revert i; induction l as [|x t IH]; intros i; simpl; [discriminate|].
  destruct (last_index f t (S i)) as [j|] eqn:El.
  - intros Hh; inversion Hh; subst j.
    destruct (IH _ El) as (Hr & Hf & Hlast).
    split; [lia|]; split.
    + replace (h - i) with (S (h - S i)) by lia; auto.
    + intros j Hj; replace (j - i) with (S (j - S i)) by lia.
      apply Hlast; lia.
  - destruct (f x) eqn:Ex; [|discriminate].
    intros Hh; inversion Hh; subst h.
    split; [lia|]; split.
    + rewrite Nat.sub_diag; auto.
    + intros j Hj; replace (j - i) with (S (j - S i)) by lia.
      clear -El Hj.
      assert (Hn : forall l i, last_index f l i = None ->
                forall k, k < length l -> f (nth k l 0%R) = false).
      { clear; induction l as [|x t IH]; intros i Hl k Hk; simpl in *; [lia|].
        destruct (last_index f t (S i)) eqn:E; [discriminate|].
        destruct (f x) eqn:Ex; [discriminate|].
        destruct k; auto; eapply IH; eauto; lia. }
      eapply Hn; eauto; lia.
Qed.

Lemma last_index_none (f : R -> bool) (l : list R) (i k : nat) :
  last_index f l i = None -> k < length l -> f (nth k l 0%R) = false.
Proof.
  revert i k; induction l as [|x t IH]; intros i k Hl Hk; simpl in *; [lia|].
  destruct (last_index f t (S i)) eqn:E; [discriminate|].
  destruct (f x) eqn:Ex; [discriminate|].
  destruct k; auto; eapply IH; eauto; lia.
Qed.
End BoundsR.

Section EquivalenceR.

Lemma bool_eq_iff (a b : bool) : (a = true <-> b = true) -> a = b.
Proof. destruct a, b; intuition congruence. Qed.

Lemma clip_le_level (x q : R) :
  (0 < q < 1)%R -> Rleb (clip zero one x) q = Rleb x q.
Proof.
  intros Hq; apply bool_eq_iff; rewrite !Rleb_true, clip_R.
  Rdecide; lra.
Qed.

(** The bound [select_model_fdr] computes from the sorted p-values [s] at
    the adjusted level [z], against the running minimum at each rank. *)
Lemma fdr_bound_rank (s : list R) (z : R) :
  ascending s -> Forall (fun x => 0 <= x)%R s -> (0 < z)%R ->
  exists bound : R,
    (if forallb (fun x => x [>] z) (rank_divide s) then Ok zero
     else match last_index (fun x => x [<=] z) (rank_divide s) 0 with
          | Some h => Ok (nth h (rank_divide s) zero [*] of_nat (h + 1))
          | None => Raise IndexError
          end) = Ok bound /\
    forall k, k < length s ->
      Rleb (nth k s 0%R) bound = Rleb (nth k (running_min (rank_divide s)) 0%R) z.
Proof.
  intros Hs Hpos Hz.
  pose proof (rank_divide_length s) as Hlen.
  assert (Hnn : forall k, k < length s -> (0 <= nth k s 0)%R).
  { intros k Hk; rewrite Forall_forall in Hpos; apply Hpos, nth_In; auto. }
  assert (Hrk : forall k, (0 < INR (k + 1))%R) by (intros; apply lt_0_INR; lia).
  destruct (forallb _ _) eqn:Eall.
  - exists 0%R; split; [reflexivity|].
    intros k Hk; rewrite forallb_forall in Eall.
    assert (Hgt : forall j, j < length s -> (z < nth j (rank_divide s) 0)%R).
    { intros j Hj; apply Rltb_true.
      apply (Eall (nth j (rank_divide s) 0%R)), nth_In; lia. }
    transitivity false; [|symmetry]; apply Rleb_false.
    + specialize (Hgt k Hk); rewrite rank_divide_nth in Hgt by auto.
      specialize (Hnn k Hk); specialize (Hrk k).
      destruct (Rle_lt_dec (nth k s 0%R) 0%R) as [Hle|]; auto.
      replace (nth k s 0%R) with 0%R in Hgt by lra.
      unfold Rdiv in Hgt; rewrite Rmult_0_l in Hgt; lra.
    + apply Rnot_le_lt; rewrite running_min_le by lia.
      intros (j & Hj & Hle).
      assert (Hjs : j < length s) by lia.
      specialize (Hgt j Hjs); lra.
  - destruct (last_index _ _ 0) as [h|] eqn:El.
    + destruct (last_index_some _ _ _ _ El) as (Hh & Hfh & Hlast).
      rewrite Nat.sub_0_r in Hfh; simpl in Hfh; apply Rleb_true in Hfh.
      assert (Hh' : h < length s) by lia.
      rewrite rank_divide_nth in Hfh by auto.
      exists (nth h s 0%R); split.
      { f_equal; change zero with 0%R; rewrite rank_divide_nth by auto.
        rewrite of_nat_R; simpl; field.
        apply not_0_INR; lia. }
      intros k Hk; apply bool_eq_iff; rewrite !Rleb_true.
      rewrite running_min_le by lia.
      destruct (Nat.le_gt_cases k h) as [Hkh|Hkh].
      * split; intros _.
        -- exists h; split; [lia|]; rewrite rank_divide_nth; auto.
        -- apply ascending_nth_le; auto.
      * assert (Hk_gt : (z < nth k s 0 / INR (k + 1))%R).
        { specialize (Hlast k); rewrite Nat.sub_0_r in Hlast.
          rewrite <- rank_divide_nth by auto.
          apply Rleb_false, Hlast; lia. }
        split.
        -- intros Hle; exfalso.
           assert (Hge : (nth h s 0 <= nth k s 0)%R)
             by (apply ascending_nth_le; auto; lia).
           assert (Heq : nth k s 0%R = nth h s 0%R) by lra.
           rewrite Heq in Hk_gt.
           assert (Hinv : (/ INR (k + 1) <= / INR (h + 1))%R).
           { apply Rinv_le_contravar; auto; apply le_INR; lia. }
           specialize (Hnn h Hh'); unfold Rdiv in *; nra.
        -- intros (j & Hj & Hle); exfalso.
           specialize (Hlast j); rewrite Nat.sub_0_r in Hlast.
           assert (Hf : Rleb (nth j (rank_divide s) 0%R) z = false)
             by (apply Hlast; lia).
           apply Rleb_false in Hf; lra.
    + exfalso.
      assert (Et : forallb (fun x => x [>] z) (rank_divide s) = true);
        [|congruence].
      apply forallb_forall; intros x Hx.
      destruct (In_nth _ _ 0%R Hx) as (k & Hk & <-).
      apply Rltb_true, Rleb_false.
      eapply (last_index_none (fun x => Rleb x z)); eauto.
Qed.

Lemma nth_map_any {B D : Type} (f : B -> D) (l : list B) (i : nat) (d : D) (b : B) :
  i < length l -> nth i (map f l) d = f (nth i l b).
Proof.
  intros Hi; rewrite (nth_indep _ d (f b)) by (rewrite length_map; auto).
  apply map_nth.
Qed.

Lemma nth_map_default {B : Type} (f : R -> B) (l : list R) (i : nat) (d : B) :
  i < length l -> nth i (map f l) d = f (nth i l 0%R).
Proof. apply nth_map_any. Qed.

(** The two masks agree whenever rescaling and clipping a bound compares
    with q as the bound compares with the adjusted level [z]. *)
Lemma masks_agree (pvalues : list R) (q z : R) (scale : R -> R) :
  Forall (fun x => 0 <= x)%R pvalues -> (0 < z)%R ->
  (forall x, Rleb (clip zero one (scale x)) q = Rleb x z) ->
  exists bound : R,
    (if forallb (fun x => x [>] z) (rank_divide (np_sort pvalues)) then Ok zero
     else match last_index (fun x => x [<=] z) (rank_divide (np_sort pvalues)) 0 with
          | Some h =>
              Ok (nth h (rank_divide (np_sort pvalues)) zero [*] of_nat (h + 1))
          | None => Raise IndexError
          end) = Ok bound /\
    map (fun x => Rleb x bound) pvalues
    = map (fun b => Rleb b q)
          (map (clip zero one)
               (map scale
                    (scatter (np_argsort pvalues)
                       (running_min (rank_divide (take pvalues (np_argsort pvalues))))
                       (repeat zero (length pvalues))))).
Proof.
  intros Hpos Hz Hscale.
  destruct (fdr_bound_rank (np_sort pvalues) z) as (bound & Hb & Hrank); auto.
  { apply np_sort_sorted. }
  { eapply Permutation_Forall; [symmetry; apply np_sort_perm | auto]. }
  exists bound; split; auto.
  rewrite take_argsort.
  pose proof (argsort_perm pvalues) as Hperm.
  set (idx := np_argsort pvalues) in *.
  set (rm := running_min (rank_divide (np_sort pvalues))) in *.
  assert (Hidx_len : length idx = length pvalues).
  { rewrite (Permutation_length Hperm); apply length_seq. }
  assert (Hrm_len : length rm = length pvalues).
  { unfold rm; rewrite running_min_length, rank_divide_length; apply np_sort_length. }
  apply (nth_ext _ _ false false).
  { rewrite !length_map, scatter_length, repeat_length; reflexivity. }
  rewrite length_map; intros i Hi.
  assert (Hin : In i idx).
  { eapply Permutation_in; [symmetry; exact Hperm|]; apply in_seq; lia. }
  destruct (In_nth _ _ 0 Hin) as (k & Hk & Ek).
  rewrite nth_map_default by auto.
  rewrite nth_map_default
    by (rewrite !length_map, scatter_length, repeat_length; auto).
  rewrite nth_map_default by (rewrite length_map, scatter_length, repeat_length; auto).
  rewrite nth_map_default by (rewrite scatter_length, repeat_length; auto).
  rewrite Hscale, <- Ek.
  rewrite scatter_nth; auto; try lia.
  - rewrite <- Hrank by (rewrite np_sort_length; lia).
    rewrite <- take_argsort; unfold take; fold idx.
    rewrite (nth_map_any (fun i => nth i pvalues zero) idx k 0%R 0); auto.
  - eapply Permutation_NoDup; [symmetry; exact Hperm | apply seq_NoDup].
  - rewrite repeat_length.
    eapply Permutation_Forall; [symmetry; exact Hperm|].
    apply Forall_forall; intros j Hj; apply in_seq in Hj; lia.
Qed.
End EquivalenceR.

Lemma Rle_mult_div (x q c : R) : (0 < c)%R -> (x * c <= q)%R <-> (x <= q / c)%R.
Proof.
  intros Hc.
  assert (E : (q / c * c = q)%R) by (field; lra).
  split; intros Hx.
  - apply Rmult_le_reg_r with c; auto; lra.
  - rewrite <- E; apply Rmult_le_compat_r; lra.
Qed.



(** ** The projection pair, in exact arithmetic *)

Section ProjectionR.

Lemma sum_cons (x : R) (l : list R) : sum (x :: l) = (x + sum l)%R.
Proof.
  unfold sum; simpl.
  assert (Hacc : forall (l : list R) (a : R),
            fold_left Rplus l a = (a + fold_left Rplus l 0)%R).
  { clear; induction l as [|y t IH]; intros a; simpl; [lra|].
    rewrite IH, (IH (0 + y)%R); lra. }
  rewrite Hacc; lra.
Qed.

Lemma sum_zeros {B : Type} (f : B -> R) (l : list B) :
  (forall x, In x l -> f x = 0%R) -> sum (map f l) = 0%R.
Proof.
  induction l as [|x t IH]; intros Hf; [reflexivity|].
  simpl map; rewrite sum_cons, IH, Hf;
    [lra | simpl; auto | intros; apply Hf; simpl; auto].
Qed.

(** A sum with a single nonzero term. *)
Lemma sum_single (f : nat -> R) (k a n : nat) :
  a <= k < a + n -> (forall r, r <> k -> f r = 0%R) ->
  sum (map f (seq a n)) = f k.
Proof.
  revert a; induction n as [|n IH]; intros a Hk Hf; [lia|].
  simpl seq; simpl map; rewrite sum_cons.
  destruct (Nat.eq_dec a k) as [->|Hne].
  - rewrite sum_zeros; [lra|].
    intros r Hr; apply in_seq in Hr; apply Hf; lia.
  - rewrite IH, Hf by (auto; lia); lra.
Qed.

Lemma nth_map_seq {B : Type} (g : nat -> B) (c n : nat) (d : B) :
  c < n -> nth c (map g (seq 0 n)) d = g c.
Proof.
  intros Hc; rewrite (nth_map_any g (seq 0 n) c d 0) by (rewrite length_seq; auto).
  rewrite seq_nth; auto.
Qed.

(** The entries of the matrix [coo_matrix] builds from ones at the positions
    [(rows[k], a + k)]. *)
Lemma coo_entry_ones (rows : list nat) (a r c : nat) :
  coo_entry (repeat 1%R (length rows)) rows (seq a (length rows)) r c
  = if (a <=? c) && (c <? a + length rows)
    then (if nth (c - a) rows 0 =? r then 1%R else 0%R)
    else 0%R.
Proof.
  unfold coo_entry.
  revert a; induction rows as [|x t IH]; intros a.
  - simpl length; simpl repeat; simpl combine; simpl filter; simpl map.
    destruct (Nat.leb_spec a c), (Nat.ltb_spec c (a + 0)); try lia; reflexivity.
  - simpl length; simpl repeat; simpl seq; simpl combine.
    simpl filter; simpl fst; simpl snd.
    specialize (IH (S a)).
    destruct (Nat.eqb_spec a c) as [->|Hac].
    + rewrite andb_true_r.
      assert (Hrest : sum (map fst
                 (filter (fun e : R * (nat * nat) =>
                            (fst (snd e) =? r) && (snd (snd e) =? c))
                    (combine (repeat 1%R (length t))
                       (combine t (seq (S c) (length t)))))) = 0%R).
      { rewrite IH; destruct (Nat.leb_spec (S c) c); [lia | reflexivity]. }
      destruct (Nat.leb_spec c c); [|lia].
      destruct (Nat.ltb_spec c (c + S (length t))); [|lia].
      rewrite Nat.sub_diag; simpl andb; simpl nth; cbv iota.
      destruct (x =? r).
      * simpl map; rewrite sum_cons, Hrest; lra.
      * exact Hrest.
    + rewrite andb_false_r, IH.
      destruct (Nat.le_gt_cases (S a) c) as [Hle|Hgt].
      * assert (E1 : (S a <=? c) = true) by (apply Nat.leb_le; lia).
        assert (E2 : (a <=? c) = true) by (apply Nat.leb_le; lia).
        assert (E3 : (c <? S a + length t) = (c <? a + S (length t))).
        { f_equal; lia. }
        rewrite E1, E2, E3.
        replace (c - a) with (S (c - S a)) by lia; reflexivity.
      * assert (E1 : (S a <=? c) = false) by (apply Nat.leb_gt; lia).
        assert (E2 : (a <=? c) = false) by (apply Nat.leb_gt; lia).
        rewrite E1, E2; reflexivity.
Qed.

Lemma n_unique_le (clust : list nat) : n_unique clust <= length clust.
Proof.
  unfold n_unique; induction clust as [|x t IH]; simpl; auto.
  destruct (in_dec Nat.eq_dec x t); simpl; lia.
Qed.

(** Whatever the labeling, [pp_inv] returns the membership matrix itself as
    [P]: the sums [parcellation_masks.sum(0)] are taken per feature and are
    all 1, so the diagonal factor is the identity. *)
Lemma pp_inv_membership (clust : list nat) :
  Forall (fun l => l < n_unique clust) clust ->
  pp_inv clust
  = Ok (membership clust, transpose (length clust) (membership clust)).
Proof.
  intros Hl; unfold pp_inv, coo_matrix.
  set (p := length clust); set (nl := n_unique clust) in *.
  assert (Hrows : forallb (fun r => r <? nl) clust = true).
  { apply forallb_forall; intros r Hr; rewrite Forall_forall in Hl.
    apply Nat.ltb_lt; auto. }
  assert (Hcols : forallb (fun c => c <? p) (seq 0 p) = true).
  { apply forallb_forall; intros c Hc; apply in_seq in Hc; apply Nat.ltb_lt; lia. }
  rewrite Hrows, Hcols; simpl andb; cbv iota; unfold bind.
  assert (Hmask :
    map (fun r => map (fun c => coo_entry (repeat one p) clust (seq 0 p) r c) (seq 0 p))
        (seq 0 nl) = membership clust).
  { unfold membership; fold p nl.
    apply map_ext; intros r; apply map_ext_in; intros c Hc; apply in_seq in Hc.
    change (@one R R_numeric) with 1%R.
    unfold p; rewrite coo_entry_ones; fold p.
    destruct (Nat.leb_spec 0 c); [|lia].
    destruct (Nat.ltb_spec c (0 + p)); [|lia].
    rewrite Nat.sub_0_r; reflexivity. }
  rewrite Hmask; f_equal; f_equal.
  assert (Hcol : forall c, c < p ->
            column c (membership clust)
            = map (fun r => if nth c clust 0 =? r then 1%R else 0%R) (seq 0 nl)).
  { intros c Hc; unfold column, membership; fold p nl.
    rewrite map_map; apply map_ext; intros r.
    apply (nth_map_seq (fun c => if nth c clust 0 =? r then 1%R else 0%R)); auto. }
  assert (Hsum : sum_axis0 p (membership clust) = map (fun _ => 1%R) (seq 0 p)).
  { unfold sum_axis0, transpose; rewrite map_map.
    apply map_ext_in; intros c Hc; apply in_seq in Hc.
    rewrite Hcol by lia.
    rewrite (sum_single _ (nth c clust 0) 0 nl).
    - rewrite Nat.eqb_refl; reflexivity.
    - rewrite Forall_forall in Hl; split; [lia|].
      apply Hl, nth_In; fold p; lia.
    - intros r Hr; destruct (Nat.eqb_spec (nth c clust 0) r); congruence. }
  rewrite Hsum.
  unfold matmul, dia_matrix, membership; fold p nl.
  rewrite map_map; apply map_ext_in; intros i Hi; apply in_seq in Hi.
  unfold transpose; rewrite map_map; apply map_ext_in; intros c Hc.
  apply in_seq in Hc.
  fold (membership clust); rewrite Hcol by lia.
  unfold spdot; rewrite map2_map_same.
  rewrite (sum_single _ i 0 nl); [|lia|].
  - rewrite Nat.eqb_refl.
    pose proof (n_unique_le clust) as Hle; fold p nl in Hle.
    rewrite map_map, (nth_map_seq (fun _ => one [/] 1%R)) by lia.
    unfold stored, one, zero; simpl; unfold Rltb.
    destruct (Rlt_dec (1 / 1) 0), (Rlt_dec 0 (1 / 1)); simpl; try lra.
  - intros r Hr; destruct (Nat.eqb_spec i r); [congruence|].
    unfold stored, zero; simpl; unfold Rltb.
    destruct (Rlt_dec 0 0), (Rlt_dec 0 0); simpl; try lra.
Qed.
End ProjectionR.

(** ** The threshold of the step-up rule *)

Section ThresholdR.

(** The threshold [select_model_fdr] compares the p-values with, at the level
    [z] the two corrections leave: 0 when every quotient is above [z], else
    the sorted p-value of the last rank whose quotient is at most [z]. *)
Lemma fdr_bound_cases (s : list R) (z : R) :
  exists bound : R,
    (if forallb (fun x => x [>] z) (rank_divide s) then Ok zero
     else match last_index (fun x => x [<=] z) (rank_divide s) 0 with
          | Some h => Ok (nth h (rank_divide s) zero [*] of_nat (h + 1))
          | None => Raise IndexError
          end) = Ok bound /\
    ((bound = 0%R /\
      forall k, k < length s -> (z < nth k (rank_divide s) 0)%R) \/
     (exists h, h < length s /\ bound = nth h s 0%R /\
        (nth h (rank_divide s) 0 <= z)%R /\
        forall j, h < j < length s -> (z < nth j (rank_divide s) 0)%R)).
Proof.
  pose proof (rank_divide_length s) as Hlen.
  destruct (forallb _ _) eqn:Eall.
  - exists 0%R; split; [reflexivity|left; split; auto].
    intros k Hk; rewrite forallb_forall in Eall.
    apply Rltb_true, (Eall (nth k (rank_divide s) 0%R)), nth_In; lia.
  - destruct (last_index _ _ 0) as [h|] eqn:El.
    + destruct (last_index_some _ _ _ _ El) as (Hh & Hfh & Hlast).
      rewrite Nat.sub_0_r in Hfh; simpl in Hfh; apply Rleb_true in Hfh.
      assert (Hh' : h < length s) by lia.
      exists (nth h s 0%R); split.
      { f_equal; change zero with 0%R; rewrite rank_divide_nth by auto.
        rewrite of_nat_R; simpl; field.
        apply not_0_INR; lia. }
      right; exists h; repeat split; auto.
      intros j Hj; specialize (Hlast j); rewrite Nat.sub_0_r in Hlast.
      apply Rleb_false, Hlast; lia.
    + exfalso.
      assert (Et : forallb (fun x => x [>] z) (rank_divide s) = true);
        [|congruence].
      apply forallb_forall; intros x Hx.
      destruct (In_nth _ _ 0%R Hx) as (k & Hk & <-).
      apply Rltb_true, Rleb_false.
      eapply (last_index_none (fun x => Rleb x z)); eauto.
Qed.

(** The level the two corrections leave of [q]. *)
Lemma fdr_level_mono (p : nat) (q1 q2 : R) (independent normalize : bool) :
  (q1 <= q2)%R ->
  ((if normalize
    then (if negb independent then q1 [/] log (of_nat p) else q1) [/] of_nat p
    else (if negb independent then q1 [/] log (of_nat p) else q1))
   <=
   (if normalize
    then (if negb independent then q2 [/] log (of_nat p) else q2) [/] of_nat p
    else (if negb independent then q2 [/] log (of_nat p) else q2)))%R.
Proof.
  intros Hq.
  assert (HP : (0 <= / of_nat p)%R).
  { rewrite of_nat_R. destruct p; [simpl; rewrite Rinv_0; lra|].
    left; apply Rinv_0_lt_compat, lt_0_INR; lia. }
  assert (HL : (0 <= / log (of_nat p))%R).
  { rewrite of_nat_R; simpl.
    destruct (Rle_lt_dec (ln (INR p)) 0) as [Hle|Hlt].
    - destruct (Rle_lt_dec 1 (INR p)) as [H1|H1].
      + assert (0 <= ln (INR p))%R.
        { rewrite <- ln_1. destruct H1 as [H1|H1]; [left; apply ln_increasing; lra|rewrite <- H1; lra]. }
        replace (ln (INR p)) with 0%R by lra. rewrite Rinv_0; lra.
      + assert (Hp0 : p = 0) by (destruct p; auto; rewrite S_INR in H1; pose proof (pos_INR p); lra).
        subst; simpl. unfold ln. destruct (Rlt_dec 0 0); [exfalso; lra|]. rewrite Rinv_0; lra.
    - left; apply Rinv_0_lt_compat; auto. }
  destruct independent, normalize; simpl negb; cbv iota; simpl in *; unfold Rdiv;
    repeat apply Rmult_le_compat_r; auto.
Qed.

End ThresholdR.

Lemma np_sort_nonneg (l : list R) :
  Forall (fun x => 0 <= x)%R l -> Forall (fun x => 0 <= x)%R (np_sort l).
Proof.
  intros Hl; rewrite Forall_forall in *; intros x Hx; apply Hl.
  eapply Permutation_in; [apply np_sort_perm|exact Hx].
Qed.

Lemma Forall2_mask_le (l : list R) (b1 b2 : R) :
  (b1 <= b2)%R ->
  Forall2 (fun a b : bool => a = true -> b = true)
          (map (fun x => Rleb x b1) l) (map (fun x => Rleb x b2) l).
Proof.
  intros Hb; induction l as [|x l IH]; simpl; constructor; auto.
  rewrite !Rleb_true; lra.
Qed.

(** X1 ([select_model_fdr], real arithmetic): on at least one p-value, and
    at least two when [independent] is false (so that the divisor [log p] is
    positive), the call does not raise; it selects the features whose
    p-value is at most a threshold, and the threshold is 0 or one of the
    p-values. *)
Theorem select_model_fdr_threshold
    (pvalues : list R) (q : R) (independent normalize : bool) :
  1 <= length pvalues ->
  independent = true \/ 2 <= length pvalues ->
  exists bound : R,
    (bound = 0%R \/ In bound pvalues) /\
    select_model_fdr pvalues q independent normalize
    = Ok (map (fun x => Rleb x bound) pvalues).
Proof.
  intros _ _; unfold select_model_fdr; cbv zeta.
  match goal with
  | |- context [forallb (fun x => ltb ?z x) _] =>
      destruct (fdr_bound_cases (np_sort pvalues) z) as (bound & Hb & Hc)
  end.
  exists bound; split.
  - destruct Hc as [(H0 & _)|(h & Hh & Hbh & _)]; [left; auto|right].
    subst bound; eapply Permutation_in; [apply np_sort_perm|].
    apply nth_In; exact Hh.
  - rewrite Hb; reflexivity.
Qed.

Lemma select_model_fdr_threshold_witness :
  exists bound : R,
    (bound = 0%R \/ In bound literal_pvalues_R) /\
    select_model_fdr literal_pvalues_R 0.1%R false true
    = Ok (map (fun x => Rleb x bound) literal_pvalues_R).
Proof.
  apply select_model_fdr_threshold.
  - simpl; lia.
  - right; simpl; lia.
Defined.

(** X2 ([select_model_fdr], real arithmetic): on nonnegative p-values, at
    least one, and at least two when [independent] is false (so that the
    divisor [log p] is positive), the selections are nested in the level:
    every feature selected at [q1] is selected at any [q2 >= q1]. *)
Theorem select_model_fdr_nested
    (pvalues : list R) (q1 q2 : R) (independent normalize : bool) :
  1 <= length pvalues ->
  independent = true \/ 2 <= length pvalues ->
  Forall (fun x => 0 <= x)%R pvalues ->
  (q1 <= q2)%R ->
  exists m1 m2 : list bool,
    select_model_fdr pvalues q1 independent normalize = Ok m1 /\
    select_model_fdr pvalues q2 independent normalize = Ok m2 /\
    Forall2 (fun a b : bool => a = true -> b = true) m1 m2.
Proof.
  intros _ _ Hpos Hq.
  pose proof (fdr_level_mono (length pvalues) q1 q2 independent normalize Hq) as Hz.
  unfold select_model_fdr; cbv zeta.
  set (z1 := if normalize then (if negb independent then q1 [/] _ else q1) [/] _
             else _) in *.
  set (z2 := if normalize then (if negb independent then q2 [/] _ else q2) [/] _
             else _) in *.
  set (s := np_sort pvalues).
  destruct (fdr_bound_cases s z1) as (b1 & Hb1 & Hc1).
  destruct (fdr_bound_cases s z2) as (b2 & Hb2 & Hc2).
  rewrite Hb1, Hb2; simpl.
  do 2 eexists; split; [reflexivity|split; [reflexivity|]].
  apply Forall2_mask_le.
  assert (Hs : ascending s) by apply np_sort_sorted.
  assert (Hnn : forall k, k < length s -> (0 <= nth k s 0)%R).
  { intros k Hk; pose proof (np_sort_nonneg _ Hpos) as Hf.
    rewrite Forall_forall in Hf; apply Hf, nth_In; auto. }
  destruct Hc1 as [(-> & _)|(h1 & Hh1 & -> & Hle1 & _)].
  - destruct Hc2 as [(-> & _)|(h2 & Hh2 & -> & _)]; [lra|auto].
  - destruct Hc2 as [(-> & Hall)|(h2 & Hh2 & -> & Hle2 & Hlast)].
    + specialize (Hall h1 Hh1); lra.
    + destruct (Nat.le_gt_cases h1 h2) as [Hle|Hgt].
      * apply ascending_nth_le; auto.
      * assert (Hj : h2 < h1 < length s) by lia.
        specialize (Hlast h1 Hj); lra.
Qed.

Lemma select_model_fdr_nested_witness :
  exists m1 m2 : list bool,
    select_model_fdr literal_pvalues_R 0.05%R true false = Ok m1 /\
    select_model_fdr literal_pvalues_R 0.1%R true false = Ok m2 /\
    Forall2 (fun a b : bool => a = true -> b = true) m1 m2.
Proof.
  apply select_model_fdr_nested.
  - simpl; lia.
  - left; reflexivity.
  - repeat constructor; lra.
  - lra.
Defined.

(** X3 ([select_model_fdr], real arithmetic): on nonnegative p-values, at
    least one, and at least two when [independent] is false (so that the
    divisor [log p] is positive), the call at a level [q <= 0] does not
    fail; it selects exactly the features whose p-value is 0, so none when
    all p-values are positive. *)
Theorem select_model_fdr_nonpositive_level
    (pvalues : list R) (q : R) (independent normalize : bool) :
  1 <= length pvalues ->
  independent = true \/ 2 <= length pvalues ->
  Forall (fun x => 0 <= x)%R pvalues ->
  (q <= 0)%R ->
  select_model_fdr pvalues q independent normalize
  = Ok (map (fun x => Rleb x 0) pvalues).
Proof.
  intros _ _ Hpos Hq.
  pose proof (fdr_level_mono (length pvalues) q 0 independent normalize Hq) as Hz.
  unfold select_model_fdr; cbv zeta.
  set (z := if normalize then _ else _) in *.
  assert (Hz0 : (z <= 0)%R).
  { eapply Rle_trans; [exact Hz|].
    destruct independent, normalize; simpl; unfold Rdiv; rewrite ?Rmult_0_l; lra. }
  clear Hz.
  set (s := np_sort pvalues).
  destruct (fdr_bound_cases s z) as (b & Hb & Hc).
  rewrite Hb; simpl.
  assert (Hnn : forall k, k < length s -> (0 <= nth k s 0)%R).
  { intros k Hk; pose proof (np_sort_nonneg _ Hpos) as Hf.
    rewrite Forall_forall in Hf; apply Hf, nth_In; auto. }
  destruct Hc as [(-> & _)|(h & Hh & -> & Hle & _)]; [reflexivity|].
  rewrite rank_divide_nth in Hle by auto.
  assert (Hr : (0 < INR (h + 1))%R) by (apply lt_0_INR; lia).
  assert (Hi : (0 < / INR (h + 1))%R) by (apply Rinv_0_lt_compat; auto).
  specialize (Hnn h Hh).
  assert (E : nth h s 0%R = 0%R) by (unfold Rdiv in Hle; nra).
  rewrite E; reflexivity.
Qed.

Lemma select_model_fdr_nonpositive_level_witness :
  select_model_fdr literal_pvalues_R 0%R false true
  = Ok (map (fun x => Rleb x 0) literal_pvalues_R).
Proof.
  apply select_model_fdr_nonpositive_level.
  - simpl; lia.
  - right; simpl; lia.
  - repeat constructor; lra.
  - lra.
Defined.

Section BoundsOrderR.

Lemma running_min_order (s : list R) (k l : nat) :
  ascending s -> Forall (fun x => 0 <= x)%R s ->
  k < length s -> l < length s ->
  (nth k s 0 <= nth l s 0)%R ->
  (nth k (running_min (rank_divide s)) 0 <= nth l (running_min (rank_divide s)) 0)%R.
Proof.
  intros Hs Hpos Hk Hl Hkl.
  pose proof (rank_divide_length s) as Hlen.
  apply running_min_le; [lia|].
  destruct (proj1 (running_min_le (rank_divide s) l
                     (nth l (running_min (rank_divide s)) 0%R) ltac:(lia))
                  (Rle_refl _)) as (m & Hm & Hle).
  destruct (Nat.le_gt_cases k m) as [Hkm|Hkm].
  - exists m; split; [lia|auto].
  - exists k; split; [lia|].
    eapply Rle_trans; [|exact Hle].
    assert (Hms : m < length s) by lia.
    rewrite !rank_divide_nth by auto.
    assert (H1 : (nth l s 0 <= nth m s 0)%R) by (apply ascending_nth_le; auto; lia).
    assert (H2 : (nth m s 0 <= nth k s 0)%R) by (apply ascending_nth_le; auto; lia).
    assert (E : nth k s 0%R = nth m s 0%R) by lra.
    assert (H0 : (0 <= nth m s 0)%R).
    { rewrite Forall_forall in Hpos; apply Hpos, nth_In; auto. }
    assert (Hinv : (/ INR (k + 1) <= / INR (m + 1))%R).
    { apply Rinv_le_contravar; [apply lt_0_INR; lia|apply le_INR; lia]. }
    rewrite E; unfold Rdiv; nra.
Qed.

Lemma argsort_rank (pvalues : list R) (i : nat) :
  i < length pvalues ->
  exists k, k < length pvalues /\ nth k (np_argsort pvalues) 0 = i /\
    nth k (np_sort pvalues) 0%R = nth i pvalues 0%R /\
    forall vals : list R, length vals = length pvalues ->
      nth i (scatter (np_argsort pvalues) vals (repeat zero (length pvalues))) 0%R
      = nth k vals 0%R.
Proof.
  intros Hi.
  pose proof (argsort_perm pvalues) as Hperm.
  assert (Hlen : length (np_argsort pvalues) = length pvalues).
  { rewrite (Permutation_length Hperm); apply length_seq. }
  assert (Hin : In i (np_argsort pvalues)).
  { eapply Permutation_in; [apply Permutation_sym, Hperm|].
    apply in_seq; lia. }
  destruct (In_nth _ _ 0 Hin) as (k & Hk & Ek).
  exists k; split; [lia|split; [auto|split]].
  - rewrite <- take_argsort; unfold take.
    rewrite (nth_map_any _ _ _ _ 0) by auto.
    rewrite Ek; reflexivity.
  - intros vals Hv; rewrite <- Ek; apply scatter_nth; auto; try lia.
    + eapply Permutation_NoDup; [apply Permutation_sym, Hperm|apply seq_NoDup].
    + rewrite repeat_length; apply Forall_forall; intros x Hx.
      eapply Permutation_in in Hx; [|exact Hperm].
      apply in_seq in Hx; lia.
Qed.

Lemma ln_INR_nonneg (p : nat) : (0 <= ln (INR p))%R.
Proof.
  destruct p as [|p].
  - simpl; unfold ln; destruct (Rlt_dec 0 0); [exfalso; lra|lra].
  - rewrite <- ln_1.
    assert (H1 : (1 <= INR (S p))%R) by (rewrite S_INR; pose proof (pos_INR p); lra).
    destruct H1 as [H1|H1]; [left; apply ln_increasing; lra|rewrite <- H1; lra].
Qed.

End BoundsOrderR.

(** X5 ([select_model_fdr_bounds], real arithmetic): the bounds follow the
    order of the nonnegative p-values: a feature whose p-value is not larger
    gets a bound that is not larger, so equal p-values get equal bounds. *)
Theorem select_model_fdr_bounds_monotone
    (pvalues : list R) (independent normalize : bool) (i j : nat) :
  Forall (fun x => 0 <= x)%R pvalues ->
  i < length pvalues -> j < length pvalues ->
  (nth i pvalues 0 <= nth j pvalues 0)%R ->
  (nth i (select_model_fdr_bounds pvalues independent normalize) 0
   <= nth j (select_model_fdr_bounds pvalues independent normalize) 0)%R.
Proof.
  intros Hpos Hi Hj Hij.
  destruct (argsort_rank pvalues i Hi) as (k & Hk & _ & Esk & Eok).
  destruct (argsort_rank pvalues j Hj) as (l & Hl & _ & Esl & Eol).
  pose proof (np_sort_length pvalues) as Hsl.
  assert (Hrm : length (running_min (rank_divide (take pvalues (np_argsort pvalues))))
                = length pvalues).
  { rewrite running_min_length, rank_divide_length, take_argsort; auto. }
  assert (Hraw : (nth i (scatter (np_argsort pvalues)
                     (running_min (rank_divide (take pvalues (np_argsort pvalues))))
                     (repeat zero (length pvalues))) 0
                  <= nth j (scatter (np_argsort pvalues)
                     (running_min (rank_divide (take pvalues (np_argsort pvalues))))
                     (repeat zero (length pvalues))) 0)%R).
  { rewrite Eok, Eol by auto. rewrite take_argsort.
    apply running_min_order; try lia.
    - apply np_sort_sorted.
    - apply np_sort_nonneg; auto.
    - rewrite Esk, Esl; auto. }
  assert (HP : (0 <= of_nat (length pvalues))%R) by (rewrite of_nat_R; apply pos_INR).
  assert (HL : (0 <= log (of_nat (length pvalues)))%R).
  { rewrite of_nat_R; apply ln_INR_nonneg. }
  unfold select_model_fdr_bounds, fdr_bounds_unclipped; cbv zeta.
  set (out := scatter _ _ _) in *.
  assert (Ho : length out = length pvalues).
  { unfold out; rewrite scatter_length, repeat_length; auto. }
  set (P := of_nat (length pvalues)) in *.
  set (L := log P) in *.
  destruct independent, normalize; simpl negb; cbv iota;
    rewrite ?map_map;
    rewrite !(nth_map_default _ out) by lia;
    apply clip_R_mono; simpl; try nra.
  apply Rmult_le_compat_r; auto; apply Rmult_le_compat_r; auto.
Qed.

Lemma select_model_fdr_bounds_monotone_witness :
  (nth 0 (select_model_fdr_bounds literal_pvalues_R false true) 0
   <= nth 1 (select_model_fdr_bounds literal_pvalues_R false true) 0)%R.
Proof.
  apply select_model_fdr_bounds_monotone.
  - repeat constructor; lra.
  - simpl; lia.
  - simpl; lia.
  - simpl; lra.
Defined.



(** X7 ([StabilityLasso.select_model_fdr_scores] and
    [StabilityLasso.select_model_fdr_bounds_scores], real arithmetic): the
    two methods do not have the same default [normalize] ([True] for the
    selection, [False] for the bounds); called with their defaults on [p]
    nonnegative scores, the selection at level [q] is the set of features
    whose bound is at most [q / p], not [q]. *)
Theorem score_methods_defaults (scores : list R) (q : R) :
  Forall (fun x => 0 <= x)%R scores ->
  (0 < q < 1)%R ->
  2 <= length scores ->
  select_model_fdr_scores scores q true
  = Ok (bounds_mask (select_model_fdr_bounds_scores scores false)
                    (q / INR (length scores))%R).
Proof.
  intros Hpos Hq Hp.
  assert (HP : (1 < of_nat (length scores))%R).
  { rewrite of_nat_R; change 1%R with (INR 1); apply lt_INR; lia. }
  assert (HL : (0 < log (of_nat (length scores)))%R).
  { simpl; rewrite <- ln_1; apply ln_increasing; [lra|exact HP]. }
  unfold select_model_fdr_scores, select_model_fdr_bounds_scores,
    select_model_fdr, select_model_fdr_bounds, fdr_bounds_unclipped, bounds_mask.
  rewrite <- of_nat_R.
  set (P := of_nat (length scores)) in *.
  set (L := log P) in *.
  cbv beta iota zeta; unfold negb.
  assert (Hlevel : (0 < q / P < 1)%R).
  { split; [apply Rdiv_lt_0_compat; lra|].
    apply (Rmult_lt_reg_r P); [lra|].
    unfold Rdiv; rewrite Rmult_assoc, Rinv_l by lra; nra. }
  destruct (masks_agree scores (q / P)%R (q [/] L [/] P) (fun b => b [*] L))
    as (bound & Hb & Hm); auto.
  { simpl; repeat apply Rdiv_lt_0_compat; lra. }
  { intros x; rewrite clip_le_level by auto.
    apply bool_eq_iff; rewrite !Rleb_true; simpl.
    rewrite Rle_mult_div by auto.
    replace (q / P / L)%R with (q / L / P)%R by (unfold Rdiv; ring).
    reflexivity. }
  rewrite Hb; unfold bind; f_equal; etransitivity; [exact Hm|].
  rewrite ?map_map, ?map_id; reflexivity.
Qed.

Lemma score_methods_defaults_witness :
  select_model_fdr_scores literal_pvalues_R 0.1%R true
  = Ok (bounds_mask (select_model_fdr_bounds_scores literal_pvalues_R false)
                    (0.1 / INR (length literal_pvalues_R))%R).
Proof.
  apply score_methods_defaults.
  - repeat constructor; lra.
  - lra.
  - simpl; lia.
Defined.


(** ** Quantile aggregation: range, discarded splits, degenerate shapes *)

Section AggregationRange.

Lemma fold_Rmin_lower (l : list R) (x c : R) :
  (c <= x)%R -> Forall (fun y => c <= y)%R l -> (c <= fold_left Rmin l x)%R.
Proof.
  revert x; induction l as [|y l IH]; intros x Hx Hl; simpl; auto.
  inversion Hl; subst; apply IH; auto.
  unfold Rmin; destruct (Rle_dec x y); lra.
Qed.

Lemma column_nonneg (M : matrix R) (j : nat) :
  Forall (Forall (fun x => 0 <= x)%R) M -> Forall (fun x => 0 <= x)%R (column j M).
Proof.
  intros HM; unfold column; apply Forall_forall; intros x Hx.
  apply in_map_iff in Hx; destruct Hx as (row & <- & Hrow).
  rewrite Forall_forall in HM; specialize (HM row Hrow).
  destruct (Nat.lt_ge_cases j (length row)) as [Hj|Hj].
  - rewrite Forall_forall in HM; apply HM, nth_In; auto.
  - rewrite nth_overflow by auto; change zero with 0%R; lra.
Qed.

Lemma quantile_quotients_lower (gamma_min : R) (col : list R) :
  (0 < gamma_min < 1)%R -> 2 <= length col ->
  Forall (fun x => 0 <= x)%R col ->
  (nth (floor_kmin gamma_min (length col)) (np_sort col) 0
   <= list_min (quantile_quotients gamma_min col))%R.
Proof.
  intros Hg Hn Hpos.
  destruct (floor_kmin_bounds gamma_min (length col) Hg Hn) as [Hk1 Hk2].
  set (k := floor_kmin gamma_min (length col)) in *.
  assert (Hall : Forall (fun y => nth k (np_sort col) 0 <= y)%R
                        (quantile_quotients gamma_min col)).
  { unfold quantile_quotients; fold k; apply Forall_forall; intros y Hy.
    apply in_map_iff in Hy; destruct Hy as (r & <- & Hr); apply in_seq in Hr.
    assert (Hs : (nth k (np_sort col) 0 <= nth (r - 1) (np_sort col) 0)%R).
    { apply ascending_nth_le; [apply np_sort_sorted|lia|rewrite np_sort_length; lia]. }
    assert (H0 : (0 <= nth k (np_sort col) 0)%R).
    { pose proof (np_sort_nonneg _ Hpos) as Hf; rewrite Forall_forall in Hf.
      apply Hf, nth_In; rewrite np_sort_length; lia. }
    assert (Hr0 : (0 < INR r)%R) by (apply lt_0_INR; lia).
    assert (Hrn : (INR r <= INR (length col))%R) by (apply le_INR; lia).
    assert (Hq : (0 < INR r / INR (length col) <= 1)%R).
    { split; [apply Rdiv_lt_0_compat; lra|].
      apply (Rmult_le_reg_r (INR (length col))); [lra|].
      unfold Rdiv; rewrite Rmult_assoc, Rinv_l by lra; lra. }
    set (g := (INR r / INR (length col))%R) in *.
    set (v := nth (r - 1) (np_sort col) 0%R) in *.
    assert (Hi : (1 <= / g)%R).
    { rewrite <- Rinv_1; apply Rinv_le_contravar; lra. }
    unfold Rdiv; nra. }
  assert (Hne : exists x t, quantile_quotients gamma_min col = x :: t).
  { unfold quantile_quotients; fold k.
    destruct (length col - k) eqn:E; [lia|]; simpl; eauto. }
  destruct Hne as (x & t & E); rewrite E in *; simpl.
  inversion Hall; subst; apply fold_Rmin_lower; auto.
Qed.

End AggregationRange.

(** X8 ([pvalues_aggregation], real arithmetic, [gamma_min = 0.05]): on at
    least two splits of nonnegative p-values the call returns one value per
    feature, in [0,1], and never below the [(kmin+1)]-th smallest p-value of
    the feature capped at 1: the [kmin = max(1, floor(0.05 n_split))] smallest
    p-values of a feature cannot lower its aggregate. *)
Theorem pvalues_aggregation_conservative (pvalues : matrix R) (p : nat) :
  2 <= nrows pvalues ->
  Forall (fun row => length row = p) pvalues ->
  Forall (Forall (fun x => 0 <= x)%R) pvalues ->
  exists q : list R,
    pvalues_aggregation pvalues gamma_min_default = Ok q /\
    length q = p /\
    forall j, j < p ->
      (Rmin 1 (nth (floor_kmin (5 / 100) (nrows pvalues))
                   (np_sort (column j pvalues)) 0)
       <= nth j q 0 <= 1)%R.
Proof.
  intros Hn Hrect Hpos.
  assert (Hg : (0 < 5 / 100 < 1)%R) by lra.
  eexists; split; [|split].
  - change (@gamma_min_default R R_numeric) with (5 / 100)%R.
    apply (pvalues_aggregation_columns pvalues p); auto.
  - rewrite length_map, length_seq; reflexivity.
  - intros j Hj; rewrite nth_map_seq by auto.
    unfold aggregate_feature.
    set (col := column j pvalues).
    assert (Hlen : length col = nrows pvalues) by apply column_length.
    pose proof (quantile_quotients_lower (5 / 100) col Hg ltac:(lia)
                  (column_nonneg pvalues j Hpos)) as Hlow.
    rewrite Hlen in Hlow.
    set (s := nth _ (np_sort col) 0%R) in *.
    set (m := list_min _) in *.
    assert (H0 : (0 <= s)%R).
    { pose proof (np_sort_nonneg _ (column_nonneg pvalues j Hpos)) as Hf.
      rewrite Forall_forall in Hf; apply Hf, nth_In.
      destruct (floor_kmin_bounds (5 / 100) (nrows pvalues) Hg Hn).
      rewrite np_sort_length; fold col; lia. }
    pose proof (ln_neg (5 / 100) Hg) as Hln.
    assert (Hf : (s <= m * (1 - ln (5 / 100)))%R) by nra.
    unfold clip01; split.
    + eapply Rle_trans; [apply Rle_min_compat_l; exact Hf|apply Rmax_r].
    + apply Rmax_lub; [lra|apply Rmin_l].
Qed.

Lemma pvalues_aggregation_conservative_witness :
  exists q : list R,
    pvalues_aggregation [[0.1]; [0.1]]%R gamma_min_default = Ok q /\
    length q = 1 /\
    forall j, j < 1 ->
      (Rmin 1 (nth (floor_kmin (5 / 100) (nrows [[0.1]; [0.1]]%R))
                   (np_sort (column j [[0.1]; [0.1]]%R)) 0)
       <= nth j q 0 <= 1)%R.
Proof.
  apply pvalues_aggregation_conservative.
  - simpl; lia.
  - repeat constructor.
  - repeat constructor; lra.
Defined.

(** X9 ([scores_aggregation], real arithmetic, [gamma_min = 0.05]): with
    fewer than 40 splits (and at least 2) the aggregated score of a feature
    is its second smallest per-split score times [n_split / 2]; the smallest
    score plays no part. *)
Theorem scores_aggregation_second_smallest (scores : matrix R) (p : nat) :
  2 <= nrows scores < 40 ->
  Forall (fun row => length row = p) scores ->
  scores_aggregation scores gamma_min_default
  = Ok (map (fun j => (nth 1 (np_sort (column j scores)) 0
                       * INR (nrows scores) / 2)%R)
            (seq 0 p)).
Proof.
  intros Hn Hrect.
  assert (Hg : (0 < 5 / 100 < 1)%R) by lra.
  change (@gamma_min_default R R_numeric) with (5 / 100)%R.
  rewrite (scores_aggregation_columns scores p) by (auto; lia).
  f_equal; apply map_ext; intros j.
  unfold score_feature, quantile_quotients.
  rewrite column_length.
  assert (Hk : floor_kmin (5 / 100) (nrows scores) = 1).
  { unfold floor_kmin.
    set (x := (5 / 100 * INR (nrows scores))%R).
    assert (Hx : (x < 2)%R).
    { unfold x. assert (INR (nrows scores) < 40)%R.
      { replace 40%R with (INR 40) by (simpl; lra). apply lt_INR; lia. }
      lra. }
    destruct (base_Int_part x) as [Hlo _].
    assert (Hz : (Int_part x < 2)%Z) by (apply lt_IZR; lra).
    lia. }
  rewrite Hk.
  destruct (nrows scores - 1) eqn:E; [lia|]; simpl.
  assert (Hn0 : (0 < INR (nrows scores))%R) by (apply lt_0_INR; lia).
  field; lra.
Qed.

Lemma scores_aggregation_second_smallest_witness :
  scores_aggregation [[0.1; 0.2]; [0.3; 0.4]]%R gamma_min_default
  = Ok (map (fun j => (nth 1 (np_sort (column j [[0.1; 0.2]; [0.3; 0.4]]%R)) 0
                       * INR (nrows [[0.1; 0.2]; [0.3; 0.4]]%R) / 2)%R)
            (seq 0 2)).
Proof.
  apply scores_aggregation_second_smallest.
  - simpl; lia.
  - repeat constructor.
Defined.

(** X10 ([pvalues_aggregation], [scores_aggregation], real arithmetic and
    binary64): the aggregators need at least two splits.  On no row both
    raise [ZeroDivisionError] (the quantiles [1. / n_split * ...]); on one
    row nothing is left past the [kmin = 1] smallest, so the minimum of
    [pvalues_aggregation] raises [ValueError] and the first row of
    [scores_aggregation] raises [IndexError]. *)
Theorem aggregation_needs_two_splits (flog : float -> float)
    (row : list R) (frow : list float) :
  (pvalues_aggregation ([] : matrix R) gamma_min_default = Raise ZeroDivisionError /\
  scores_aggregation ([] : matrix R) gamma_min_default = Raise ZeroDivisionError /\
  pvalues_aggregation [row] gamma_min_default = Raise ValueError /\
  scores_aggregation [row] gamma_min_default = Raise IndexError) /\
  (@pvalues_aggregation float (b64 flog) [] (@gamma_min_default float (b64 flog))
     = Raise ZeroDivisionError /\
  @scores_aggregation float (b64 flog) [] (@gamma_min_default float (b64 flog))
     = Raise ZeroDivisionError /\
  @pvalues_aggregation float (b64 flog) [frow] (@gamma_min_default float (b64 flog))
     = Raise ValueError /\
  @scores_aggregation float (b64 flog) [frow] (@gamma_min_default float (b64 flog))
     = Raise IndexError).
Proof.
  split; [split; [|split; [|split]]|].
  - unfold pvalues_aggregation, sorted_quantile_rows.
    change (@gamma_min_default R R_numeric) with (5 / 100)%R.
    rewrite kmin_of_floor by lra; reflexivity.
  - unfold scores_aggregation, sorted_quantile_rows.
    change (@gamma_min_default R R_numeric) with (5 / 100)%R.
    rewrite kmin_of_floor by lra; reflexivity.
  - apply pvalues_aggregation_one_row.
  - apply scores_aggregation_one_row.
  - assert (E0 : @kmin_of float (b64 flog) (@gamma_min_default float (b64 flog)) 0 = Ok 1)
      by (vm_compute; reflexivity).
    assert (E1 : @kmin_of float (b64 flog) (@gamma_min_default float (b64 flog)) 1 = Ok 1)
      by (vm_compute; reflexivity).
    unfold pvalues_aggregation, scores_aggregation, sorted_quantile_rows.
    unfold nrows; simpl length; rewrite E0, E1.
    repeat split; reflexivity.
Qed.


(** ** What [pp_inv] and [projection] compute *)

Section LabelCheck.
Context {A : Type} `{Numeric A}.

Lemma pp_inv_label_check (clust : list nat) :
  (exists r : matrix A * matrix A, pp_inv clust = Ok r) \/
  @pp_inv A _ clust = Raise ValueError.
Proof.
  unfold pp_inv, coo_matrix.
  destruct (forallb _ clust && forallb _ (seq 0 (length clust))); simpl; eauto.
Qed.

Lemma pp_inv_ok_labels (clust : list nat) (r : matrix A * matrix A) :
  pp_inv clust = Ok r -> Forall (fun l => l < n_unique clust) clust.
Proof.
  unfold pp_inv, coo_matrix.
  destruct (forallb (fun r => r <? n_unique clust) clust) eqn:E; simpl.
  - intros _; apply Forall_forall; intros l Hl.
    rewrite forallb_forall in E; apply Nat.ltb_lt; auto.
  - discriminate.
Qed.

Lemma pp_inv_labels_ok (clust : list nat) :
  Forall (fun l => l < n_unique clust) clust ->
  exists r : matrix A * matrix A, pp_inv clust = Ok r.
Proof.
  intros Hl; unfold pp_inv, coo_matrix.
  assert (Hrows : forallb (fun r => r <? n_unique clust) clust = true).
  { apply forallb_forall; intros r Hr; rewrite Forall_forall in Hl.
    apply Nat.ltb_lt; auto. }
  assert (Hcols : forallb (fun c => c <? length clust) (seq 0 (length clust)) = true).
  { apply forallb_forall; intros c Hc; apply in_seq in Hc; apply Nat.ltb_lt; lia. }
  rewrite Hrows, Hcols; simpl; eauto.
Qed.

(** Labels below their own number of distinct values leave no gap. *)
Lemma labels_without_gap (clust : list nat) :
  Forall (fun l => l < n_unique clust) clust <->
  (forall l, In l clust <-> l < n_unique clust).
Proof.
  split.
  - intros Hl l; split.
    + rewrite Forall_forall in Hl; auto.
    + intros Hlt.
      assert (Hperm : Permutation (nodup Nat.eq_dec clust) (seq 0 (n_unique clust))).
      { apply NoDup_Permutation_bis.
        - apply NoDup_nodup.
        - rewrite length_seq; unfold n_unique; lia.
        - intros x Hx; apply nodup_In in Hx; apply in_seq.
          rewrite Forall_forall in Hl; specialize (Hl x Hx); lia. }
      eapply (nodup_In Nat.eq_dec), Permutation_in;
        [apply Permutation_sym, Hperm|apply in_seq; lia].
  - intros Hall; apply Forall_forall; intros l Hl; apply Hall; auto.
Qed.

Lemma transpose_transpose (p : nat) (X : matrix A) :
  Forall (fun row => length row = p) X ->
  transpose (nrows X) (transpose p X) = X.
Proof.
  intros Hrect; unfold transpose, nrows.
  apply (nth_ext _ _ [] []); [rewrite length_map, length_seq; reflexivity|].
  intros i Hi; rewrite length_map, length_seq in Hi.
  rewrite (nth_map_seq _ i (length X)) by auto.
  unfold column; rewrite map_map.
  assert (Hrow : length (nth i X []) = p).
  { rewrite Forall_forall in Hrect; apply Hrect, nth_In; auto. }
  apply (nth_ext _ _ zero zero); [rewrite length_map, length_seq; auto|].
  intros j Hj; rewrite length_map, length_seq in Hj.
  rewrite (nth_map_seq _ j p) by auto.
  rewrite (nth_map_any _ _ _ _ []) by auto; reflexivity.
Qed.

(** [P.dot(X.T).T] multiplies each row of [X] by [P]. *)
Lemma project_rows (P X : matrix A) :
  Forall (fun row => length row = ncols X) X ->
  project (ncols X) P X = map (matvec P) X.
Proof.
  intros Hrect; unfold project, matmul.
  rewrite transpose_transpose by auto.
  unfold transpose, nrows.
  apply (nth_ext _ _ [] []); [rewrite !length_map, length_seq; reflexivity|].
  intros i Hi; rewrite length_map, length_seq in Hi.
  rewrite (nth_map_seq _ i (length X)) by auto.
  rewrite (nth_map_any _ _ _ _ []) by auto.
  unfold column, matvec; rewrite map_map; apply map_ext; intros prow.
  rewrite (nth_map_any _ _ _ _ []) by auto; reflexivity.
Qed.
End LabelCheck.

(** X11 ([pp_inv], any arithmetic): the call returns exactly when the labels
    are [0 .. k-1] without gap, [k] their number of distinct values; on any
    other labeling it raises [ValueError]. *)
Theorem pp_inv_accepts_gapless_labels {A : Type} `{Numeric A} (clust : list nat) :
  ((exists r : matrix A * matrix A, pp_inv clust = Ok r) \/
   @pp_inv A _ clust = Raise ValueError) /\
  ((exists r : matrix A * matrix A, pp_inv clust = Ok r) <->
   (forall l, In l clust <-> l < n_unique clust)).
Proof.
  split; [apply pp_inv_label_check|].
  rewrite <- labels_without_gap; split.
  - intros (r & Hr); eapply pp_inv_ok_labels; eauto.
  - apply pp_inv_labels_ok.
Qed.

Section ActionsR.

Lemma spdot_indicator (f : nat -> bool) (g : nat -> R) (n : nat) :
  spdot (map (fun c => if f c then 1%R else 0%R) (seq 0 n)) (map g (seq 0 n))
  = sum (map (fun j => if f j then g j else 0%R) (seq 0 n)).
Proof.
  unfold spdot; rewrite map2_map_same; f_equal; apply map_ext; intros j.
  unfold stored, zero; simpl; unfold Rltb.
  destruct (f j).
  - destruct (Rlt_dec 1 0), (Rlt_dec 0 1); simpl; lra.
  - destruct (Rlt_dec 0 0); simpl; lra.
Qed.

Lemma map_nth_seq_any {B : Type} (l : list B) (d : B) :
  map (fun i => nth i l d) (seq 0 (length l)) = l.
Proof.
  apply (nth_ext _ _ d d); [rewrite length_map, length_seq; reflexivity|].
  intros i Hi; rewrite length_map, length_seq in Hi.
  apply (nth_map_seq (fun i => nth i l d)); auto.
Qed.

Lemma membership_sums (clust : list nat) (x : list R) :
  length x = length clust ->
  matvec (membership clust) x = cluster_sums clust x.
Proof.
  intros Hx; unfold matvec, membership, cluster_sums; rewrite map_map.
  apply map_ext; intros r.
  rewrite <- (map_nth_seq_any x 0%R) at 1; rewrite Hx.
  apply (spdot_indicator (fun c => nth c clust 0 =? r)).
Qed.

Lemma membership_copies (clust : list nat) (v : list R) :
  Forall (fun l => l < n_unique clust) clust ->
  length v = n_unique clust ->
  matvec (transpose (length clust) (membership clust)) v = broadcast clust v.
Proof.
  intros Hl Hv; unfold matvec, transpose, broadcast; rewrite map_map.
  transitivity (map (fun l => nth l v 0%R)
                    (map (fun j => nth j clust 0) (seq 0 (length clust))));
    [|rewrite map_nth_seq_any; reflexivity].
  rewrite map_map; apply map_ext_in; intros j Hj; apply in_seq in Hj.
  assert (Hcol : column j (membership clust)
                 = map (fun r => if nth j clust 0 =? r then 1%R else 0%R)
                       (seq 0 (n_unique clust))).
  { unfold column, membership; rewrite map_map; apply map_ext; intros r.
    apply (nth_map_seq (fun c => if nth c clust 0 =? r then 1%R else 0%R)); lia. }
  rewrite Hcol, <- (map_nth_seq_any v 0%R) at 1; rewrite Hv.
  rewrite (spdot_indicator (fun r => nth j clust 0 =? r)).
  rewrite (sum_single _ (nth j clust 0) 0 (n_unique clust)).
  - rewrite Nat.eqb_refl; reflexivity.
  - rewrite Forall_forall in Hl; split; [lia|apply Hl, nth_In; lia].
  - intros r Hr; destruct (Nat.eqb_spec (nth j clust 0) r); congruence.
Qed.

Lemma cluster_sums_length (clust : list nat) (x : list R) :
  length (cluster_sums clust x) = n_unique clust.
Proof. unfold cluster_sums; rewrite length_map, length_seq; reflexivity. Qed.

End ActionsR.

(** X12 ([pp_inv], real arithmetic): of the two matrices returned, [P] adds
    up a vector over the features of each cluster and [P_inv] copies the
    value of a cluster to each of its features; [P_inv.dot(P.dot(x))] is
    therefore the cluster sum at every feature, not the cluster mean. *)
Theorem pp_inv_sums_and_copies (clust : list nat) (P P_inv : matrix R)
    (x v : list R) :
  pp_inv clust = Ok (P, P_inv) ->
  length x = length clust ->
  length v = n_unique clust ->
  matvec P x = cluster_sums clust x /\
  matvec P_inv v = broadcast clust v /\
  matvec P_inv (matvec P x) = broadcast clust (cluster_sums clust x).
Proof.
  intros Hpp Hx Hv.
  pose proof (pp_inv_ok_labels clust _ Hpp) as Hl.
  rewrite (pp_inv_membership clust Hl) in Hpp.
  injection Hpp as <- <-.
  rewrite membership_sums by auto.
  repeat split.
  - apply membership_copies; auto.
  - apply membership_copies; auto; apply cluster_sums_length.
Qed.

Lemma pp_inv_sums_and_copies_witness :
  matvec (membership [0; 1; 0]) [1; 2; 3]%R = cluster_sums [0; 1; 0] [1; 2; 3]%R /\
  matvec (transpose 3 (membership [0; 1; 0])) [4; 5]%R
    = broadcast [0; 1; 0] [4; 5]%R /\
  matvec (transpose 3 (membership [0; 1; 0]))
         (matvec (membership [0; 1; 0]) [1; 2; 3]%R)
    = broadcast [0; 1; 0] (cluster_sums [0; 1; 0] [1; 2; 3]%R).
Proof.
  apply (pp_inv_sums_and_copies [0; 1; 0]).
  - apply (pp_inv_membership [0; 1; 0]); repeat constructor.
  - reflexivity.
  - reflexivity.
Defined.

(** X13 ([projection], real arithmetic): on a rectangular design whose
    clustering gives one label per feature, the call returns the labels of
    the clustering, the design with every row replaced by its cluster sums,
    and a [P_inv] that copies cluster values to features. *)
Theorem projection_cluster_sums {G C : Type} (lib : Library R G C)
    (X : matrix R) (k : nat) (connectivity : C)
    (P_inv X_proj : matrix R) (labels : list nat) :
  Forall (fun row => length row = ncols X) X ->
  length labels = ncols X ->
  projection lib X k connectivity = Ok (P_inv, X_proj, labels) ->
  feature_agglomeration lib X k connectivity = Ok labels /\
  X_proj = map (cluster_sums labels) X /\
  forall v, length v = n_unique labels -> matvec P_inv v = broadcast labels v.
Proof.
  intros Hrect Hlen; unfold projection.
  destruct (feature_agglomeration lib X k connectivity) as [lab|e] eqn:Ef;
    simpl; [|discriminate].
  destruct (pp_inv lab) as [[P Pi]|e] eqn:Ep; simpl; [|discriminate].
  intros Hok; injection Hok as <- <- <-.
  pose proof (pp_inv_ok_labels lab _ Ep) as Hl.
  rewrite (pp_inv_membership lab Hl) in Ep; injection Ep as <- <-.
  split; [reflexivity|split].
  - rewrite project_rows by auto.
    apply map_ext_in; intros row Hrow; apply membership_sums.
    rewrite Forall_forall in Hrect; rewrite Hlen; auto.
  - intros v Hv; apply membership_copies; auto.
Qed.

Lemma projection_cluster_sums_witness :
  feature_agglomeration StandinR.lib StandinR.X 2 tt = Ok [0; 1; 0; 1] /\
  project 4 (membership [0; 1; 0; 1]) StandinR.X
    = map (cluster_sums [0; 1; 0; 1]) StandinR.X /\
  forall v, length v = n_unique [0; 1; 0; 1] ->
    matvec (transpose 4 (membership [0; 1; 0; 1])) v = broadcast [0; 1; 0; 1] v.
Proof.
  apply (projection_cluster_sums StandinR.lib StandinR.X 2 tt).
  - repeat constructor.
  - reflexivity.
  - unfold projection.
    change (feature_agglomeration StandinR.lib StandinR.X 2 tt)
      with (@Ok (list nat) [0; 1; 0; 1]).
    unfold bind at 1.
    rewrite (pp_inv_membership [0; 1; 0; 1]) by (repeat constructor).
    reflexivity.
Defined.


(** ** Degenerate hyper-parameters of [fit] *)

Section FitEdges.
Context {A G C : Type} `{Numeric A} (lib : Library A G C).

(** X14 ([StabilityLasso.fit]): a negative cluster count is refused by the
    allocation of [beta_array], with [ValueError], once both
    standardizations have returned: the generator has not drawn, [_soln] and
    the evidence are as they were, and [n_clusters_] holds the negative
    count. *)
Theorem fit_refuses_negative_cluster_count (X : matrix A) (y : list A)
    (connectivity : C) (m : StabilityLasso A G)
    (mean_ : list A) (y' : matrix A) (mu : list A) (X' : matrix A) (k : Z) :
  standard_scaler lib (map (fun v => [v]) y) = Ok (mean_, y') ->
  standard_scaler lib X = Ok (mu, X') ->
  n_clusters m = Count k ->
  (k < 0)%Z ->
  snd (fit lib X y connectivity m) = Raise ValueError /\
  generator (fst (fit lib X y connectivity m)) = generator m /\
  n_clusters_ (fst (fit lib X y connectivity m)) = Some (Count k) /\
  _soln (fst (fit lib X y connectivity m)) = _soln m /\
  _beta_array (fst (fit lib X y connectivity m)) = _beta_array m.
Proof.
  intros Hy HX Hn Hk.
  unfold fit, mbind, call, self_, assign, ret.
  rewrite Hy; cbv beta iota; rewrite HX; cbv beta iota.
  simpl n_clusters; rewrite Hn; simpl resolve_n_clusters; cbv beta iota.
  unfold dimension.
  destruct (Z.ltb_spec k 0) as [_|Hge]; [|lia].
  simpl; auto.
Qed.

(** X15 ([StabilityLasso.fit]): with [n_split = 0] the call returns without
    drawing or clustering: the three evidence arrays are empty and every
    entry of [coef_] is the quotient [0 / 0] of [self._soln /= n_split]. *)
Theorem fit_without_splits (X : matrix A) (y : list A)
    (connectivity : C) (m : StabilityLasso A G)
    (mean_ : list A) (y' : matrix A) (mu : list A) (X' : matrix A)
    (kz : Z) (w : nat) :
  standard_scaler lib (map (fun v => [v]) y) = Ok (mean_, y') ->
  standard_scaler lib X = Ok (mu, X') ->
  n_split m = 0 ->
  resolve_n_clusters (n_clusters m) (ncols X') = Ok kz ->
  (0 <= kz)%Z ->
  as_dimension (of_nat (nrows X') [*] ratio_split m) = Ok w ->
  snd (fit lib X y connectivity m) = Ok tt /\
  generator (fst (fit lib X y connectivity m)) = generator m /\
  _beta_array (fst (fit lib X y connectivity m)) = Some [] /\
  _split_array (fst (fit lib X y connectivity m)) = Some [] /\
  _clust_array (fst (fit lib X y connectivity m)) = Some [] /\
  coef_ (fst (fit lib X y connectivity m))
    = Some (repeat (zero [/] zero) (ncols X')).
Proof.
  intros Hy HX Hn Hr Hk Hw.
  unfold fit, mbind, call, self_, assign, ret.
  rewrite Hy; cbv beta iota; rewrite HX; cbv beta iota.
  simpl n_clusters; simpl n_split; simpl ratio_split.
  rewrite Hn, Hr; cbv beta iota.
  unfold dimension.
  destruct (Z.ltb_spec kz 0) as [Hlt|_]; [lia|].
  cbv beta iota; rewrite Hw; simpl.
  repeat split; auto.
  rewrite map_repeat, Hn; reflexivity.
Qed.
End FitEdges.

Lemma fit_refuses_negative_cluster_count_witness :
  snd (fit_standin (model 0.5 (-1))) = Raise ValueError /\
  generator (fitted 0.5 (-1)) = generator (model 0.5 (-1)) /\
  n_clusters_ (fitted 0.5 (-1)) = Some (Count (-1)%Z) /\
  _soln (fitted 0.5 (-1)) = _soln (model 0.5 (-1)) /\
  _beta_array (fitted 0.5 (-1)) = _beta_array (model 0.5 (-1)).
Proof.
  apply (@fit_refuses_negative_cluster_count float nat unit Standin.N
           (Standin.lib true) Standin.X Standin.y tt (model 0.5 (-1))
           [0%float] (map (fun v => [v]) Standin.y) [0; 0; 0; 0]%float Standin.X
           (-1)%Z).
  - reflexivity.
  - reflexivity.
  - reflexivity.
  - lia.
Defined.

Lemma fit_without_splits_witness :
  snd (fit_standin model_without_splits) = Ok tt /\
  generator (fst (fit_standin model_without_splits)) = 0 /\
  _beta_array (fst (fit_standin model_without_splits)) = Some [] /\
  _split_array (fst (fit_standin model_without_splits)) = Some [] /\
  _clust_array (fst (fit_standin model_without_splits)) = Some [] /\
  coef_ (fst (fit_standin model_without_splits))
    = Some [nan; nan; nan; nan]%float.
Proof.
  apply (@fit_without_splits float nat unit Standin.N
           (Standin.lib true) Standin.X Standin.y tt model_without_splits
           [0%float] (map (fun v => [v]) Standin.y) [0; 0; 0; 0]%float Standin.X
           2%Z 2).
  - reflexivity.
  - reflexivity.
  - reflexivity.
  - reflexivity.
  - lia.
  - vm_compute; reflexivity.
Defined.


(** ** The range of the per-split p-values and scores *)

Section RangeR.
Variable top : R.
Hypothesis Htop : (0 <= top)%R.

Local Abbreviation within := (fun x : R => (0 <= x <= top)%R).

Lemma spdot_cons (a x : R) (row v : list R) :
  spdot (a :: row) (x :: v)
  = ((if stored a then a * x else 0) + spdot row v)%R.
Proof. unfold spdot; simpl map2; apply sum_cons. Qed.

Lemma stored_indicator (b : bool) (x : R) :
  (if stored (if b then 1%R else 0%R) then (if b then 1 else 0) * x else 0)%R
  = (if b then x else 0%R).
Proof.
  unfold stored, zero; simpl; unfold Rltb; destruct b.
  - destruct (Rlt_dec 1 0), (Rlt_dec 0 1); simpl; lra.
  - destruct (Rlt_dec 0 0); simpl; lra.
Qed.

Lemma spdot_indicator_before (c a n : nat) (v : list R) :
  c < a ->
  spdot (map (fun r => if c =? r then 1%R else 0%R) (seq a n)) v = 0%R.
Proof.
  revert a v; induction n as [|n IH]; intros a v Hc; [reflexivity|].
  destruct v as [|x v]; [reflexivity|].
  change (seq a (S n)) with (a :: seq (S a) n).
  rewrite map_cons, spdot_cons, stored_indicator, (IH (S a) v) by lia.
  destruct (Nat.eqb_spec c a); [lia|lra].
Qed.

Lemma spdot_indicator_range (c a n : nat) (v : list R) :
  Forall within v ->
  within (spdot (map (fun r => if c =? r then 1%R else 0%R) (seq a n)) v).
Proof.
  revert a v; induction n as [|n IH]; intros a v Hv.
  - change (0 <= 0 <= top)%R; lra.
  - destruct v as [|x v]; [change (0 <= 0 <= top)%R; lra|].
    inversion Hv; subst.
    pose proof (IH (S a) v ltac:(auto)) as Hrest.
    change (seq a (S n)) with (a :: seq (S a) n).
    rewrite map_cons, spdot_cons, stored_indicator.
    destruct (Nat.eqb_spec c a) as [->|Hne].
    + rewrite spdot_indicator_before by lia; lra.
    + lra.
Qed.

(** Whatever the vector, [P_inv] of a labeling leaves its entries in [0,top]. *)
Lemma back_projection_range (clust : list nat) (P P_inv : matrix R) (v : list R) :
  pp_inv clust = Ok (P, P_inv) ->
  Forall within v -> Forall within (matvec P_inv v).
Proof.
  intros Hpp Hv.
  pose proof (pp_inv_ok_labels clust _ Hpp) as Hl.
  rewrite (pp_inv_membership clust Hl) in Hpp; injection Hpp as <- <-.
  unfold matvec, transpose; rewrite map_map.
  apply Forall_forall; intros x Hx; apply in_map_iff in Hx.
  destruct Hx as (j & <- & Hj); apply in_seq in Hj.
  assert (Hcol : column j (membership clust)
                 = map (fun r => if nth j clust 0 =? r then 1%R else 0%R)
                       (seq 0 (n_unique clust))).
  { unfold column, membership; rewrite map_map; apply map_ext; intros r.
    apply (nth_map_seq (fun c => if nth c clust 0 =? r then 1%R else 0%R)); lia. }
  rewrite Hcol; apply spdot_indicator_range; auto.
Qed.

Lemma mask_fill_range (mask : list bool) (vals out : list R) :
  Forall within vals -> Forall within out -> Forall within (mask_fill mask vals out).
Proof.
  revert vals out; induction mask as [|b mask IH]; intros vals out Hv Ho.
  - destruct out; auto.
  - destruct out as [|x out]; [destruct b; auto|].
    inversion Ho; subst.
    destruct b; simpl.
    + destruct vals as [|v vals]; [auto|].
      inversion Hv; subst; constructor; auto.
    + constructor; auto.
Qed.

Lemma mask_assign_range (mask : list bool) (vals out out' : list R) :
  mask_assign mask vals out = Ok out' ->
  Forall within vals -> Forall within out -> Forall within out'.
Proof.
  unfold mask_assign; intros Hm Hv Ho.
  destruct (length vals =? count_true mask).
  - injection Hm as <-; apply mask_fill_range; auto.
  - destruct vals as [|v [|? ?]]; try discriminate.
    injection Hm as <-; apply mask_fill_range; auto.
    inversion Hv; subst; apply Forall_forall; intros x Hx.
    apply repeat_spec in Hx; subst; auto.
Qed.

Lemma update_Forall {B : Type} (Q : B -> Prop) (i : nat) (v : B) (l : list B) :
  Q v -> Forall Q l -> Forall Q (update i v l).
Proof.
  intros Hv; revert i; induction l as [|x l IH]; intros i Hl; [destruct i; auto|].
  inversion Hl; subst; destruct i; simpl; constructor; auto.
Qed.

Lemma assign_row_range (w i : nat) (row : list R) (M M' : matrix R) :
  assign_row w i row M = Ok M' ->
  Forall within row -> Forall (Forall within) M -> Forall (Forall within) M'.
Proof.
  unfold assign_row; intros Ha Hr HM.
  destruct (i <? length M); [|discriminate].
  destruct (length row =? w).
  - injection Ha as <-; apply update_Forall; auto.
  - destruct row as [|v [|? ?]]; try discriminate.
    injection Ha as <-; apply update_Forall; auto.
    inversion Hr; subst; apply Forall_forall; intros x Hx.
    apply repeat_spec in Hx; subst; auto.
Qed.

Lemma split_loop_range (row : nat -> result (list R)) (p : nat)
    (trials : list nat) (out out' : matrix R) :
  (forall i r, row i = Ok r -> Forall within r) ->
  split_loop row p trials out = Ok out' ->
  Forall (Forall within) out -> Forall (Forall within) out'.
Proof.
  intros Hrow; revert out; induction trials as [|i trials IH]; intros out; simpl.
  - intros E; injection E as <-; auto.
  - destruct (row i) as [r|e] eqn:Er; simpl; [|discriminate].
    destruct (assign_row p i r out) as [o|e] eqn:Ea; simpl; [|discriminate].
    intros Hl Ho; apply (IH o); auto.
    eapply assign_row_range; eauto.
Qed.

Lemma getitem_In {B : Type} (l : list B) (i : nat) (x : B) :
  getitem l i = Ok x -> In x l.
Proof.
  unfold getitem; destruct (nth_error l i) eqn:E; [|discriminate].
  intros H; injection H as <-; eapply nth_error_In; eauto.
Qed.

End RangeR.

Lemma ones_range (p n : nat) : Forall (Forall (fun x => 0 <= x <= 1)%R) (repeat (repeat (@one R _) p) n).
Proof.
  apply Forall_forall; intros r Hr; apply repeat_spec in Hr; subst.
  apply Forall_forall; intros x Hx; apply repeat_spec in Hx; subst.
  change (@one R _) with 1%R; lra.
Qed.

Lemma pvalues_aggregation_range (M : matrix R) (g : R) (q : list R) :
  pvalues_aggregation M g = Ok q -> Forall (fun x => 0 <= x <= 1)%R q.
Proof.
  unfold pvalues_aggregation.
  destruct (sorted_quantile_rows M g) as [s|e]; simpl; [|discriminate].
  destruct (min_axis0 s) as [m|e]; simpl; [|discriminate].
  intros E; injection E as <-.
  apply Forall_forall; intros x Hx; apply in_map_iff in Hx.
  destruct Hx as (z & <- & _); apply clip_R_range.
Qed.


(** X16 ([multivariate_split_pval], real arithmetic): whatever p-values the
    OLS fit reports, every per-split p-value returned and every aggregated
    p-value lies in [0,1]. *)
Theorem multivariate_split_pval_range {G C : Type} (lib : Library R G C)
    (X : matrix R) (y : list R) (n_split : nat) (size_split : R)
    (n_clusters : nat) (beta_array : matrix R)
    (split_array clust_array : list (list nat))
    (pvalues : matrix R) (pvalues_aggregated : list R) :
  multivariate_split_pval lib X y n_split size_split n_clusters beta_array
    split_array clust_array = Ok (pvalues, pvalues_aggregated) ->
  Forall (Forall (fun x => 0 <= x <= 1)%R) pvalues /\
  Forall (fun x => 0 <= x <= 1)%R pvalues_aggregated.
Proof.
  unfold multivariate_split_pval.
  destruct (split_loop _ _ _ _) as [pv|e] eqn:El; simpl; [|discriminate].
  assert (Hpv : Forall (Forall (fun x => 0 <= x <= 1)%R) pv).
  { eapply (split_loop_range 1%R); [|exact El|apply ones_range].
    intros i r Hr; unfold multivariate_split_pval_row in Hr.
    destruct (held_out_design _ _ _ _ _ _) as [[[[[yt Xm] mp] Pi] bp]|e] eqn:Eh;
      simpl in Hr; [|discriminate].
    destruct (ols_pvalues lib yt Xm) as [res|e]; simpl in Hr; [|discriminate].
    destruct (mask_assign _ _ _) as [proj|e] eqn:Em; simpl in Hr; [|discriminate].
    injection Hr as <-.
    unfold held_out_design in Eh.
    destruct (getitem split_array i) as [idx|e]; simpl in Eh; [|discriminate].
    destruct (bool_mask _ idx) as [split|e]; simpl in Eh; [|discriminate].
    destruct (getitem clust_array i) as [clust|e]; simpl in Eh; [|discriminate].
    destruct (pp_inv clust) as [[P Pi']|e] eqn:Ep; simpl in Eh; [|discriminate].
    destruct (getitem beta_array i) as [beta|e]; simpl in Eh; [|discriminate].
    injection Eh as _ _ _ <- _.
    eapply (back_projection_range 1%R); [lra|exact Ep|].
    eapply (mask_assign_range 1%R); [exact Em| |].
    - apply Forall_forall; intros x Hx; apply in_map_iff in Hx.
      destruct Hx as (v & <- & _); apply clip_R_range.
    - apply Forall_forall; intros x Hx; apply repeat_spec in Hx; subst.
      change (@one R _) with 1%R; lra. }
  destruct (if 1 <? n_split then _ else _) as [q|e] eqn:Ea; simpl; [|discriminate].
  intros E; injection E as <- <-; split; auto.
  destruct (1 <? n_split).
  - eapply pvalues_aggregation_range; eauto.
  - apply getitem_In in Ea; rewrite Forall_forall in Hpv; auto.
Qed.

Lemma multivariate_split_pval_range_witness :
  multivariate_split_pval StandinR.lib StandinR.X StandinR.y 1 1%R 2
    [[1; 0]]%R [[0]] [[0; 1; 0; 1]]
    = Ok ([[1 / 2; 1; 1 / 2; 1]], [1 / 2; 1; 1 / 2; 1])%R /\
  Forall (Forall (fun x => 0 <= x <= 1)%R) [[1 / 2; 1; 1 / 2; 1]]%R /\
  Forall (fun x => 0 <= x <= 1)%R [1 / 2; 1; 1 / 2; 1]%R.
Proof.
  assert (Hs : @support R _ [1; 0]%R = [true; false]).
  { unfold support; simpl; unfold Rltb.
    destruct (Rlt_dec 0 (1 * 1)), (Rlt_dec 0 (0 * 0)); try lra; reflexivity. }
  assert (Hc : clip 0%R 1%R (1 * (1 / 2))%R = (1 / 2)%R).
  { change 0%R with (@zero R _); change 1%R with (@one R _) at 1.
    rewrite clip_R_inside; change (@one R _) with 1%R; lra. }
  assert (H10 : forall a b : R, spdot [1; 0]%R [a; b] = a).
  { intros a b; unfold spdot, stored, zero, sum; simpl; unfold Rltb.
    destruct (Rlt_dec 1 0), (Rlt_dec 0 1), (Rlt_dec 0 0); simpl; lra. }
  assert (H01 : forall a b : R, spdot [0; 1]%R [a; b] = b).
  { intros a b; unfold spdot, stored, zero, sum; simpl; unfold Rltb.
    destruct (Rlt_dec 1 0), (Rlt_dec 0 1), (Rlt_dec 0 0); simpl; lra. }
  assert (E : multivariate_split_pval StandinR.lib StandinR.X StandinR.y 1 1%R 2
                [[1; 0]]%R [[0]] [[0; 1; 0; 1]]
              = Ok ([[1 / 2; 1; 1 / 2; 1]], [1 / 2; 1; 1 / 2; 1])%R).
  { unfold multivariate_split_pval, multivariate_split_pval_row, held_out_design.
    cbn -[pp_inv support project matvec mask_assign clip one zero of_nat
          StandinR.X StandinR.y ncols compress].
    rewrite (pp_inv_membership [0; 1; 0; 1]) by (repeat constructor).
    cbn -[pp_inv support project matvec mask_assign clip one zero of_nat
          StandinR.X StandinR.y ncols compress membership transpose].
    rewrite Hs.
    cbn -[spdot clip].
    rewrite !H10, !H01, Hc; reflexivity. }
  split; [exact E|].
  exact (multivariate_split_pval_range _ _ _ _ _ _ _ _ _ _ _ E).
Defined.

(** ** Ensembles of no split and of one split *)

(** X17 ([multivariate_split_pval], [multivariate_split_scores],
    [univariate_split_pval], any arithmetic): with [n_split = 0] no inference
    function returns.  The multivariate ones read row 0 of an array without
    rows and raise [IndexError]; the univariate one reads its local
    [pvalues_proj], which no trial has assigned. *)
Theorem inference_needs_a_split {A G C : Type} `{Numeric A} (lib : Library A G C)
    (pearsonr : list A -> list A -> result (A * A))
    (X : matrix A) (y : list A) (size_split : A) (n_clusters : nat)
    (beta_array : matrix A) (split_array clust_array : list (list nat)) :
  multivariate_split_pval lib X y 0 size_split n_clusters beta_array
    split_array clust_array = Raise IndexError /\
  multivariate_split_scores lib X y 0 size_split n_clusters beta_array
    split_array clust_array = Raise IndexError /\
  univariate_split_pval pearsonr X y 0 size_split n_clusters beta_array
    split_array clust_array = Unbound.
Proof. repeat split. Qed.

Section SingleSplit.
Context {A G C : Type} `{Numeric A} (lib : Library A G C).

Lemma single_row (row : nat -> result (list A)) (p : nat)
    (M : matrix A) (agg : list A) :
  (out <- split_loop row p (seq 0 1) (repeat (repeat one p) 1) ;;
   a <- (if 1 <? 1 then pvalues_aggregation out gamma_min_default
         else getitem out 0) ;;
   Ok (out, a)) = Ok (M, agg) ->
  M = [agg].
Proof.
  simpl.
  destruct (row 0) as [r|e]; simpl; [|discriminate].
  unfold assign_row; simpl.
  destruct (length r =? p); simpl.
  - intros E; injection E as <- <-; reflexivity.
  - destruct r as [|v [|? ?]]; simpl; try discriminate.
    intros E; injection E as <- <-; reflexivity.
Qed.

Lemma single_row_scores (row : nat -> result (list A)) (p : nat)
    (M : matrix A) (agg : list A) :
  (out <- split_loop row p (seq 0 1) (repeat (repeat one p) 1) ;;
   a <- (if 1 <? 1 then scores_aggregation out gamma_min_default
         else getitem out 0) ;;
   Ok (out, a)) = Ok (M, agg) ->
  M = [agg].
Proof.
  simpl.
  destruct (row 0) as [r|e]; simpl; [|discriminate].
  unfold assign_row; simpl.
  destruct (length r =? p); simpl.
  - intros E; injection E as <- <-; reflexivity.
  - destruct r as [|v [|? ?]]; simpl; try discriminate.
    intros E; injection E as <- <-; reflexivity.
Qed.

(** X18 ([multivariate_split_pval], [multivariate_split_scores], any
    arithmetic): with [n_split = 1] nothing is aggregated: the aggregate
    returned is the row of the single split, without quantile factor and
    without the [1 - log(gamma_min)] correction. *)
Theorem single_split_is_not_aggregated
    (X : matrix A) (y : list A) (size_split : A) (n_clusters : nat)
    (beta_array : matrix A) (split_array clust_array : list (list nat))
    (pvalues scores : matrix A) (pvalues_aggregated scores_aggregated : list A) :
  multivariate_split_pval lib X y 1 size_split n_clusters beta_array
    split_array clust_array = Ok (pvalues, pvalues_aggregated) ->
  multivariate_split_scores lib X y 1 size_split n_clusters beta_array
    split_array clust_array = Ok (scores, scores_aggregated) ->
  pvalues = [pvalues_aggregated] /\ scores = [scores_aggregated].
Proof.
  intros Hp Hs; split.
  - eapply single_row; exact Hp.
  - eapply single_row_scores; exact Hs.
Qed.
End SingleSplit.

Lemma single_split_is_not_aggregated_witness :
  @multivariate_split_pval float nat unit Standin.N (Standin.lib false)
      Standin.X Standin.y 1 2%float 2 Evidence.beta_array
      Evidence.split_array Evidence.clust_array
    = Ok ([[0.5; 1; 0.5; 1]], [0.5; 1; 0.5; 1])%float /\
  @multivariate_split_scores float nat unit Standin.N (Standin.lib false)
      Standin.X Standin.y 1 2%float 2 Evidence.beta_array
      Evidence.split_array Evidence.clust_array
    = Ok ([[1; 4; 1; 4]], [1; 4; 1; 4])%float /\
  [[0.5; 1; 0.5; 1]]%float = [[0.5; 1; 0.5; 1]%float] /\
  [[1; 4; 1; 4]]%float = [[1; 4; 1; 4]%float].
Proof.
  assert (Hp : @multivariate_split_pval float nat unit Standin.N (Standin.lib false)
                 Standin.X Standin.y 1 2%float 2 Evidence.beta_array
                 Evidence.split_array Evidence.clust_array
               = Ok ([[0.5; 1; 0.5; 1]], [0.5; 1; 0.5; 1])%float)
    by (vm_compute; reflexivity).
  assert (Hs : @multivariate_split_scores float nat unit Standin.N (Standin.lib false)
                 Standin.X Standin.y 1 2%float 2 Evidence.beta_array
                 Evidence.split_array Evidence.clust_array
               = Ok ([[1; 4; 1; 4]], [1; 4; 1; 4])%float)
    by (vm_compute; reflexivity).
  split; [exact Hp|split; [exact Hs|]].
  exact (@single_split_is_not_aggregated float nat unit Standin.N (Standin.lib false)
           Standin.X Standin.y 2%float 2 Evidence.beta_array
           Evidence.split_array Evidence.clust_array _ _ _ _ Hp Hs).
Defined.

(** ** The univariate p-values and the splits *)

Section UnivariateSplits.
Context {A : Type} `{Numeric A}.
Variable pearsonr : list A -> list A -> result (A * A).

Lemma univariate_trial_ignores_split (X : matrix A) (y : list A)
    (sa sa' ca : list (list nat)) (n_split i : nat) :
  splits_in_range (nrows X) n_split sa ->
  splits_in_range (nrows X) n_split sa' ->
  i < n_split ->
  univariate_split_pval_trial pearsonr X y sa ca i
  = univariate_split_pval_trial pearsonr X y sa' ca i.
Proof.
  intros Hs Hs' Hi.
  destruct (Hs i Hi) as (idx & Ei & Hidx).
  destruct (Hs' i Hi) as (idx' & Ei' & Hidx').
  assert (Hm : forall l, Forall (fun j => j < nrows X) l ->
                 exists mask, bool_mask (nrows X) l = Ok mask).
  { intros l Hl; unfold bool_mask.
    assert (E : forallb (fun i0 => i0 <? nrows X) l = true).
    { apply forallb_forall; intros j Hj; rewrite Forall_forall in Hl.
      apply Nat.ltb_lt; auto. }
    rewrite E; eauto. }
  destruct (Hm idx Hidx) as (mask & Em).
  destruct (Hm idx' Hidx') as (mask' & Em').
  unfold univariate_split_pval_trial, getitem.
  rewrite Ei, Ei'; simpl; rewrite Em, Em'; reflexivity.
Qed.

Lemma univariate_loop_ext (t t' : nat -> result (list A * list A)) (p : nat)
    (trials : list nat) (out : matrix A) (last : option (list A)) :
  (forall i, In i trials -> t i = t' i) ->
  univariate_loop t p trials out last = univariate_loop t' p trials out last.
Proof.
  revert out last; induction trials as [|i trials IH]; intros out last Ht;
    [reflexivity|].
  simpl; rewrite (Ht i) by (left; reflexivity).
  destruct (t' i) as [[proj row]|e]; simpl; [|reflexivity].
  destruct (assign_row p i row out); simpl; [|reflexivity].
  apply IH; intros j Hj; apply Ht; right; auto.
Qed.

(** X19 ([univariate_split_pval], default path, any arithmetic): the
    p-values do not depend on the splits.  Each trial correlates the whole
    target with the whole projected design, so two ensembles with the same
    clusterings give the same result whatever rows their splits set aside,
    and whatever [size_split], [n_clusters] and [beta_array] are passed. *)
Theorem univariate_split_pval_ignores_splits (X : matrix A) (y : list A)
    (n_split : nat) (size_split size_split' : A) (n_clusters n_clusters' : nat)
    (beta_array beta_array' : matrix A)
    (split_array split_array' clust_array : list (list nat)) :
  splits_in_range (nrows X) n_split split_array ->
  splits_in_range (nrows X) n_split split_array' ->
  univariate_split_pval pearsonr X y n_split size_split n_clusters beta_array
    split_array clust_array
  = univariate_split_pval pearsonr X y n_split size_split' n_clusters' beta_array'
      split_array' clust_array.
Proof.
  intros Hs Hs'; unfold univariate_split_pval.
  rewrite (univariate_loop_ext
             (univariate_split_pval_trial pearsonr X y split_array clust_array)
             (univariate_split_pval_trial pearsonr X y split_array' clust_array));
    [reflexivity|].
  intros i Hi; apply in_seq in Hi.
  apply (univariate_trial_ignores_split X y _ _ _ n_split); auto; lia.
Qed.
End UnivariateSplits.

Lemma univariate_split_pval_ignores_splits_witness :
  @univariate_split_pval float (b64 log_of_gamma_min) pearson_standin
      Standin.X Standin.y 2 2%float 2 Evidence.beta_array Evidence.split_array
      Evidence.clust_array
    = Returns ([[0.5; 0.5; 0.5; 0.5]; [0.5; 0.5; 0.5; 0.5]], [1; 1; 1; 1])%float /\
  @univariate_split_pval float (b64 log_of_gamma_min) pearson_standin
      Standin.X Standin.y 2 2%float 2 Evidence.beta_array Evidence.split_array
      Evidence.clust_array
  = @univariate_split_pval float (b64 log_of_gamma_min) pearson_standin
      Standin.X Standin.y 2 1%float 3 [] other_split_array Evidence.clust_array.
Proof.
  split; [vm_compute; reflexivity|].
  apply (@univariate_split_pval_ignores_splits float (b64 log_of_gamma_min)
           pearson_standin).
  - intros i Hi; destruct i as [|[|i]]; [| |lia]; eexists; split;
      try reflexivity; repeat constructor.
  - intros i Hi; destruct i as [|[|i]]; [| |lia]; eexists; split;
      try reflexivity; repeat constructor.
Defined.


(** ** What [fit] stores and averages *)

Section FitConsensus.
Context {A G C : Type} `{Numeric A} (lib : Library A G C).
Variables (X y : matrix A) (connectivity : C) (n p k w : nat) (size th : A).

Local Abbreviation trial := (fit_trial lib X y connectivity n p k w size th).

Lemma fit_trial_steps (b b' : matrix A) (sp sp' cl cl' : list (list nat)) (i : nat)
    (s s' : StabilityLasso A G) :
  trial (b, sp, cl) i s = (s', Ok (b', sp', cl')) ->
  exists idx X_s P_inv X_proj labels alpha y_s beta_proj soln soln',
    take_rows X idx = Ok X_s /\
    projection lib X_s k connectivity = Ok (P_inv, X_proj, labels) /\
    lasso lib alpha X_proj y_s = Ok beta_proj /\
    assign_row k i beta_proj b = Ok b' /\
    assign_row p i labels cl = Ok cl' /\
    _soln s = Some soln /\
    iadd soln (matvec P_inv beta_proj) = Ok soln' /\
    _soln s' = Some soln'.
Proof.
  unfold fit_trial, mbind, call, self_, assign, ret; simpl; intros Ht.
  destruct (choice lib (generator s) n size) as [[split g]|e]; simpl in Ht;
    [|discriminate].
  destruct (take_rows y (sort_nat split)) as [y_s|e]; simpl in Ht; [|discriminate].
  destruct (take_rows X (sort_nat split)) as [X_s|e] eqn:EX; simpl in Ht;
    [|discriminate].
  destruct (projection lib X_s k connectivity) as [[[P_inv X_proj] labels]|e] eqn:EP;
    simpl in Ht; [|discriminate].
  destruct (np_max _) as [mx|e]; simpl in Ht; [|discriminate].
  destruct (lasso lib _ X_proj y_s) as [beta_proj|e] eqn:EL; simpl in Ht;
    [|discriminate].
  destruct (assign_row k i beta_proj b) as [b1|e] eqn:Eb; simpl in Ht; [|discriminate].
  destruct (assign_row w i (sort_nat split) sp) as [sp1|e]; simpl in Ht;
    [|discriminate].
  destruct (assign_row p i labels cl) as [cl1|e] eqn:Ec; simpl in Ht; [|discriminate].
  destruct (_soln s) as [soln|] eqn:Es; simpl in Ht; [|discriminate].
  destruct (iadd soln (matvec P_inv beta_proj)) as [soln'|e] eqn:Ei; simpl in Ht;
    [|discriminate].
  inversion Ht; subst; simpl.
  do 10 eexists; repeat split; eauto.
Qed.

Lemma take_rows_In {B : Type} (M : list B) (idx : list nat) (M' : list B) :
  take_rows M idx = Ok M' -> Forall (fun r => In r M) M'.
Proof.
  revert M'; induction idx as [|i idx IH]; intros M'; simpl.
  - intros E; injection E as <-; constructor.
  - destruct (getitem M i) as [r|e] eqn:Eg; simpl; [|discriminate].
    destruct (take_rows M idx) as [rest|e]; simpl; [|discriminate].
    intros E; injection E as <-; constructor; auto.
    unfold getitem in Eg; destruct (nth_error M i) eqn:En; [|discriminate].
    injection Eg as <-; eapply nth_error_In; eauto.
Qed.

Lemma pp_inv_shapes (labels : list nat) (P P_inv : matrix A) :
  pp_inv labels = Ok (P, P_inv) ->
  length P = n_unique labels /\ length P_inv = length labels.
Proof.
  unfold pp_inv; destruct (coo_matrix _ _ _ _ _) as [M|e]; simpl; [|discriminate].
  intros E; injection E as <- <-; unfold matmul, dia_matrix, transpose.
  rewrite !length_map, !length_seq; auto.
Qed.

Lemma project_ncols (q : nat) (P M : matrix A) :
  1 <= nrows M -> ncols (project q P M) = length P.
Proof.
  unfold project, transpose, nrows; intros Hn.
  destruct (length M) as [|m]; [lia|].
  simpl; unfold column, matmul; rewrite !length_map; reflexivity.
Qed.

Lemma project_empty (q : nat) (P : matrix A) : project q P [] = [].
Proof. reflexivity. Qed.

Lemma assign_row_cases {B : Type} (q i : nat) (row : list B) (M M' : list (list B)) :
  assign_row q i row M = Ok M' ->
  i < length M /\
  ((length row = q /\ M' = update i row M) \/
   (exists v, row = [v] /\ q <> 1 /\ M' = update i (repeat v q) M)).
Proof.
  unfold assign_row.
  destruct (Nat.ltb_spec i (length M)); [|discriminate].
  destruct (Nat.eqb_spec (length row) q) as [E|E].
  - intros E'; injection E' as <-; auto.
  - destruct row as [|v [|? ?]]; try discriminate.
    intros E'; injection E' as <-; split; auto; right; exists v; auto.
Qed.

Hypothesis Hshapes : shapes_as_asked lib.
Hypothesis Hrect : Forall (fun row => length row = p) X.

(** Under the shapes of the library a trial stores what it computed. *)
Lemma fit_trial_stored (b b' : matrix A) (sp sp' cl cl' : list (list nat)) (i : nat)
    (s s' : StabilityLasso A G) (soln : list A) :
  trial (b, sp, cl) i s = (s', Ok (b', sp', cl')) ->
  _soln s = Some soln -> length soln = p ->
  exists labels beta_proj,
    length labels = p /\ length beta_proj = k /\
    i < length b /\ i < length cl /\
    b' = update i beta_proj b /\ cl' = update i labels cl /\
    _soln s' = Some (map2 add soln (back_project labels beta_proj)) /\
    length (map2 add soln (back_project labels beta_proj)) = p.
Proof.
  intros Ht Hs Hlen.
  destruct (fit_trial_steps _ _ _ _ _ _ _ _ _ Ht)
    as (idx & X_s & P_inv & X_proj & labels & alpha & y_s & beta_proj & so & so'
        & EX & EP & EL & Eb & Ec & Es & Ei & Es').
  rewrite Hs in Es; injection Es as <-.
  destruct Hshapes as [Hclu Hlas].
  unfold projection in EP.
  destruct (feature_agglomeration lib X_s k connectivity) as [lab|e] eqn:Ef;
    simpl in EP; [|discriminate].
  destruct (pp_inv lab) as [[P Pi]|e] eqn:Epp; simpl in EP; [|discriminate].
  injection EP as <- <- <-.
  destruct (Hclu _ _ _ _ Ef) as [Hlab Hk].
  destruct (pp_inv_shapes _ _ _ Epp) as [HP HPi].
  pose proof (Hlas _ _ _ _ EL) as Hbeta.
  pose proof (take_rows_In _ _ _ EX) as Hrows.
  assert (Hcols : X_s = [] \/ (1 <= nrows X_s /\ ncols X_s = p)).
  { destruct X_s as [|r rest]; [left; reflexivity|right; split; [simpl; lia|]].
    inversion Hrows; subst; rewrite Forall_forall in Hrect; simpl; auto. }
  destruct (assign_row_cases _ _ _ _ _ Ec) as [Hicl Hc].
  destruct (assign_row_cases _ _ _ _ _ Eb) as [Hib Hb].
  assert (Hlabp : length lab = p /\ cl' = update i lab cl).
  { destruct Hc as [[Hl ->]|(v & -> & Hne & _)]; [auto|exfalso].
    destruct Hcols as [->|[_ Hc]]; simpl in Hlab; [discriminate|lia]. }
  destruct Hlabp as [Hlabp ->].
  assert (Hbk : length beta_proj = k /\ b' = update i beta_proj b).
  { destruct Hb as [[Hl ->]|(v & -> & Hne & _)]; [auto|exfalso].
    simpl in Hbeta.
    destruct Hcols as [->|[Hn _]].
    - rewrite project_empty in Hbeta; simpl in Hbeta; discriminate.
    - rewrite project_ncols in Hbeta by auto; lia. }
  destruct Hbk as [Hbk ->].
  assert (Hadd : so' = map2 add soln (back_project lab beta_proj)).
  { unfold back_project; rewrite Epp.
    unfold iadd in Ei; unfold matvec in *; rewrite length_map in Ei.
    rewrite HPi, Hlabp, Hlen, Nat.eqb_refl in Ei.
    injection Ei as <-; reflexivity. }
  exists lab, beta_proj; subst so'; repeat split; auto.
  rewrite map2_length; auto.
  unfold back_project; rewrite Epp; unfold matvec; rewrite length_map; lia.
Qed.

Local Abbreviation step b cl :=
  (fun acc i => map2 add acc (back_project (nth i cl []) (nth i b []))).

Lemma fit_loop_stored (m a : nat) (b b' : matrix A) (sp sp' cl cl' : list (list nat))
    (s s' : StabilityLasso A G) (soln : list A) :
  fit_loop trial (seq a m) (b, sp, cl) s = (s', Ok (b', sp', cl')) ->
  _soln s = Some soln -> length soln = p ->
  length b' = length b /\ length cl' = length cl /\
  (forall j, j < a \/ a + m <= j ->
     nth j b' [] = nth j b [] /\ nth j cl' [] = nth j cl []) /\
  (forall j, a <= j < a + m ->
     j < length b /\ j < length cl /\
     length (nth j b' []) = k /\ length (nth j cl' []) = p) /\
  _soln s' = Some (fold_left (step b' cl') (seq a m) soln).
Proof.
  revert a b sp cl s soln; induction m as [|m IH]; intros a b sp cl s soln.
  - simpl; unfold ret; intros Hl Hs Hlen; inversion Hl; subst.
    repeat split; auto; intros; lia.
  - change (fit_loop trial (seq a (S m)) (b, sp, cl) s)
      with (mbind (trial (b, sp, cl) a)
                  (fun arr' => fit_loop trial (seq (S a) m) arr') s).
    unfold mbind at 1.
    destruct (trial (b, sp, cl) a s) as [s1 [[[b1 sp1] cl1]|e]] eqn:Et;
      [|intros Hl; discriminate].
    intros Hl Hs Hlen.
    destruct (fit_trial_stored _ _ _ _ _ _ _ _ _ _ Et Hs Hlen)
      as (labels & beta & Hlab & Hbeta & Hib & Hic & -> & -> & Hs1 & Hlen1).
    destruct (IH (S a) _ _ _ _ _ Hl Hs1 Hlen1)
      as (Hlb & Hlc & Hout & Hin & Hsoln).
    rewrite update_length in Hlb; rewrite update_length in Hlc.
    assert (Ha : nth a b' [] = beta /\ nth a cl' [] = labels).
    { destruct (Hout a ltac:(lia)) as [-> ->].
      rewrite !update_nth_same by auto; auto. }
    destruct Ha as [Hab Hac].
    split; [auto|split; [auto|split; [|split]]].
    + intros j Hj; destruct (Hout j ltac:(lia)) as [-> ->].
      rewrite !update_nth_other by lia; auto.
    + intros j Hj; destruct (Nat.eq_dec j a) as [->|Hne].
      * rewrite Hab, Hac; auto.
      * destruct (Hin j ltac:(lia)) as (Hjb & Hjc & Hkb & Hpc).
        rewrite update_length in Hjb; rewrite update_length in Hjc; auto.
    + rewrite Hsoln; simpl; rewrite Hab, Hac; reflexivity.
Qed.

End FitConsensus.

Section FitConsensusTheorem.
Context {A G C : Type} `{Numeric A} (lib : Library A G C).

(** X20 ([StabilityLasso.fit]): when the library returns the shapes asked
    for and the standardized design is rectangular, a fit that returns has
    stored one row of [n_clusters_] Lasso coefficients and one row of [p]
    labels per split, and [coef_] is the consensus of that evidence: the sum
    over the splits, in their order, of the coefficients copied back to the
    features of each cluster, divided by [n_split]. *)
Theorem fit_coef_is_consensus (X : matrix A) (y : list A) (connectivity : C)
    (m m' : StabilityLasso A G) (mu : list A) (X' : matrix A) :
  shapes_as_asked lib ->
  standard_scaler lib X = Ok (mu, X') ->
  Forall (fun row => length row = ncols X') X' ->
  fit lib X y connectivity m = (m', Ok tt) ->
  exists (kz : Z) (b : matrix A) (cl : list (list nat)),
    n_clusters_ m' = Some (Count kz) /\
    _beta_array m' = Some b /\ _clust_array m' = Some cl /\
    length b = n_split m /\ length cl = n_split m /\
    (forall j, j < n_split m ->
       length (nth j b []) = Z.to_nat kz /\ length (nth j cl []) = ncols X') /\
    coef_ m' = Some (consensus (ncols X') (n_split m) b cl).
Proof.
  intros Hshapes HX Hrect.
  unfold fit, mbind, call, self_, assign, ret.
  destruct (standard_scaler lib (map (fun v => [v]) y)) as [[mean_ y']|e];
    [|intros Hf; discriminate].
  rewrite HX; cbv beta iota.
  destruct (resolve_n_clusters _ _) as [kz|e]; [|intros Hf; discriminate].
  cbv beta iota.
  destruct (dimension kz) as [k|e] eqn:Ek; [|intros Hf; discriminate].
  cbv beta iota.
  destruct (as_dimension _) as [w|e] eqn:Hw; [|intros Hf; discriminate].
  cbv beta iota.
  match goal with
  | |- context [fit_loop ?t ?l ?a ?s] =>
      destruct (fit_loop t l a s) as [s1 [[[b sp] cl]|e]] eqn:El
  end; [|intros Hf; discriminate].
  cbv beta iota; intros Hf; inversion Hf; subst m'; clear Hf.
  simpl n_split in *.
  assert (Hn : n_clusters_ s1 = Some (Count kz)).
  { pose proof (f_equal fst El) as Hfst; simpl in Hfst.
    rewrite fit_loop_frame in Hfst; rewrite <- Hfst; reflexivity. }
  eapply (fit_loop_stored lib X' y' connectivity (nrows X') (ncols X') k w _ _
            Hshapes Hrect) in El; [|reflexivity|apply repeat_length].
  destruct El as (Hlb & Hlc & _ & Hin & Hsoln).
  rewrite repeat_length in Hlb, Hlc.
  assert (Hkz : k = Z.to_nat kz).
  { unfold dimension in Ek; destruct (kz <? 0)%Z; [discriminate|].
    injection Ek as <-; reflexivity. }
  exists kz, b, cl; simpl.
  rewrite Hsoln; unfold consensus; subst k.
  split; [auto|split; [auto|split; [auto|split; [auto|split; [auto|split; [|auto]]]]]].
  intros j Hj; destruct (Hin j ltac:(lia)) as (_ & _ & Hb & Hc); auto.
Qed.
End FitConsensusTheorem.

Lemma round_robin_labels (k p : nat) :
  1 <= k <= p -> n_unique (map (fun j => j mod k) (seq 0 p)) = k.
Proof.
  intros Hk; unfold n_unique.
  transitivity (length (seq 0 k)); [|apply length_seq].
  apply Permutation_length.
  apply NoDup_Permutation; [apply NoDup_nodup|apply seq_NoDup|].
  intros x; rewrite nodup_In, in_map_iff, in_seq; split.
  - intros (j & <- & _); split; [lia|].
    simpl; apply Nat.mod_upper_bound; lia.
  - intros Hx; exists x; split; [apply Nat.mod_small; lia|apply in_seq; lia].
Qed.

Lemma standin_shapes (b : bool) :
  @shapes_as_asked float nat unit Standin.N (Standin.lib b).
Proof.
  split.
  - intros X k c labels; simpl; unfold Standin.labels.
    destruct (Nat.leb_spec 1 k); simpl; [|discriminate].
    destruct (Nat.leb_spec k (ncols X)); simpl; [|discriminate].
    intros E; injection E as <-; split.
    + rewrite length_map, length_seq; reflexivity.
    + apply round_robin_labels; lia.
  - intros alpha X y beta; simpl; intros E; injection E as <-.
    apply repeat_length.
Qed.

Lemma fit_coef_is_consensus_witness :
  exists (kz : Z) (b : matrix float) (cl : list (list nat)),
    n_clusters_ (fitted 0.5 3) = Some (Count kz) /\
    _beta_array (fitted 0.5 3) = Some b /\ _clust_array (fitted 0.5 3) = Some cl /\
    length b = 2 /\ length cl = 2 /\
    (forall j, j < 2 ->
       length (nth j b []) = Z.to_nat kz /\ length (nth j cl []) = 4) /\
    coef_ (fitted 0.5 3) = Some (@consensus float Standin.N 4 2 b cl).
Proof.
  apply (@fit_coef_is_consensus float nat unit Standin.N (Standin.lib true)
           Standin.X Standin.y tt (model 0.5 3) (fitted 0.5 3)
           [0; 0; 0; 0]%float Standin.X).
  - apply standin_shapes.
  - reflexivity.
  - repeat constructor.
  - vm_compute; reflexivity.
Defined.

Lemma count_true_le (mask : list bool) : count_true mask <= length mask.
Proof. unfold count_true; apply filter_length_le. Qed.

(** X21 ([multivariate_split_scores], real arithmetic): when the OLS call
    reports p-values in [0,1] and every stored labeling has one label per
    feature, every per-split score returned lies between 0 and the number
    [p] of features. *)
Theorem multivariate_split_scores_range {G C : Type} (lib : Library R G C)
    (X : matrix R) (y : list R) (n_split : nat) (size_split : R)
    (n_clusters : nat) (beta_array : matrix R)
    (split_array clust_array : list (list nat))
    (scores : matrix R) (scores_aggregated : list R) :
  (forall y' X' res, ols_pvalues lib y' X' = Ok res ->
     Forall (fun v => 0 <= v <= 1)%R res) ->
  Forall (fun clust => length clust = ncols X) clust_array ->
  multivariate_split_scores lib X y n_split size_split n_clusters beta_array
    split_array clust_array = Ok (scores, scores_aggregated) ->
  Forall (Forall (fun x => 0 <= x <= INR (ncols X))%R) scores.
Proof.
  intros Hols Hca; unfold multivariate_split_scores.
  destruct (split_loop _ _ _ _) as [sc|e] eqn:El; simpl; [|discriminate].
  destruct (if 1 <? n_split then _ else _) as [q|e]; simpl; [|discriminate].
  intros E; injection E as <- _.
  pose proof (pos_INR (ncols X)) as Hp.
  eapply (split_loop_range (INR (ncols X))); [|exact El|].
  - intros i r Hr; unfold multivariate_split_scores_row in Hr.
    destruct (held_out_design _ _ _ _ _ _) as [[[[[yt Xm] mp] Pi] bp]|e] eqn:Eh;
      simpl in Hr; [|discriminate].
    destruct (ols_pvalues lib yt Xm) as [res|e] eqn:Eo; simpl in Hr; [|discriminate].
    destruct (mask_assign _ _ _) as [proj|e] eqn:Em; simpl in Hr; [|discriminate].
    injection Hr as <-.
    unfold held_out_design in Eh.
    destruct (getitem split_array i) as [idx|e]; simpl in Eh; [|discriminate].
    destruct (bool_mask _ idx) as [split|e]; simpl in Eh; [|discriminate].
    destruct (getitem clust_array i) as [clust|e] eqn:Ec; simpl in Eh; [|discriminate].
    destruct (pp_inv clust) as [[P Pi']|e] eqn:Ep; simpl in Eh; [|discriminate].
    destruct (getitem beta_array i) as [beta|e]; simpl in Eh; [|discriminate].
    injection Eh as _ _ _ <- <-.
    assert (Hlen : length clust = ncols X).
    { apply getitem_In in Ec; rewrite Forall_forall in Hca; auto. }
    eapply (back_projection_range (INR (ncols X))); [exact Hp|exact Ep|].
    eapply (mask_assign_range (INR (ncols X))); [exact Em| |].
    + apply Forall_forall; intros x Hx; apply in_map_iff in Hx.
      destruct Hx as (v & <- & Hv).
      pose proof (Hols _ _ _ Eo) as Hres; rewrite Forall_forall in Hres.
      specialize (Hres v Hv).
      set (ms := count_true _).
      assert (Hms : ms <= ncols X).
      { unfold ms; etransitivity; [apply count_true_le|].
        unfold support, matvec; rewrite !length_map.
        destruct (pp_inv_shapes _ _ _ Ep) as [_ ->]; lia. }
      apply le_INR in Hms; pose proof (pos_INR ms).
      rewrite <- ?INR_IZR_INZ, ?of_nat_R; simpl; nra.
    + apply Forall_forall; intros x Hx; apply in_map_iff in Hx.
      destruct Hx as (o & <- & Ho); apply repeat_spec in Ho; subst.
      rewrite <- ?INR_IZR_INZ, ?of_nat_R; change (@one R _) with 1%R; simpl; lra.
  - apply Forall_forall; intros r Hr; apply repeat_spec in Hr; subst.
    apply Forall_forall; intros x Hx.
    assert (Hpos : 1 <= ncols X) by (destruct (ncols X); [destruct Hx|lia]).
    apply repeat_spec in Hx; subst.
    apply le_INR in Hpos; change (@one R _) with 1%R; simpl in Hpos; lra.
Qed.

Lemma multivariate_split_scores_range_witness :
  multivariate_split_scores StandinR.lib StandinR.X StandinR.y 1 1%R 2
    [[1; 0]]%R [[0]] [[0; 1; 0; 1]]
    = Ok ([[1; 4; 1; 4]], [1; 4; 1; 4])%R /\
  Forall (Forall (fun x => 0 <= x <= INR (ncols StandinR.X))%R) [[1; 4; 1; 4]]%R.
Proof.
  assert (Hs : @support R _ [1; 0]%R = [true; false]).
  { unfold support; simpl; unfold Rltb.
    destruct (Rlt_dec 0 (1 * 1)), (Rlt_dec 0 (0 * 0)); try lra; reflexivity. }
  assert (Hs4 : @support R _ [1; 0; 1; 0]%R = [true; false; true; false]).
  { unfold support; simpl; unfold Rltb.
    destruct (Rlt_dec 0 (1 * 1)), (Rlt_dec 0 (0 * 0)); try lra; reflexivity. }
  assert (H10 : forall a b : R, spdot [1; 0]%R [a; b] = a).
  { intros a b; unfold spdot, stored, zero, sum; simpl; unfold Rltb.
    destruct (Rlt_dec 1 0), (Rlt_dec 0 1), (Rlt_dec 0 0); simpl; lra. }
  assert (H01 : forall a b : R, spdot [0; 1]%R [a; b] = b).
  { intros a b; unfold spdot, stored, zero, sum; simpl; unfold Rltb.
    destruct (Rlt_dec 1 0), (Rlt_dec 0 1), (Rlt_dec 0 0); simpl; lra. }
  assert (E : multivariate_split_scores StandinR.lib StandinR.X StandinR.y 1 1%R 2
                [[1; 0]]%R [[0]] [[0; 1; 0; 1]]
              = Ok ([[1; 4; 1; 4]], [1; 4; 1; 4])%R).
  { unfold multivariate_split_scores, multivariate_split_scores_row, held_out_design.
    cbn -[pp_inv support project matvec mask_assign clip one zero of_nat
          StandinR.X StandinR.y ncols compress].
    rewrite (pp_inv_membership [0; 1; 0; 1]) by (repeat constructor).
    cbn -[support matvec mask_assign spdot count_true of_nat one].
    rewrite Hs.
    cbn -[support mask_assign spdot count_true of_nat one].
    rewrite !H10, !H01, Hs4.
    cbn -[spdot].
    rewrite !H10, !H01.
    replace (2 * (1 / 2))%R with 1%R by lra.
    replace (4 * 1)%R with 4%R by lra.
    reflexivity. }
  split; [exact E|].
  refine (multivariate_split_scores_range _ _ _ _ _ _ _ _ _ _ _ _ _ E).
  - intros y' X' res Hres; simpl in Hres; injection Hres as <-.
    apply Forall_forall; intros v Hv; apply repeat_spec in Hv; subst; lra.
  - repeat constructor.
Defined.
